(** * Synchrome: the Page connection, its helpers and the Browser registry

    A shallow embedding of [Page.js] (request/response correlation over one
    web socket, event dispatch, script helpers) and of [Browser.js] (the
    registry of opened pages and the choice of the default page).

    Layout: JSON values and [JSON.parse]; the JavaScript operations the code
    relies on ([in], member access, truthiness); the Page object as a state
    record with the receive path [_onMessage], [send], [listen] and [wait],
    and the histories of a Page; the promise-returning helpers ([exec],
    [execSync], [waitFor], [navigate], [post]) as trees of the requests they
    chain, run against the answers of the browser; the Browser registry.
    Then the invariants of a Page and of the registry, and the properties of
    correlation, dispatch, script execution, polling and the registry. *)

From Stdlib Require Import ZArith QArith Qround Lqa Ascii String List Lia.
From stdpp Require Import base gmap list strings pretty.
From Equations Require Import Equations.

Local Set Warnings "-register-all".
Open Scope Z_scope.

(** ** JSON values *)

(** The doubles that are no decimal fraction. *)
Inductive special : Type :=
| NegZero
| Infinity
| NegInfinity.

(** What [JSON.parse] returns. A number is a double: [JSON.parse] rounds the
    literal to the nearest double, a tie to the one with an even
    significand, beyond the range to an infinity. A double is kept as its
    exact decimal value [mantissa * 10 ^ exponent] in lowest terms (exponent
    0 for an integer, else negative with a mantissa that is no multiple of
    ten). A string is kept as the UTF-8 bytes of its characters (a surrogate
    that is not part of a pair as three bytes). Object members are kept in
    source order, duplicates included. *)
Inductive json : Type :=
| JNull
| JBool (b : bool)
| JNum (mantissa exponent : Z)
| JSpecial (x : special)
| JStr (s : string)
| JArr (elements : list json)
| JObj (members : list (string * json)).

Module JSON.

Definition code (c : ascii) : Z := Z.of_N (N_of_ascii c).
Definition chr (n : Z) : ascii := ascii_of_N (Z.to_N n).

Definition is_ws (c : ascii) : bool :=
  let n := code c in (n =? 32) || (n =? 9) || (n =? 10) || (n =? 13).

Fixpoint skip_ws (s : list ascii) : list ascii :=
  match s with
  | c :: r => if is_ws c then skip_ws r else s
  | [] => []
  end.

Definition digit (c : ascii) : option Z :=
  let n := code c in
  if (48 <=? n) && (n <=? 57) then Some (n - 48) else None.

Definition hex (c : ascii) : option Z :=
  let n := code c in
  if (48 <=? n) && (n <=? 57) then Some (n - 48)
  else if (65 <=? n) && (n <=? 70) then Some (n - 55)
  else if (97 <=? n) && (n <=? 102) then Some (n - 87)
  else None.

(** [digits acc cnt s] reads the longest run of decimal digits. *)
Fixpoint digits (acc : Z) (cnt : Z) (s : list ascii) : Z * Z * list ascii :=
  match s with
  | c :: r =>
      match digit c with
      | Some d => digits (10 * acc + d) (cnt + 1) r
      | None => (acc, cnt, s)
      end
  | [] => (acc, cnt, [])
  end.

(** int: [0] or a non-zero digit followed by digits. *)
Definition int_part (s : list ascii) : option (Z * list ascii) :=
  match s with
  | c :: r =>
      match digit c with
      | Some 0 => Some (0, r)
      | Some d => let '(n, _, r') := digits d 1 r in Some (n, r')
      | None => None
      end
  | [] => None
  end.

(** frac: an optional [.] followed by at least one digit. *)
Definition frac_part (m : Z) (s : list ascii) : option (Z * Z * list ascii) :=
  match s with
  | c :: r =>
      if code c =? 46 then
        let '(m', cnt, r') := digits m 0 r in
        if cnt =? 0 then None else Some (m', cnt, r')
      else Some (m, 0, s)
  | [] => Some (m, 0, [])
  end.

(** exp: an optional [e] or [E], an optional sign, at least one digit. *)
Definition exp_part (s : list ascii) : option (Z * list ascii) :=
  match s with
  | c :: r =>
      if (code c =? 101) || (code c =? 69) then
        let '(neg, r1) :=
          match r with
          | d :: r0 =>
              if code d =? 45 then (true, r0)
              else if code d =? 43 then (false, r0) else (false, r)
          | [] => (false, r)
          end in
        let '(e, cnt, r2) := digits 0 0 r1 in
        if cnt =? 0 then None else Some (if neg then - e else e, r2)
      else Some (0, s)
  | [] => Some (0, [])
  end.

(** [n / d] rounded to the nearest integer, a tie to the even one
    ([0 <= n], [0 < d]). *)
Definition nearest (n d : Z) : Z :=
  let q := n / d in
  let r := n mod d in
  if 2 * r <? d then q
  else if d <? 2 * r then q + 1
  else if Z.even q then q else q + 1.

(** The fraction [n / d] divided by [2 ^ p]. *)
Definition scaled (n d p : Z) : Z * Z :=
  if 0 <=? p then (n, d * 2 ^ p) else (n * 2 ^ (- p), d).

(** The double nearest to the fraction [n / d] ([0 < n], [0 < d]), as a
    significand [s <= 2 ^ 53] and a binary exponent [p >= -1074], its value
    being [s * 2 ^ p]: 53 significant bits, fewer below [2 ^ -1022].
    [None]: the rounded value is [2 ^ 1024] or more. *)
Definition round_double (n d : Z) : option (Z * Z) :=
  let l0 := Z.log2 n - Z.log2 d in
  let '(n0, d0) := scaled n d l0 in
  let l := if n0 <? d0 then l0 - 1 else l0 in
  let p := Z.max (l - 52) (- 1074) in
  let '(n1, d1) := scaled n d p in
  let s := nearest n1 d1 in
  if (0 <=? p) && (2 ^ 1024 <=? s * 2 ^ p) then None else Some (s, p).

(** [s * 2 ^ p] with [s] odd or [p = 0], for [p <= 0]. *)
Fixpoint lowest (fuel : nat) (s p : Z) : Z * Z :=
  match fuel with
  | S fuel => if (p <? 0) && Z.even s then lowest fuel (s / 2) (p + 1) else (s, p)
  | O => (s, p)
  end.

(** [s * 2 ^ p] as a decimal in lowest terms ([0 < s <= 2 ^ 53]). *)
Definition decimal (s p : Z) : Z * Z :=
  let '(s', p') := lowest 64 s p in
  if 0 <=? p' then (s' * 2 ^ p', 0) else (s' * 5 ^ (- p'), p').

(** The Number a literal of value [m * 10 ^ e] ([0 <= m]) with or without a
    minus sign denotes: the nearest double, an infinity when that is
    [2 ^ 1024] or more, a zero when it is 0. The two tests on the size of
    [m] and [e] only spare the powers of ten of a literal far out of range,
    which is [2 ^ 1024] or more, or less than [2 ^ -1075] (half the least
    double): [2 ^ b <= m < 2 ^ (b + 1)], [2 ^ (3 * e) <= 10 ^ e] for
    [0 <= e] and [10 ^ e < 2 ^ (3 * e)] for [e < 0]. *)
Definition double (neg : bool) (m e : Z) : json :=
  let zero := if neg then JSpecial NegZero else JNum 0 0 in
  let infinity := JSpecial (if neg then NegInfinity else Infinity) in
  if m =? 0 then zero
  else
    let b := Z.log2 m in
    if (0 <=? e) && (1024 <=? b + 3 * e) then infinity
    else if (e <? 0) && (b + 1 + 3 * e <=? - 1075) then zero
    else
      let n := if 0 <=? e then m * 10 ^ e else m in
      let d := if 0 <=? e then 1 else 10 ^ (- e) in
      match round_double n d with
      | None => infinity
      | Some (s, p) =>
          if s =? 0 then zero
          else let '(m', e') := decimal s p in JNum (if neg then - m' else m') e'
      end.

Definition number (s : list ascii) : option (json * list ascii) :=
  let '(neg, s1) :=
    match s with
    | c :: r => if code c =? 45 then (true, r) else (false, s)
    | [] => (false, s)
    end in
  match int_part s1 with
  | Some (n, s2) =>
      match frac_part n s2 with
      | Some (m, fd, s3) =>
          match exp_part s3 with
          | Some (e, s4) => Some (double neg m (e - fd), s4)
          | None => None
          end
      | None => None
      end
  | None => None
  end.

(** The UTF-8 bytes of one UTF-16 code unit (a surrogate is encoded on its
    own here; [pairs] joins the two of a pair). *)
Definition utf8 (u : Z) : list ascii :=
  if u <? 128 then [chr u]
  else if u <? 2048 then
    [chr (Z.lor 192 (Z.shiftr u 6)); chr (Z.lor 128 (Z.land u 63))]
  else
    [chr (Z.lor 224 (Z.shiftr u 12));
     chr (Z.lor 128 (Z.land (Z.shiftr u 6) 63));
     chr (Z.lor 128 (Z.land u 63))].

Definition escape (c : ascii) : option ascii :=
  let n := code c in
  if (n =? 34) || (n =? 92) || (n =? 47) then Some c
  else if n =? 98 then Some (chr 8)
  else if n =? 102 then Some (chr 12)
  else if n =? 110 then Some (chr 10)
  else if n =? 114 then Some (chr 13)
  else if n =? 116 then Some (chr 9)
  else None.

(** A high surrogate followed by a low surrogate is one character, above
    U+FFFF: their two groups of three bytes become the four bytes of that
    character. *)
Fixpoint pairs (s : list ascii) : list ascii :=
  match s with
  | a :: t =>
      match t with
      | b :: c :: d :: e :: f :: r =>
          if (code a =? 237) && (160 <=? code b) && (code b <=? 175)
             && (128 <=? code c) && (code c <=? 191)
             && (code d =? 237) && (176 <=? code e) && (code e <=? 191)
             && (128 <=? code f) && (code f <=? 191)
          then
            let hi := 64 * (code b - 160) + (code c - 128) in
            let lo := 64 * (code e - 176) + (code f - 128) in
            let u := 65536 + 1024 * hi + lo in
            chr (Z.lor 240 (Z.shiftr u 18))
              :: chr (Z.lor 128 (Z.land (Z.shiftr u 12) 63))
              :: chr (Z.lor 128 (Z.land (Z.shiftr u 6) 63))
              :: chr (Z.lor 128 (Z.land u 63))
              :: pairs r
          else a :: pairs t
      | _ => a :: pairs t
      end
  | [] => []
  end.

(** The characters of a string literal after its opening quote; [acc] holds
    the decoded bytes in reverse. *)
Fixpoint chars (acc : list ascii) (s : list ascii) : option (string * list ascii) :=
  match s with
  | [] => None
  | c :: r =>
      if code c =? 34 then Some (string_of_list_ascii (pairs (rev acc)), r)
      else if code c =? 92 then
        match r with
        | e :: r1 =>
            if code e =? 117 then
              match r1 with
              | h1 :: h2 :: h3 :: h4 :: r2 =>
                  match hex h1, hex h2, hex h3, hex h4 with
                  | Some a, Some b, Some c', Some d =>
                      chars (rev (utf8 (4096 * a + 256 * b + 16 * c' + d)) ++ acc) r2
                  | _, _, _, _ => None
                  end
              | _ => None
              end
            else
              match escape e with
              | Some x => chars (x :: acc) r1
              | None => None
              end
        | [] => None
        end
      else if code c <? 32 then None
      else chars (c :: acc) r
  end.

Definition literal (word : list ascii) (v : json) (s : list ascii) : option (json * list ascii) :=
  if decide (take (length word) s = word) then Some (v, drop (length word) s) else None.

(** [value], [elements] (what follows [[] or a comma in an array, up to the
    closing bracket) and [members] (the same for an object); the fuel bounds
    the nesting and the number of siblings, and [parse] gives as much fuel
    as the text has characters. *)
Fixpoint value (fuel : nat) (s : list ascii) : option (json * list ascii) :=
  match fuel with
  | O => None
  | S fuel =>
      match skip_ws s with
      | [] => None
      | c :: r =>
          let n := code c in
          if n =? 123 then
            match skip_ws r with
            | c' :: r' =>
                if code c' =? 125 then Some (JObj [], r')
                else members fuel [] (c' :: r')
            | [] => None
            end
          else if n =? 91 then
            match skip_ws r with
            | c' :: r' =>
                if code c' =? 93 then Some (JArr [], r')
                else elements fuel [] (c' :: r')
            | [] => None
            end
          else if n =? 34 then
            match chars [] r with
            | Some (str, r') => Some (JStr str, r')
            | None => None
            end
          else if n =? 116 then literal (list_ascii_of_string "true") (JBool true) (c :: r)
          else if n =? 102 then literal (list_ascii_of_string "false") (JBool false) (c :: r)
          else if n =? 110 then literal (list_ascii_of_string "null") JNull (c :: r)
          else number (c :: r)
      end
  end
with elements (fuel : nat) (acc : list json) (s : list ascii) : option (json * list ascii) :=
  match fuel with
  | O => None
  | S fuel =>
      match value fuel s with
      | Some (v, r) =>
          match skip_ws r with
          | c :: r' =>
              if code c =? 44 then elements fuel (v :: acc) r'
              else if code c =? 93 then Some (JArr (rev (v :: acc)), r')
              else None
          | [] => None
          end
      | None => None
      end
  end
with members (fuel : nat) (acc : list (string * json)) (s : list ascii) : option (json * list ascii) :=
  match fuel with
  | O => None
  | S fuel =>
      match skip_ws s with
      | q :: r0 =>
          if code q =? 34 then
            match chars [] r0 with
            | Some (k, r1) =>
                match skip_ws r1 with
                | colon :: r2 =>
                    if code colon =? 58 then
                      match value fuel r2 with
                      | Some (v, r3) =>
                          match skip_ws r3 with
                          | c :: r4 =>
                              if code c =? 44 then members fuel ((k, v) :: acc) r4
                              else if code c =? 125 then Some (JObj (rev ((k, v) :: acc)), r4)
                              else None
                          | [] => None
                          end
                      | None => None
                      end
                    else None
                | [] => None
                end
            | None => None
            end
          else None
      | [] => None
      end
  end.

(** [JSON.parse(text)]: [None] stands for the [SyntaxError] it throws. *)
Definition parse (text : string) : option json :=
  let s := list_ascii_of_string text in
  match value (S (length s)) s with
  | Some (v, r) => match skip_ws r with [] => Some v | _ => None end
  | None => None
  end.

End JSON.

(** ** JavaScript values and the operations the code applies to them *)

(** What a variable holding parsed data can contain: a JSON value, or
    [undefined] (a member that is absent). *)
Inductive val : Type :=
| undefined
| J (j : json).

(** Exceptions raised by the language and by the event emitter;
    [ListenerError f] is whatever the listener function [f] throws. *)
Inductive error : Type :=
| SyntaxError
| TypeError
| ERR_UNHANDLED_ERROR
| ListenerError (f : nat).

(** What a promise is rejected with: a value handed to [reject], or a caught
    exception. *)
Inductive reason : Type :=
| Value (v : val)
| Exception (e : error).

Inductive result (A : Type) : Type :=
| Ok (a : A)
| Raise (e : error).
Arguments Ok {A} a.
Arguments Raise {A} e.

Module JS.

(** Own member [k] of an object literal; of duplicated keys the last one
    stands, as in [JSON.parse]. *)
Fixpoint member (k : string) (ms : list (string * json)) : option json :=
  match ms with
  | [] => None
  | (k', v) :: r =>
      match member k r with
      | Some x => Some x
      | None => if decide (k = k') then Some v else None
      end
  end.

(** [k in j], for the names the code tests ([id], [error], [method]): no
    prototype and no array carries them, and [in] applied to a primitive or
    to [null] throws. *)
Definition has (k : string) (j : json) : result bool :=
  match j with
  | JObj ms => Ok (bool_decide (is_Some (member k ms)))
  | JArr _ => Ok false
  | _ => Raise TypeError
  end.

(** [v.k], for the names the code reads ([id], [error], [result], [method],
    [params], [code], [message], [text], [source], [value],
    [exceptionDetails], [promise]): reading a member of [undefined] or
    [null] throws, a primitive or an array has no such member. *)
Definition get (v : val) (k : string) : result val :=
  match v with
  | undefined => Raise TypeError
  | J JNull => Raise TypeError
  | J (JObj ms) =>
      match member k ms with
      | Some x => Ok (J x)
      | None => Ok undefined
      end
  | J _ => Ok undefined
  end.

(** [if (v)] *)
Definition truthy (v : val) : bool :=
  match v with
  | undefined => false
  | J JNull => false
  | J (JBool b) => b
  | J (JNum m _) => negb (m =? 0)
  | J (JSpecial NegZero) => false
  | J (JSpecial _) => true
  | J (JStr s) => negb (bool_decide (s = EmptyString))
  | J (JArr _) => true
  | J (JObj _) => true
  end.

(** The integer a number literal denotes, if it denotes one. *)
Definition integer (m e : Z) : option Z :=
  if 0 <=? e then Some (m * 10 ^ e)
  else if m mod 10 ^ (- e) =? 0 then Some (m / 10 ^ (- e)) else None.

(** Converting a JSON value to a string, as ['[' + v + ']'] does, throws on
    an object with an own [toString] member (which JSON cannot make
    callable) and on an array holding one. *)
Fixpoint unprintable (j : json) : bool :=
  match j with
  | JObj ms => bool_decide (is_Some (member "toString" ms))
  | JArr l => existsb unprintable l
  | _ => false
  end.

(** [text.split('\r\n')] on a string. *)
Fixpoint split_crlf (acc : list ascii) (s : list ascii) : list string :=
  match s with
  | [] => [string_of_list_ascii (rev acc)]
  | c :: r =>
      match r with
      | d :: r' =>
          if (JSON.code c =? 13) && (JSON.code d =? 10)
          then string_of_list_ascii (rev acc) :: split_crlf [] r'
          else split_crlf (c :: acc) r
      | [] => split_crlf (c :: acc) r
      end
  end.

End JS.

(** ** The Page object *)

(** How a promise ends: resolved with a value or rejected with a reason. *)
Inductive outcome : Type :=
| Resolved (v : val)
| Rejected (r : reason).

(** A promise is known by its index in the page's table of promises. *)
Inductive pstate : Type :=
| Pending
| Settled (o : outcome).

(** Log lines: [console.error(code, message)], [console.warn('No action set
    for packet', packet)] and the [console.log('[' + source + ']', line)] of
    the console forwarder. *)
Inductive log_entry : Type :=
| console_error (code message : val)
| console_warn (packet : json)
| console_log (source : val) (line : string).

(** What the event emitter holds for an event name: the console forwarder
    installed by the constructor, a function given to [listen] (known by a
    number, with the arguments on which it throws; whatever else it does is
    left out), or the one-shot wrapper made by [wait], which resolves promise
    [p]. *)
Inductive listener : Type :=
| ConsoleForwarder
| Callback (f : nat) (throws : val -> bool)
| Once (p : nat).

Record registration : Type := mkReg {
  reg_id : nat;
  reg_event : string;
  reg_listener : listener
}.

(** A [send] whose executor is suspended at [await this._waitForConnection()]:
    its promise and its arguments. *)
Record suspended : Type := mkSuspended {
  s_promise : nat;
  s_method : string;
  s_params : json
}.

(** The fields of a Page ([_browser] is only a back reference and is left
    out), the socket ([readyState] 0 while connecting and 1 once open, and
    the objects serialised and handed to [_socket.send], oldest first; a
    socket that closes is not modelled), and what surrounds it: the sends
    that wait for the connection, the promises, the console, and the calls
    received by listeners ([(registration, argument)], oldest first). The
    counter is an integer: it stays far below 2^53. *)
Record Page : Type := mkPage {
  _id : string;
  _server : string;
  _packetCounter : Z;
  _packetCallbacks : gmap Z nat;
  _eventEmitter : list registration;
  next_reg : nat;
  readyState : Z;
  sent : list json;
  connecting : list suspended;
  promises : list pstate;
  console : list log_entry;
  delivered : list (nat * val)
}.

Definition set_packetCounter (n : Z) (st : Page) : Page :=
  mkPage (_id st) (_server st) n (_packetCallbacks st) (_eventEmitter st) (next_reg st)
    (readyState st) (sent st) (connecting st) (promises st) (console st) (delivered st).
Definition set_packetCallbacks (m : gmap Z nat) (st : Page) : Page :=
  mkPage (_id st) (_server st) (_packetCounter st) m (_eventEmitter st) (next_reg st)
    (readyState st) (sent st) (connecting st) (promises st) (console st) (delivered st).
Definition set_eventEmitter (l : list registration) (st : Page) : Page :=
  mkPage (_id st) (_server st) (_packetCounter st) (_packetCallbacks st) l (next_reg st)
    (readyState st) (sent st) (connecting st) (promises st) (console st) (delivered st).
Definition set_next_reg (n : nat) (st : Page) : Page :=
  mkPage (_id st) (_server st) (_packetCounter st) (_packetCallbacks st) (_eventEmitter st) n
    (readyState st) (sent st) (connecting st) (promises st) (console st) (delivered st).
Definition set_readyState (n : Z) (st : Page) : Page :=
  mkPage (_id st) (_server st) (_packetCounter st) (_packetCallbacks st) (_eventEmitter st)
    (next_reg st) n (sent st) (connecting st) (promises st) (console st) (delivered st).
Definition set_sent (l : list json) (st : Page) : Page :=
  mkPage (_id st) (_server st) (_packetCounter st) (_packetCallbacks st) (_eventEmitter st)
    (next_reg st) (readyState st) l (connecting st) (promises st) (console st) (delivered st).
Definition set_connecting (l : list suspended) (st : Page) : Page :=
  mkPage (_id st) (_server st) (_packetCounter st) (_packetCallbacks st) (_eventEmitter st)
    (next_reg st) (readyState st) (sent st) l (promises st) (console st) (delivered st).
Definition set_promises (l : list pstate) (st : Page) : Page :=
  mkPage (_id st) (_server st) (_packetCounter st) (_packetCallbacks st) (_eventEmitter st)
    (next_reg st) (readyState st) (sent st) (connecting st) l (console st) (delivered st).
Definition set_console (l : list log_entry) (st : Page) : Page :=
  mkPage (_id st) (_server st) (_packetCounter st) (_packetCallbacks st) (_eventEmitter st)
    (next_reg st) (readyState st) (sent st) (connecting st) (promises st) l (delivered st).
Definition set_delivered (l : list (nat * val)) (st : Page) : Page :=
  mkPage (_id st) (_server st) (_packetCounter st) (_packetCallbacks st) (_eventEmitter st)
    (next_reg st) (readyState st) (sent st) (connecting st) (promises st) (console st) l.

(** *** Synchronous code of a Page: state and exceptions *)

(** A synchronous piece of code returns, or throws leaving the state as it
    was when the exception was raised. [Unmodelled] marks where the embedding
    stops: an event name that is not a string (the emitter would turn it into
    a property key) and a registration for the emitter's own [newListener]
    and [removeListener] events. *)
Inductive completion (A : Type) : Type :=
| Returns (a : A) (st : Page)
| Throws (e : error) (st : Page)
| Unmodelled.
Arguments Returns {A} a st.
Arguments Throws {A} e st.
Arguments Unmodelled {A}.

Definition M (A : Type) : Type := Page -> completion A.

Definition ret {A} (a : A) : M A := fun st => Returns a st.
Definition throw {A} (e : error) : M A := fun st => Throws e st.
Definition bind {A B} (m : M A) (k : A -> M B) : M B :=
  fun st =>
    match m st with
    | Returns a st' => k a st'
    | Throws e st' => Throws e st'
    | Unmodelled => Unmodelled
    end.
Definition lift {A} (r : result A) : M A :=
  match r with
  | Ok a => ret a
  | Raise e => throw e
  end.
Definition modify (f : Page -> Page) : M unit := fun st => Returns tt (f st).
Definition gets {A} (f : Page -> A) : M A := fun st => Returns (f st) st.

Notation "x <- m ;; k" := (bind m (fun x => k))
  (at level 100, m at next level, right associativity).
Notation "m ;;; k" := (bind m (fun _ => k))
  (at level 100, right associativity).

(** The state a piece of code leaves behind, however it completes. *)
Definition state_of {A} (c : completion A) : option Page :=
  match c with
  | Returns _ st => Some st
  | Throws _ st => Some st
  | Unmodelled => None
  end.

(** *** Promises *)

(** [new Promise(...)]: a fresh pending promise. *)
Definition new_promise : M nat :=
  fun st => Returns (length (promises st)) (set_promises (promises st ++ [Pending]) st).

(** The [resolve] and [reject] functions of promise [p]: they settle it if it
    is still pending and do nothing otherwise. *)
Definition settle_st (p : nat) (o : outcome) (st : Page) : Page :=
  match promises st !! p with
  | Some Pending => set_promises (<[p := Settled o]> (promises st)) st
  | _ => st
  end.
Definition settle (p : nat) (o : outcome) : M unit := modify (settle_st p o).
Definition resolve (p : nat) (v : val) : M unit := settle p (Resolved v).
Definition reject (p : nat) (r : reason) : M unit := settle p (Rejected r).

(** *** The map of pending requests *)

(** The keys of [_packetCallbacks] are the numbers [send] took from the
    counter; a value read from a frame can only equal one of them if it is a
    number denoting that integer ([-0] being the key [0] for a Map). *)
Definition key_of (v : val) : option Z :=
  match v with
  | J (JNum m e) => JS.integer m e
  | J (JSpecial NegZero) => Some 0
  | _ => None
  end.

(** [this._packetCallbacks.get(id)], [undefined] being [None]. *)
Definition callbacks_get (id : val) (st : Page) : option nat :=
  match key_of id with
  | Some i => _packetCallbacks st !! i
  | None => None
  end.

(** [this._packetCallbacks.delete(id)] *)
Definition delete_st (id : val) (st : Page) : Page :=
  match key_of id with
  | Some i => set_packetCallbacks (delete i (_packetCallbacks st)) st
  | None => st
  end.
Definition callbacks_delete (id : val) : M unit := modify (delete_st id).

(** *** The event emitter *)

Definition log (e : log_entry) : M unit :=
  modify (fun st => set_console (console st ++ [e]) st).

Definition record_call (r : registration) (arg : val) : M unit :=
  modify (fun st => set_delivered (delivered st ++ [(reg_id r, arg)]) st).

(** The listener the constructor installs for [Console.messageAdded]:
    [({message}) => message.text.split('\r\n').forEach(line =>
       console.log('[' + message.source + ']', line))]. *)
Definition console_forwarder (arg : val) : result (list log_entry) :=
  match JS.get arg "message" with
  | Raise e => Raise e
  | Ok message =>
      match JS.get message "text" with
      | Raise e => Raise e
      | Ok (J (JStr text)) =>
          match JS.get message "source" with
          | Raise e => Raise e
          | Ok source =>
              if match source with J j => JS.unprintable j | undefined => false end
              then Raise TypeError
              else Ok (map (console_log source) (JS.split_crlf [] (list_ascii_of_string text)))
          end
      | Ok _ => Raise TypeError
      end
  end.

Definition remove_registration (id : nat) : M unit :=
  modify (fun st =>
    set_eventEmitter
      (filter (fun r => reg_id r ≠ id) (_eventEmitter st)) st).

(** Calling one registered listener with the event's argument. A one-shot
    wrapper first removes itself, then resolves its promise. *)
Definition invoke (r : registration) (arg : val) : M unit :=
  record_call r arg ;;;
  match reg_listener r with
  | ConsoleForwarder =>
      lines <- lift (console_forwarder arg) ;;
      modify (fun st => set_console (console st ++ lines) st)
  | Callback f throws =>
      if throws arg then throw (ListenerError f) else ret tt
  | Once p =>
      remove_registration (reg_id r) ;;;
      resolve p arg
  end.

Fixpoint invoke_all (rs : list registration) (arg : val) : M unit :=
  match rs with
  | [] => ret tt
  | r :: rs' => invoke r arg ;;; invoke_all rs' arg
  end.

Definition listeners (name : string) (st : Page) : list registration :=
  filter (fun r => reg_event r = name) (_eventEmitter st).

(** [emitter.emit(name, arg)]: the listeners registered for [name] when the
    call starts are called in the order of their registration; an exception
    of one of them ends the call. ['error'] without a listener throws. *)
Definition emit (name : string) (arg : val) : M bool :=
  ls <- gets (listeners name) ;;
  match ls with
  | [] => if decide (name = "error"%string) then throw ERR_UNHANDLED_ERROR else ret false
  | _ => invoke_all ls arg ;;; ret true
  end.

(** The emitter announces every registration to the listeners of
    [newListener] and every removal to those of [removeListener]; listening
    to these two names is outside the embedding. *)
Definition meta_event (name : string) : bool :=
  bool_decide (name = "newListener"%string) || bool_decide (name = "removeListener"%string).

(** [emitter.addListener(name, l)] and the registration half of
    [emitter.once]. *)
Definition add_registration (name : string) (l : listener) : M unit :=
  if meta_event name then fun _ => Unmodelled
  else
    modify (fun st =>
      set_next_reg (S (next_reg st))
        (set_eventEmitter (_eventEmitter st ++ [mkReg (next_reg st) name l]) st)).

(** *** Methods *)

(** [listen(method, listener)] *)
Definition listen (method : string) (l : listener) : M unit :=
  add_registration method l.

(** [wait(method)] *)
Definition wait (method : string) : M nat :=
  p <- new_promise ;;
  add_registration method (Once p) ;;;
  ret p.

(** [send(method, params = {})] up to the [await]: the promise is created and
    the executor is suspended until the connection is there. *)
Definition send (method : string) (params : val) : M nat :=
  p <- new_promise ;;
  modify (fun st =>
    set_connecting
      (connecting st ++
         [mkSuspended p method (match params with undefined => JObj [] | J j => j end)]) st) ;;;
  ret p.

(** The rest of the executor of the oldest suspended [send], run once
    [readyState] is 1: it takes the next number, stores the promise's
    [resolve]/[reject] under it, and sends the request. *)
Definition send_resume : M unit :=
  fun st =>
    match connecting st with
    | s :: rest =>
        if readyState st =? 1 then
          (modify (set_connecting rest) ;;;
           modify (fun st => set_packetCounter (_packetCounter st + 1) st) ;;;
           modify (fun st =>
             set_packetCallbacks
               (<[_packetCounter st := s_promise s]> (_packetCallbacks st)) st) ;;;
           modify (fun st =>
             set_sent
               (sent st ++
                  [JObj [("id"%string, JNum (_packetCounter st) 0);
                         ("method"%string, JStr (s_method s));
                         ("params"%string, s_params s)]]) st)) st
        else Returns tt st
    | [] => Returns tt st
    end.

(** The socket's [open] event. *)
Definition socket_open : M unit := modify (set_readyState 1).

(** [_onMessage(message)] *)
Definition _onMessage (message : string) : M unit :=
  json <- (match JSON.parse message with
           | Some j => ret j
           | None => throw SyntaxError
           end) ;;
  has_id <- lift (JS.has "id" json) ;;
  id <- (if has_id : bool then lift (JS.get (J json) "id") else ret undefined) ;;
  callback <- gets (callbacks_get id) ;;
  match callback with
  | Some callback =>
      has_error <- lift (JS.has "error" json) ;;
      (if has_error : bool then
         err <- lift (JS.get (J json) "error") ;;
         code <- lift (JS.get err "code") ;;
         msg <- lift (JS.get err "message") ;;
         log (console_error code msg) ;;;
         reject callback (Value err)
       else
         res <- lift (JS.get (J json) "result") ;;
         resolve callback res) ;;;
      callbacks_delete id
  | None =>
      has_method <- lift (JS.has "method" json) ;;
      if has_method : bool then
        method <- lift (JS.get (J json) "method") ;;
        params <- lift (JS.get (J json) "params") ;;
        match method with
        | J (JStr name) => emit name params ;;; ret tt
        | _ => fun _ => Unmodelled
        end
      else log (console_warn json)
  end.

(** [_connect()] and the constructor: the socket is being connected, the two
    enabling requests wait for it, the console forwarder is installed. *)
Definition _connect : M unit :=
  modify (set_packetCallbacks ∅) ;;;
  modify (set_readyState 0) ;;;
  modify (set_sent []).

Record TargetDescriptor : Type := mkTarget {
  t_devtoolsFrontendUrl : string;
  t_id : string;
  t_title : string;
  t_type : string;
  t_url : string;
  t_webSocketDebuggerUrl : string
}.

Definition Page_constructor (pageObject : TargetDescriptor) : M unit :=
  _connect ;;;
  send "Console.enable" undefined ;;;
  send "Page.enable" undefined ;;;
  listen "Console.messageAdded" ConsoleForwarder.

Definition blank_Page (pageObject : TargetDescriptor) : Page :=
  mkPage (t_id pageObject) (t_webSocketDebuggerUrl pageObject) 0 ∅ [] 0 0 [] [] [] [] [].

Definition new_Page (pageObject : TargetDescriptor) : Page :=
  match Page_constructor pageObject (blank_Page pageObject) with
  | Returns _ st => st
  | _ => blank_Page pageObject
  end.

(** *** Histories of a Page *)

(** What can happen to a Page, one event-loop turn at a time: a caller calls
    [send], [listen] or [wait]; a suspended [send] continues; the socket
    opens; the socket delivers a text frame. *)
Inductive event : Type :=
| Call_send (method : string) (params : val)
| Call_listen (method : string) (f : nat) (throws : val -> bool)
| Call_wait (method : string)
| Resume
| Socket_open
| Socket_message (text : string).

(** An exception that leaves [_onMessage] does not undo what was done before
    it; the history goes on from the state it left. *)
Definition step (e : event) (st : Page) : option Page :=
  match e with
  | Call_send method params => state_of (send method params st)
  | Call_listen method f throws => state_of (listen method (Callback f throws) st)
  | Call_wait method => state_of (wait method st)
  | Resume => state_of (send_resume st)
  | Socket_open => state_of (socket_open st)
  | Socket_message text => state_of (_onMessage text st)
  end.

Fixpoint run (tr : list event) (st : Page) : option Page :=
  match tr with
  | [] => Some st
  | e :: tr' =>
      match step e st with
      | Some st' => run tr' st'
      | None => None
      end
  end.

(** The states a Page built by the constructor can be in. *)
Definition reachable (st : Page) : Prop :=
  exists pageObject tr, run tr (new_Page pageObject) = Some st.

(** *** The outcome of a request over a history *)

(** [j] is the number [i]: a number whose value [mantissa * 10 ^ exponent]
    is the integer [i] ([-0] is [0]). *)
Definition is_integer (j : json) (i : Z) : bool :=
  match j with
  | JNum m e => if 0 <=? e then m * 10 ^ e =? i else m =? i * 10 ^ (- e)
  | JSpecial NegZero => i =? 0
  | _ => false
  end.

(** The outcome a text frame carries for the request numbered [i]: none if it
    is not an object whose [id] is [i], or if its [error] member is [null]
    (reading [error.code] then throws before the request is touched); the
    [error] member if there is one; the [result] member otherwise. *)
Definition response_for (i : Z) (text : string) : option outcome :=
  match JSON.parse text with
  | Some (JObj ms) =>
      match JS.member "id" ms with
      | Some id =>
          if is_integer id i then
            match JS.member "error" ms with
            | Some JNull => None
            | Some err => Some (Rejected (Value (J err)))
            | None =>
                Some (Resolved (match JS.member "result" ms with
                                | Some r => J r
                                | None => undefined
                                end))
            end
          else None
      | None => None
      end
  | _ => None
  end.

(** The outcome of request [i] after a history: that of the first frame that
    carries one for [i]. *)
Fixpoint verdict (i : Z) (tr : list event) : pstate :=
  match tr with
  | [] => Pending
  | Socket_message text :: tr' =>
      match response_for i text with
      | Some o => Settled o
      | None => verdict i tr'
      end
  | _ :: tr' => verdict i tr'
  end.

Definition once_promise (r : registration) : option nat :=
  match reg_listener r with
  | Once p => Some p
  | _ => None
  end.

(** Whether a listener throws when called with [arg]. *)
Definition listener_throws (l : listener) (arg : val) : bool :=
  match l with
  | ConsoleForwarder =>
      match console_forwarder arg with
      | Raise _ => true
      | Ok _ => false
      end
  | Callback _ throws => throws arg
  | Once _ => false
  end.

Definition is_once (r : registration) : bool :=
  match reg_listener r with
  | Once _ => true
  | _ => false
  end.

(** ** Invariant of a Page *)

(** Who holds the [resolve]/[reject] of promise [p]: an entry of the map of
    pending requests, a one-shot waiter, or a suspended [send]. *)
Definition held_by_request (st : Page) (p : nat) : Prop :=
  exists i, _packetCallbacks st !! i = Some p.
Definition held_by_waiter (st : Page) (p : nat) : Prop :=
  exists r, r ∈ _eventEmitter st /\ reg_listener r = Once p.
Definition held_by_suspended (st : Page) (p : nat) : Prop :=
  p ∈ map s_promise (connecting st).

Record wf (st : Page) : Prop := mkWf {
  wf_bound : forall i p, _packetCallbacks st !! i = Some p -> i <= _packetCounter st;
  wf_inj : forall i j p,
    _packetCallbacks st !! i = Some p -> _packetCallbacks st !! j = Some p -> i = j;
  wf_once_inj : forall r1 r2 p,
    r1 ∈ _eventEmitter st -> r2 ∈ _eventEmitter st ->
    reg_listener r1 = Once p -> reg_listener r2 = Once p -> reg_id r1 = reg_id r2;
  wf_suspended : NoDup (map s_promise (connecting st));
  wf_request_waiter : forall p, held_by_request st p -> ~ held_by_waiter st p;
  wf_request_suspended : forall p, held_by_request st p -> ~ held_by_suspended st p;
  wf_waiter_suspended : forall p, held_by_waiter st p -> ~ held_by_suspended st p;
  wf_pending : forall p,
    held_by_request st p \/ held_by_waiter st p \/ held_by_suspended st p ->
    promises st !! p = Some Pending;
  wf_regs : NoDup (map reg_id (_eventEmitter st));
  wf_regs_bound : forall r, r ∈ _eventEmitter st -> (reg_id r < next_reg st)%nat
}.

(** What a handler leaves alone. *)
Record same_connection (st st' : Page) : Prop := mkSame {
  same_id : _id st' = _id st;
  same_server : _server st' = _server st;
  same_counter : _packetCounter st' = _packetCounter st;
  same_callbacks : _packetCallbacks st' = _packetCallbacks st;
  same_next_reg : next_reg st' = next_reg st;
  same_readyState : readyState st' = readyState st;
  same_sent : sent st' = sent st;
  same_connecting : connecting st' = connecting st
}.

(** ** The promise-returning helpers *)

(** The promise a helper returns, as the tree of what the helper does until
    that promise settles: [Send] is a [this.send(method, params)] together
    with what is chained on its outcome, [Wait] a [this.wait(method)] with
    what follows the event, [SetTimeout] a timer with what it runs. *)
Inductive async : Type :=
| Settle (o : outcome)
| Send (method : string) (params : val) (k : outcome -> async)
| Wait (method : string) (k : val -> async)
| SetTimeout (ms : Z) (k : async).

(** [a.then(..)] and [a.catch(..)]: what is chained on the promise [a]. *)
Fixpoint chain (a : async) (k : outcome -> async) : async :=
  match a with
  | Settle o => k o
  | Send method params k' => Send method params (fun o => chain (k' o) k)
  | Wait method k' => Wait method (fun v => chain (k' v) k)
  | SetTimeout ms a' => SetTimeout ms (chain a' k)
  end.

(** A [then] callback runs on a resolved promise only; a rejection passes. *)
Definition then_ (f : val -> async) (o : outcome) : async :=
  match o with
  | Resolved v => f v
  | Rejected r => Settle (Rejected r)
  end.

(** An exception thrown inside an [async] function, a [then] callback or a
    promise executor rejects the promise. *)
Definition or_reject {A} (r : result A) (k : A -> async) : async :=
  match r with
  | Ok a => k a
  | Raise e => Settle (Rejected (Exception e))
  end.

(** [v === true] *)
Definition is_true (v : val) : bool :=
  match v with
  | J (JBool true) => true
  | _ => false
  end.

(** The members the constructor and [_connect] give a Page object. *)
Definition Page_fields : list string :=
  ["_id"; "_server"; "_browser"; "_packetCounter"; "_packetCallbacks";
   "_eventEmitter"; "_socket"]%string.

(** [this._page]: [None] is [undefined]. *)
Definition this__page : option unit :=
  if decide ("_page"%string ∈ Page_fields) then Some tt else None.

(** [navigate(url, waitForLoad = true)] *)
Definition navigate (url : string) (waitForLoad : val) : async :=
  let waitForLoad := match waitForLoad with undefined => J (JBool true) | v => v end in
  match this__page with
  | None => Settle (Rejected (Exception TypeError))
  | Some _ =>
      Send "Page.navigate" (J (JObj [("url"%string, JStr url)]))
        (then_ (fun _ =>
           if is_true waitForLoad
           then Wait "Page.loadEventFired" (fun _ => Settle (Resolved undefined))
           else Settle (Resolved undefined)))
  end.

(** The parameters [exec] gives to [Runtime.evaluate]. *)
Definition evaluate_request (script : string) (awaitPromise : bool) : val :=
  J (JObj [("expression"%string, JStr script);
           ("userGesture"%string, JBool true);
           ("returnByValue"%string, JBool true);
           ("awaitPromise"%string, JBool awaitPromise)]).

(** [exec(script, options = {})] *)
Definition exec (script : string) (options : val) : async :=
  let options := match options with undefined => J (JObj []) | v => v end in
  or_reject (JS.get options "promise") (fun promise =>
    Send "Runtime.evaluate" (evaluate_request script (is_true promise))
      (then_ (fun result =>
         or_reject (JS.get result "exceptionDetails") (fun exceptionDetails =>
           if JS.truthy exceptionDetails
           then Settle (Rejected (Value exceptionDetails))
           else Settle (Resolved result))))).

(** [data => data.result.value] *)
Definition result_value (data : val) : async :=
  or_reject (JS.get data "result") (fun r =>
    or_reject (JS.get r "value") (fun v => Settle (Resolved v))).

Section Helpers.

(** [JSON.stringify] of the argument list; the text it produces plays no
    part below. *)
Variable JSON_stringify : list val -> string.

Definition nl_tabs : string :=
  String (JSON.chr 10) (String (JSON.chr 9) (String (JSON.chr 9) (String (JSON.chr 9) EmptyString))).

(** The script text of [execSync] and [execPromise]; [expression] is the
    text [expression.toString()] gives. *)
Definition script_of (expression : string) (params : list val) : string :=
  "if(typeof params === undefined) { let params; }" +:+ nl_tabs +:+
  "params = " +:+ JSON_stringify params +:+ ";" +:+ nl_tabs +:+
  "(" +:+ expression +:+ ")(...params);".

(** [execSync(expression, ...params)] *)
Definition execSync (expression : string) (params : list val) : async :=
  chain (exec (script_of expression params) undefined) (then_ result_value).


(** [post(url, data)]; [form] is the text of the function that builds and
    submits the form. *)
Definition post (form : string) (url : string) (data : json) : async :=
  chain (execSync form [J (JStr url); J data])
    (then_ (fun _ =>
       Wait "Page.loadEventFired" (fun _ => Settle (Resolved undefined)))).

(** ['Timeout of ' + timeout + 'ms exceeded'], for an integer number of
    milliseconds below 10^21. *)
Definition timeout_message (timeout : Z) : val :=
  J (JStr ("Timeout of " +:+ pretty timeout +:+ "ms exceeded")).

(** The closure [exec] inside [waitFor], with the current value of
    [passes]: one [execSync], then resolve, reject, or set the timer that
    runs the closure again with [passes] decremented. [.catch(reject)]
    passes every failure of the attempt to the returned promise. [passes]
    is a fraction as soon as [timeout] is not a multiple of ten; it is kept
    as an exact rational. *)
Equations? waitFor_exec (expression : string) (timeout : Z) (params : list val)
    (passes : Q) : async by wf (Z.to_nat (Qceiling passes)) lt :=
waitFor_exec expression timeout params passes :=
  chain (execSync expression params) (fun o =>
    match o with
    | Resolved result =>
        if JS.truthy result then Settle (Resolved result)
        else
          (match Qle_bool passes 0 as b return Qle_bool passes 0 = b -> async with
           | true => fun _ => Settle (Rejected (Value (timeout_message timeout)))
           | false => fun _ =>
               SetTimeout 10 (waitFor_exec expression timeout params (passes - 1))
           end) eq_refl
    | Rejected r => Settle (Rejected r)
    end).
Proof.
  rename e into H.
  assert (Hp : (0 < passes)%Q).
  { destruct (Qlt_le_dec 0 passes) as [|Hle]; [assumption|].
    apply Qle_bool_iff in Hle. congruence. }
  pose proof (Qle_ceiling passes) as Ha.
  pose proof (Qceiling_lt (passes - 1)) as Hb.
  unfold Z.sub in Hb. rewrite inject_Z_plus, inject_Z_opp in Hb.
  change (inject_Z 1) with 1%Q in Hb.
  assert (H1 : (inject_Z (Qceiling (passes - 1)) < inject_Z (Qceiling passes))%Q) by lra.
  assert (H2 : (inject_Z 0 < inject_Z (Qceiling passes))%Q)
    by (change (inject_Z 0) with 0%Q; lra).
  rewrite <- Zlt_Qlt in H1. rewrite <- Zlt_Qlt in H2. lia.
Defined.

(** [waitFor(expression, timeout = 10000, ...params)] *)
Definition waitFor (expression : string) (timeout : option Z) (params : list val) : async :=
  let timeout := match timeout with None => 10000 | Some t => t end in
  let passes := (inject_Z timeout / 10)%Q in
  waitFor_exec expression timeout params passes.

End Helpers.

(** *** Running a helper against the browser *)

(** What a helper does, in order: a request sent, an event awaited, a timer. *)
Inductive action : Type :=
| Request (method : string) (params : val)
| Await_event (method : string)
| Timer (ms : Z).

(** The other side: the outcome of the [n]-th request sent and the argument
    of the [n]-th awaited event. *)
Record environment : Type := mkEnv {
  answer : nat -> outcome;
  event_arg : nat -> val
}.

(** [play env a sent waited]: the actions of [a] and the outcome of its
    promise, [sent] requests and [waited] events having gone before. *)
Fixpoint play (env : environment) (a : async) (sent waited : nat) : list action * outcome :=
  match a with
  | Settle o => ([], o)
  | Send method params k =>
      let '(l, o) := play env (k (answer env sent)) (S sent) waited in
      (Request method params :: l, o)
  | Wait method k =>
      let '(l, o) := play env (k (event_arg env waited)) sent (S waited) in
      (Await_event method :: l, o)
  | SetTimeout ms k =>
      let '(l, o) := play env k sent waited in
      (Timer ms :: l, o)
  end.

Definition is_request (a : action) : bool :=
  match a with
  | Request _ _ => true
  | _ => false
  end.

Definition is_await (a : action) : bool :=
  match a with
  | Await_event _ => true
  | _ => false
  end.

(** The number of requests, and of awaited events, among the actions. *)
Definition requests (l : list action) : nat := length (List.filter is_request l).
Definition awaits (l : list action) : nat := length (List.filter is_await l).

(** What [execSync] makes of the outcome of its one request. *)
Definition execSync_outcome (o : outcome) : outcome :=
  match o with
  | Rejected r => Rejected r
  | Resolved result =>
      match JS.get result "exceptionDetails" with
      | Raise e => Rejected (Exception e)
      | Ok details =>
          if JS.truthy details then Rejected (Value details)
          else
            match JS.get result "result" with
            | Raise e => Rejected (Exception e)
            | Ok r =>
                match JS.get r "value" with
                | Raise e => Rejected (Exception e)
                | Ok v => Resolved v
                end
            end
      end
  end.

(** The value the evaluation of a script produced, inside the object that
    answers [Runtime.evaluate]: [data.result.value], as [execSync] reads it. *)
Definition evaluated_value (data : val) : option val :=
  match JS.get data "result" with
  | Ok r => match JS.get r "value" with Ok v => Some v | Raise _ => None end
  | Raise _ => None
  end.

(** ** The Browser registry *)

(** [_sockets] maps a target id to a Page object; Page objects live in
    [heap] and are known by their index there, so that two names for the same
    object are the same index. *)
Record Browser : Type := mkBrowser {
  _sockets : gmap string nat;
  _defaultPage : option nat;
  heap : list Page
}.

Definition new_Browser : Browser := mkBrowser ∅ None [].

(** [get(target)] *)
Definition get (target : TargetDescriptor) (b : Browser) : nat * Browser :=
  let '(page, b1) :=
    match _sockets b !! t_id target with
    | Some page => (page, b)
    | None =>
        (length (heap b),
         mkBrowser (_sockets b) (_defaultPage b) (heap b ++ [new_Page target]))
    end in
  (page, mkBrowser (<[t_id target := page]> (_sockets b1)) (_defaultPage b1) (heap b1)).

Definition default_url : string := "about:blank#default-page".

(** [pages.find(page => page.url === 'about:blank#default-page') || pages[0]] *)
Definition default_target (pages : list TargetDescriptor) : option TargetDescriptor :=
  match find (fun page => bool_decide (t_url page = default_url)) pages with
  | Some page => Some page
  | None => head pages
  end.

(** A method called on the Page object at [page] in the heap. *)
Definition on_page {A} (page : nat) (m : M A) (b : Browser) : option Browser :=
  match heap b !! page with
  | Some st =>
      match state_of (m st) with
      | Some st' => Some (mkBrowser (_sockets b) (_defaultPage b) (<[page := st']> (heap b)))
      | None => None
      end
  | None => None
  end.

(** [_initialize()] from the point where [list()] has answered with [pages];
    [None] is the rejection caused by an empty list ([get(undefined)]). *)
Definition _initialize (pages : list TargetDescriptor) (b : Browser) : option Browser :=
  match default_target pages with
  | Some target =>
      let '(page, b1) := get target b in
      let b2 := mkBrowser (_sockets b1) (Some page) (heap b1) in
      on_page page
        (send "Target.setDiscoverTargets"
           (J (JObj [("discover"%string, JBool true)]))) b2
  | None => None
  end.

(** What happens to a Browser: [get], [_initialize], and the events of its
    pages. *)
Inductive browser_event : Type :=
| B_get (target : TargetDescriptor)
| B_initialize (pages : list TargetDescriptor)
| B_page (page : nat) (e : event).

Definition browser_step (e : browser_event) (b : Browser) : option Browser :=
  match e with
  | B_get target => Some (snd (get target b))
  | B_initialize pages => _initialize pages b
  | B_page page e =>
      match heap b !! page with
      | Some st =>
          match step e st with
          | Some st' =>
              Some (mkBrowser (_sockets b) (_defaultPage b) (<[page := st']> (heap b)))
          | None => None
          end
      | None => None
      end
  end.

Fixpoint browser_run (tr : list browser_event) (b : Browser) : option Browser :=
  match tr with
  | [] => Some b
  | e :: tr' =>
      match browser_step e b with
      | Some b' => browser_run tr' b'
      | None => None
      end
  end.

(** ** Notions used in the statements *)

(** Member [k] of an object as the code reads it: [undefined] when absent. *)
Definition member_val (k : string) (ms : list (string * json)) : val :=
  match JS.member k ms with
  | Some x => J x
  | None => undefined
  end.

(** [v.k] where the read cannot throw. *)
Definition get_or_undefined (v : val) (k : string) : val :=
  match JS.get v k with
  | Ok x => x
  | Raise _ => undefined
  end.

(** A call whose result is not used. *)
Definition discard {A} (c : completion A) : completion unit :=
  match c with
  | Returns _ st => Returns tt st
  | Throws e st => Throws e st
  | Unmodelled => Unmodelled
  end.

(** Every promise settled in [st] is settled the same way in [st']. *)
Definition keeps_settled (st st' : Page) : Prop :=
  forall p o, promises st !! p = Some (Settled o) -> promises st' !! p = Some (Settled o).

(** A parsed frame on which the receive path has nothing to throw: an array,
    or an object that answers a pending request without a [null] error, or
    that names an event (a string) whose listeners do not throw on its
    parameters, ['error'] having a listener, or that is neither. *)
Definition quiet (st : Page) (j : json) : Prop :=
  match j with
  | JObj ms =>
      match callbacks_get (member_val "id" ms) st with
      | Some _ => JS.member "error" ms <> Some JNull
      | None =>
          match JS.member "method" ms with
          | Some (JStr name) =>
              (forall r, r ∈ listeners name st ->
                 listener_throws (reg_listener r) (member_val "params" ms) = false) /\
              (name = "error"%string -> listeners name st <> [])
          | Some _ => False
          | None => True
          end
      end
  | JArr _ => True
  | _ => False
  end.

(** An answer that makes the evaluated expression falsy. *)
Definition falsy_answer (o : outcome) : Prop :=
  exists v, execSync_outcome o = Resolved v /\ JS.truthy v = false.

(** The number of evaluations [waitFor] makes before it gives up. *)
Definition attempts (timeout : Z) : nat :=
  S (Z.to_nat (Qceiling (inject_Z timeout / 10))).

(** The one request of an [execSync]. *)
Definition evaluation (JSON_stringify : list val -> string)
    (expression : string) (params : list val) : action :=
  Request "Runtime.evaluate"
    (evaluate_request (script_of JSON_stringify expression params) false).

(** Invariant of the registry: an entry leads to a Page object of that id,
    two ids never lead to the same object, and every Page is well formed. *)
Record browser_inv (b : Browser) : Prop := mkBinv {
  inv_heap : forall id page, _sockets b !! id = Some page ->
    exists st, heap b !! page = Some st /\ _id st = id;
  inv_inj : forall id1 id2 page,
    _sockets b !! id1 = Some page -> _sockets b !! id2 = Some page -> id1 = id2;
  inv_wf : forall page st, heap b !! page = Some st -> wf st
}.

(** ** Sample frames and histories *)

(** Frame texts are written with ['] where the frame has a double quote. *)
Definition dq (s : string) : string :=
  string_of_list_ascii
    (map (fun c => if JSON.code c =? 39 then JSON.chr 34 else c) (list_ascii_of_string s)).

Definition page_A : TargetDescriptor :=
  mkTarget "" "A" "" "page" "about:blank#default-page" "ws://x".
Definition page_B : TargetDescriptor :=
  mkTarget "" "B" "" "page" "http://foo" "ws://y".

Definition state_after (tr : list event) : Page :=
  match run tr (new_Page page_A) with
  | Some st => st
  | None => new_Page page_A
  end.

Definition suspended_enable : suspended := mkSuspended 0 "Console.enable" (JObj []).
Definition suspended_page : suspended := mkSuspended 1 "Page.enable" (JObj []).

Definition history_open : list event := [Socket_open].

(** The second request is answered before the first, an event in between. *)
Definition history_answers : list event :=
  [Resume;
   Socket_message (dq "{'id':2,'result':{'frameId':'F'}}");
   Socket_message (dq "{'method':'Page.loadEventFired','params':{'timestamp':1}}");
   Socket_message (dq "{'id':1,'error':{'code':-1,'message':'bad'}}")].

Definition history_two_waiters : list event :=
  [Socket_open; Call_wait "Page.loadEventFired"; Call_wait "Page.loadEventFired"].

Definition history_listeners : list event :=
  [Socket_open; Call_listen "Page.loadEventFired" 7 (fun _ => false);
   Call_wait "Page.loadEventFired"; Call_listen "Page.frameNavigated" 8 (fun _ => false)].

Definition history_two_pending : list event := [Socket_open; Resume; Resume].

Definition load_members : list (string * json) :=
  [("method"%string, JStr "Page.loadEventFired");
   ("params"%string, JObj [("timestamp"%string, JNum 1 0)])].
Definition frame_load : string :=
  dq "{'method':'Page.loadEventFired','params':{'timestamp':1}}".

Definition unknown_members : list (string * json) := [("jsonrpc"%string, JStr "2.0")].
Definition frame_unknown : string := dq "{'jsonrpc':'2.0'}".

Definition stale_members : list (string * json) :=
  [("id"%string, JNum 7 0);
   ("error"%string, JObj [("code"%string, JNum (-1) 0); ("message"%string, JStr "bad")])].
Definition frame_stale : string := dq "{'id': 7, 'error':{'code':-1,'message':'bad'}}".

(** A frame that answers request 1 and also names an event. *)
Definition both_members : list (string * json) :=
  [("id"%string, JNum 1 0);
   ("method"%string, JStr "Page.loadEventFired");
   ("result"%string, JObj [])].
Definition frame_both : string := dq "{'id':1,'method':'Page.loadEventFired','result':{}}".

(** A frame that answers request 1 with an [id] of twenty digits. *)
Definition rounded_id_members : list (string * json) :=
  [("id"%string, JNum 1 0); ("result"%string, JStr "x")].
Definition frame_rounded_id : string := dq "{'id':1.0000000000000000001,'result':'x'}".
Definition history_rounded : list event :=
  [Socket_message frame_rounded_id; Socket_message (dq "{'id':1,'result':'y'}")].

(** A frame that names the event U+1F600 by the escapes of its two
    surrogates; [grinning] is the name as its four UTF-8 bytes. *)
Definition grinning : string :=
  String (JSON.chr 240) (String (JSON.chr 159) (String (JSON.chr 152)
    (String (JSON.chr 128) EmptyString))).
Definition escaped_members : list (string * json) := [("method"%string, JStr grinning)].
Definition frame_escaped : string := dq "{'method':'\ud83d\ude00'}".
Definition history_grinning : list event :=
  [Socket_open; Call_listen grinning 7 (fun _ => false)].


(** The answer to [Runtime.evaluate] for the script [1+1]. *)
Definition two : val :=
  J (JObj [("result"%string,
            JObj [("type"%string, JStr "number"); ("value"%string, JNum 2 0);
                  ("description"%string, JStr "2")])]).
Definition browser_answers_two : environment :=
  mkEnv (fun _ => Resolved two) (fun _ => undefined).

(** A page where every evaluation gives [false]. *)
Definition always_false : environment :=
  mkEnv (fun _ =>
           Resolved (J (JObj [("result"%string,
                               JObj [("type"%string, JStr "boolean");
                                     ("value"%string, JBool false)])])))
        (fun _ => undefined).

Definition page_C : TargetDescriptor :=
  mkTarget "" "C" "" "page" "http://bar" "ws://z".

(** The registry after [get] of A and then of B. *)
Definition browser_after (tr : list browser_event) (b : Browser) : Browser :=
  match browser_run tr b with
  | Some b' => b'
  | None => b
  end.
Definition registry_A : Browser := snd (get page_A new_Browser).
Definition registry_AB : Browser := browser_after [B_get page_B] registry_A.

(** ** Further notions *)

(** *** Requests in call order *)

(** The call a suspended [send] stands for: its method and the parameters it
    will send. *)
Definition call_of (s : suspended) : string * json := (s_method s, s_params s).

(** The object [send] serialises for a call that took the number [i]. *)
Definition request_object (i : Z) (c : string * json) : json :=
  JObj [("id"%string, JNum i 0); ("method"%string, JStr (fst c)); ("params"%string, snd c)].

(** Calls numbered from [i] on. *)
Fixpoint numbered (i : Z) (cs : list (string * json)) : list json :=
  match cs with
  | [] => []
  | c :: cs' => request_object i c :: numbered (i + 1) cs'
  end.

(** The calls of [send] in a history, in order, with the default of
    [params] filled in. *)
Fixpoint calls_of (tr : list event) : list (string * json) :=
  match tr with
  | [] => []
  | Call_send method params :: tr' =>
      (method, match params with undefined => JObj [] | J j => j end) :: calls_of tr'
  | _ :: tr' => calls_of tr'
  end.

(** The two calls the constructor makes. *)
Definition constructor_calls : list (string * json) :=
  [("Console.enable"%string, JObj []); ("Page.enable"%string, JObj [])].

(** The requests sent so far are the first calls, numbered from 1; the
    suspended sends are the remaining calls. *)
Definition in_call_order (calls : list (string * json)) (st : Page) : Prop :=
  exists done,
    sent st = numbered 1 done /\
    _packetCounter st = Z.of_nat (length done) /\
    done ++ map call_of (connecting st) = calls.

(** Until the socket is open nothing was sent and no number was taken. *)
Definition idle_while_connecting (st : Page) : Prop :=
  readyState st = 0 ->
  sent st = [] /\ _packetCounter st = 0 /\ _packetCallbacks st = ∅.

(** *** Listeners and promises *)

(** The registration the constructor makes for the console forwarder. *)
Definition forwarder_registration : registration :=
  mkReg 0 "Console.messageAdded" ConsoleForwarder.

(** [lines.join('\r\n')] *)
Fixpoint join_crlf (lines : list string) : string :=
  match lines with
  | [] => EmptyString
  | [l] => l
  | l :: ls => l +:+ String (JSON.chr 13) (String (JSON.chr 10) (join_crlf ls))
  end.

(** Whether the separator ['\r\n'] occurs in a string. *)
Fixpoint has_crlf (s : list ascii) : bool :=
  match s with
  | c :: r =>
      match r with
      | d :: _ => (JSON.code c =? 13) && (JSON.code d =? 10) || has_crlf r
      | [] => false
      end
  | [] => false
  end.

(** A promise whose [resolve] and [reject] nothing holds any more: no
    request, no one-shot waiter, no suspended [send]. *)
Definition unheld (st : Page) (p : nat) : Prop :=
  ~ held_by_request st p /\ ~ held_by_waiter st p /\ ~ held_by_suspended st p.

(** A frame whose [method] member, if it has one, is a string. *)
Definition names_event (j : json) : Prop :=
  match j with
  | JObj ms =>
      match JS.member "method" ms with
      | Some (JStr _) | None => True
      | Some _ => False
      end
  | _ => True
  end.

(** *** Timers *)

(** The time the timers among the actions take, in ms. *)
Fixpoint waited (l : list action) : Z :=
  match l with
  | [] => 0
  | Timer ms :: l' => ms + waited l'
  | _ :: l' => waited l'
  end.

(** *** Opening and closing pages *)

(** [id === v] for the id of a target descriptor. *)
Definition is_id (id : string) (v : val) : bool :=
  match v with
  | J (JStr s) => bool_decide (s = id)
  | _ => false
  end.

(** [pages.find(page => page.id === response.targetId)]; [response.targetId]
    is read once per descriptor looked at. *)
Fixpoint find_target (response : val) (pages : list TargetDescriptor)
    : result (option TargetDescriptor) :=
  match pages with
  | [] => Ok None
  | page :: rest =>
      match JS.get response "targetId" with
      | Raise e => Raise e
      | Ok targetId =>
          if is_id (t_id page) targetId then Ok (Some page)
          else find_target response rest
      end
  end.

(** [open(url)] of the Browser from the point where [Target.createTarget]
    was answered with [response] and [list()] with [pages]; [get(undefined)]
    throws a TypeError. *)
Definition open_finish (response : val) (pages : list TargetDescriptor) (b : Browser)
    : result (nat * Browser) :=
  match find_target response pages with
  | Raise e => Raise e
  | Ok (Some target) => Ok (get target b)
  | Ok None => Raise TypeError
  end.

(** [close(page)] of the Browser once [_waitForInit] has returned, which is
    also [page.close()] of the Page: [Target.closeTarget] on the default
    page. [None]: there is no default page, or no such Page object. *)
Definition close (page : nat) (b : Browser) : option Browser :=
  match _defaultPage b, heap b !! page with
  | Some d, Some st =>
      on_page d
        (send "Target.closeTarget" (J (JObj [("targetId"%string, JStr (_id st))]))) b
  | _, _ => None
  end.

(** *** More sample frames and histories *)

Definition run_from (tr : list event) (st : Page) : Page :=
  match run tr st with
  | Some st' => st'
  | None => st
  end.

(** A call made while the socket is connecting, then the socket opens and
    two suspended sends continue. *)
Definition history_navigate : list event :=
  [Call_send "Page.navigate" (J (JObj [("url"%string, JStr "http://foo")]));
   Socket_open; Resume; Resume].

Definition history_early : list event :=
  [Call_send "Page.navigate" (J (JObj [("url"%string, JStr "http://foo")])); Resume].

(** A console message without a [message] member. *)
Definition console_bad_members : list (string * json) :=
  [("method"%string, JStr "Console.messageAdded"); ("params"%string, JObj [])].
Definition frame_console_bad : string := dq "{'method':'Console.messageAdded','params':{}}".

(** A console message of two lines. *)
Definition two_lines : string :=
  "a" +:+ String (JSON.chr 13) (String (JSON.chr 10) "b").
Definition console_message : list (string * json) :=
  [("source"%string, JStr "console-api"); ("text"%string, JStr two_lines)].

(** The state [_connect] leaves when called on [st]. *)
Definition reconnected (st : Page) : Page :=
  match _connect st with
  | Returns _ st' => st'
  | _ => st
  end.

Definition history_reconnected : list event :=
  [Socket_open; Socket_message (dq "{'id':1,'result':{}}")].

(** A page where the third evaluation gives [true]. *)
Definition true_on_third : environment :=
  mkEnv (fun n =>
           Resolved (J (JObj [("result"%string,
                               JObj [("type"%string, JStr "boolean");
                                     ("value"%string, JBool (2 <=? n)%nat)])])))
        (fun _ => undefined).

(** The Browser after [_initialize] with B and A listed, and a [get] of B. *)
Definition history_initialized : list browser_event :=
  [B_initialize [page_B; page_A]; B_get page_B].
Definition closed (page : nat) (b : Browser) : Browser :=
  match close page b with
  | Some b' => b'
  | None => b
  end.

(** * Proofs *)

Arguments emit : simpl never.
Arguments invoke : simpl never.
Arguments _onMessage : simpl never.
Arguments send : simpl never.
Arguments wait : simpl never.
Arguments listen : simpl never.
Arguments send_resume : simpl never.
Arguments key_of : simpl never.
Arguments callbacks_get : simpl never.

(** ** The invariant of a Page *)

Lemma held_lt st p :
  wf st ->
  held_by_request st p \/ held_by_waiter st p \/ held_by_suspended st p ->
  (p < length (promises st))%nat.
Proof.
  intros Hwf H. apply (wf_pending _ Hwf) in H. eapply lookup_lt_Some; eauto.
Qed.

Lemma new_Page_eq d :
  new_Page d =
  mkPage (t_id d) (t_webSocketDebuggerUrl d) 0 ∅
    [mkReg 0 "Console.messageAdded" ConsoleForwarder] 1 0 []
    [mkSuspended 0 "Console.enable" (JObj []); mkSuspended 1 "Page.enable" (JObj [])]
    [Pending; Pending] [] [].
Proof. reflexivity. Qed.

Lemma wf_new_Page d : wf (new_Page d).
Proof.
  rewrite new_Page_eq. constructor; cbn.
  - intros i p. by rewrite lookup_empty.
  - intros i j p. by rewrite lookup_empty.
  - intros r1 r2 p H1 _ H. apply list_elem_of_singleton in H1. by subst r1.
  - apply NoDup_cons. split; [|apply NoDup_singleton].
    intros H%list_elem_of_singleton. discriminate.
  - intros p [i H]. cbn in H. by rewrite lookup_empty in H.
  - intros p [i H]. cbn in H. by rewrite lookup_empty in H.
  - intros p (r & H1 & H2). cbn in H1. apply list_elem_of_singleton in H1. by subst r.
  - intros p [[i H]|[(r & H1 & H2)|H]]; cbn in *.
    + by rewrite lookup_empty in H.
    + apply list_elem_of_singleton in H1. by subst r.
    + unfold held_by_suspended in H. cbn in H.
      apply elem_of_cons in H as [->|H]; [reflexivity|].
      apply list_elem_of_singleton in H. subst p. reflexivity.
  - apply NoDup_singleton.
  - intros r H. apply list_elem_of_singleton in H. subst r. cbn. lia.
Qed.

(** *** The calls of a caller *)

Lemma send_eq method params st :
  send method params st =
  Returns (length (promises st))
    (set_connecting
       (connecting st ++
          [mkSuspended (length (promises st)) method
             (match params with undefined => JObj [] | J j => j end)])
       (set_promises (promises st ++ [Pending]) st)).
Proof. reflexivity. Qed.

Lemma wait_eq method st :
  wait method st =
  if meta_event method then Unmodelled
  else
    Returns (length (promises st))
      (set_next_reg (S (next_reg st))
         (set_eventEmitter
            (_eventEmitter st ++ [mkReg (next_reg st) method (Once (length (promises st)))])
            (set_promises (promises st ++ [Pending]) st))).
Proof.
  unfold wait, add_registration, bind, new_promise. by destruct (meta_event method).
Qed.

Lemma listen_eq method l st :
  listen method l st =
  if meta_event method then Unmodelled
  else
    Returns tt
      (set_next_reg (S (next_reg st))
         (set_eventEmitter (_eventEmitter st ++ [mkReg (next_reg st) method l]) st)).
Proof. unfold listen, add_registration. by destruct (meta_event method). Qed.

Lemma wf_send method params st p st' :
  wf st -> send method params st = Returns p st' -> wf st'.
Proof.
  intros Hwf. rewrite send_eq. intros [= <- <-].
  pose proof (held_lt st) as Hlt. specialize (fun p => Hlt p Hwf).
  destruct Hwf as
    [wf_bound wf_inj wf_once_inj wf_suspended wf_request_waiter wf_request_suspended wf_waiter_suspended wf_pending wf_regs wf_regs_bound]. constructor; cbn; try assumption.
  - rewrite map_app. cbn. apply NoDup_app. split; [assumption|]. split.
    + intros x Hx Hx'. apply list_elem_of_singleton in Hx'. subst x.
      specialize (Hlt (length (promises st))). unfold held_by_suspended in Hlt.
      pose proof (Hlt (or_intror (or_intror Hx))). lia.
    + apply NoDup_singleton.
  - intros p Hp Hs. unfold held_by_suspended in Hs. cbn in Hs. rewrite map_app in Hs.
    apply elem_of_app in Hs as [Hs|Hs].
    + eapply wf_request_suspended; eauto.
    + apply list_elem_of_singleton in Hs. cbn in Hs. subst p.
      pose proof (Hlt _ (or_introl Hp)). lia.
  - intros p Hp Hs. unfold held_by_suspended in Hs. cbn in Hs. rewrite map_app in Hs.
    apply elem_of_app in Hs as [Hs|Hs].
    + eapply wf_waiter_suspended; eauto.
    + apply list_elem_of_singleton in Hs. cbn in Hs. subst p.
      pose proof (Hlt _ (or_intror (or_introl Hp))). lia.
  - intros p Hp.
    assert (Hcase : (held_by_request st p \/ held_by_waiter st p \/ held_by_suspended st p)
                    \/ p = length (promises st)).
    { destruct Hp as [Hp|[Hp|Hp]]; [left; by left|left; right; by left|].
      unfold held_by_suspended in Hp. cbn in Hp. rewrite map_app in Hp.
      apply elem_of_app in Hp as [Hp|Hp]; [left; right; by right|].
      apply list_elem_of_singleton in Hp. by right. }
    destruct Hcase as [Hc| ->].
    + rewrite lookup_app_l by (apply Hlt; exact Hc). by apply wf_pending.
    + rewrite lookup_app_r by lia. by rewrite Nat.sub_diag.
Qed.

Lemma wf_listen method f throws st st' :
  wf st -> listen method (Callback f throws) st = Returns tt st' -> wf st'.
Proof.
  intros Hwf. rewrite listen_eq. destruct (meta_event method); [discriminate|].
  intros [= <-].
  assert (Hw : forall p, held_by_waiter
     (set_next_reg (S (next_reg st))
       (set_eventEmitter (_eventEmitter st ++ [mkReg (next_reg st) method (Callback f throws)]) st)) p
     -> held_by_waiter st p).
  { intros p (r & Hr & Ho). cbn in Hr. apply elem_of_app in Hr as [Hr|Hr].
    - exists r. by split.
    - apply list_elem_of_singleton in Hr. subst r. discriminate. }
  destruct Hwf as
    [wf_bound wf_inj wf_once_inj wf_suspended wf_request_waiter wf_request_suspended wf_waiter_suspended wf_pending wf_regs wf_regs_bound]. constructor; cbn; try assumption.
  - intros r1 r2 p H1 H2 Ho1 Ho2.
    apply elem_of_app in H1 as [H1|H1]; [|apply list_elem_of_singleton in H1; subst r1; discriminate].
    apply elem_of_app in H2 as [H2|H2]; [|apply list_elem_of_singleton in H2; subst r2; discriminate].
    eauto.
  - intros p Hp Hq. apply Hw in Hq. eapply wf_request_waiter; eauto.
  - intros p Hp Hq. apply Hw in Hp. eapply wf_waiter_suspended; eauto.
  - intros p [Hp|[Hp|Hp]]; apply wf_pending; [by left| right; left; by apply Hw | right; by right].
  - rewrite map_app. cbn. apply NoDup_app. split; [assumption|]. split.
    + intros x Hx Hx'. apply list_elem_of_singleton in Hx'. subst x.
      apply list_elem_of_fmap in Hx as (r & Hr & Hin). apply wf_regs_bound in Hin. lia.
    + apply NoDup_singleton.
  - intros r Hr. apply elem_of_app in Hr as [Hr|Hr].
    + apply wf_regs_bound in Hr. lia.
    + apply list_elem_of_singleton in Hr. subst r. cbn. lia.
Qed.

Lemma wf_wait method st p st' :
  wf st -> wait method st = Returns p st' -> wf st'.
Proof.
  intros Hwf. rewrite wait_eq. destruct (meta_event method); [discriminate|].
  intros [= <- <-].
  pose proof (held_lt st) as Hlt. specialize (fun p => Hlt p Hwf).
  set (st' := set_next_reg _ _).
  assert (Hw : forall p, held_by_waiter st' p ->
                         held_by_waiter st p \/ p = length (promises st)).
  { intros p (r & Hr & Ho). cbn in Hr. apply elem_of_app in Hr as [Hr|Hr].
    - left. exists r. by split.
    - apply list_elem_of_singleton in Hr. subst r. cbn in Ho. right. congruence. }
  assert (Hfresh : forall p,
    held_by_request st p \/ held_by_waiter st p \/ held_by_suspended st p ->
    p <> length (promises st)).
  { intros p Hp. apply Hlt in Hp. lia. }
  destruct Hwf as
    [wf_bound wf_inj wf_once_inj wf_suspended wf_request_waiter wf_request_suspended wf_waiter_suspended wf_pending wf_regs wf_regs_bound]. constructor; subst st'; cbn; try assumption.
  - intros r1 r2 p H1 H2 Ho1 Ho2.
    apply elem_of_app in H1 as [H1|H1]; apply elem_of_app in H2 as [H2|H2].
    + eauto.
    + apply list_elem_of_singleton in H2. subst r2. cbn in Ho2. injection Ho2 as <-.
      exfalso. eapply Hfresh; [|reflexivity]. right; left. exists r1. by split.
    + apply list_elem_of_singleton in H1. subst r1. cbn in Ho1. injection Ho1 as <-.
      exfalso. eapply Hfresh; [|reflexivity]. right; left. exists r2. by split.
    + apply list_elem_of_singleton in H1. apply list_elem_of_singleton in H2. by subst.
  - intros p Hp Hq. apply Hw in Hq as [Hq| ->].
    + eapply wf_request_waiter; eauto.
    + eapply Hfresh; [|reflexivity]. left. exact Hp.
  - intros p Hp Hq. apply Hw in Hp as [Hp| ->].
    + eapply wf_waiter_suspended; eauto.
    + eapply Hfresh; [|reflexivity]. right; right. exact Hq.
  - intros p Hp.
    assert (Hcase : (held_by_request st p \/ held_by_waiter st p \/ held_by_suspended st p)
                    \/ p = length (promises st)).
    { destruct Hp as [Hp|[Hp|Hp]]; [left; by left| |left; right; by right].
      apply Hw in Hp as [Hp|Hp]; [left; right; by left|by right]. }
    destruct Hcase as [Hc| ->].
    + rewrite lookup_app_l by (apply Hlt; exact Hc). by apply wf_pending.
    + rewrite lookup_app_r by lia. by rewrite Nat.sub_diag.
  - rewrite map_app. cbn. apply NoDup_app. split; [assumption|]. split.
    + intros x Hx Hx'. apply list_elem_of_singleton in Hx'. subst x.
      apply list_elem_of_fmap in Hx as (r & Hr & Hin). apply wf_regs_bound in Hin. lia.
    + apply NoDup_singleton.
  - intros r Hr. apply elem_of_app in Hr as [Hr|Hr].
    + apply wf_regs_bound in Hr. lia.
    + apply list_elem_of_singleton in Hr. subst r. cbn. lia.
Qed.

Lemma wf_socket_open st st' : wf st -> socket_open st = Returns tt st' -> wf st'.
Proof. intros [] [= <-]. by constructor. Qed.

Lemma send_resume_eq st :
  send_resume st =
  match connecting st with
  | s :: rest =>
      if readyState st =? 1 then
        Returns tt
          (set_sent
             (sent st ++
                [JObj [("id"%string, JNum (_packetCounter st + 1) 0);
                       ("method"%string, JStr (s_method s));
                       ("params"%string, s_params s)]])
             (set_packetCallbacks
                (<[_packetCounter st + 1 := s_promise s]> (_packetCallbacks st))
                (set_packetCounter (_packetCounter st + 1) (set_connecting rest st))))
      else Returns tt st
  | [] => Returns tt st
  end.
Proof.
  unfold send_resume. destruct (connecting st); [reflexivity|].
  destruct (readyState st =? 1); reflexivity.
Qed.

Lemma wf_send_resume st st' : wf st -> send_resume st = Returns tt st' -> wf st'.
Proof.
  intros Hwf. rewrite send_resume_eq.
  destruct (connecting st) as [|s rest] eqn:Hc; [by intros [= <-]|].
  destruct (readyState st =? 1); [|by intros [= <-]].
  intros [= <-].
  assert (Hs : held_by_suspended st (s_promise s)).
  { unfold held_by_suspended. rewrite Hc. cbn. apply elem_of_cons. by left. }
  assert (Hsub : forall p, p ∈ map s_promise rest -> held_by_suspended st p).
  { intros p Hp. unfold held_by_suspended. rewrite Hc. cbn. apply elem_of_cons. by right. }
  assert (Hnd : s_promise s ∉ map s_promise rest).
  { pose proof (wf_suspended _ Hwf) as H. rewrite Hc in H. cbn in H.
    by apply NoDup_cons in H as [H _]. }
  assert (Hreq : forall p i,
    <[_packetCounter st + 1 := s_promise s]> (_packetCallbacks st) !! i = Some p ->
    (i = _packetCounter st + 1 /\ p = s_promise s) \/
    (i <> _packetCounter st + 1 /\ _packetCallbacks st !! i = Some p)).
  { intros p i H. destruct (decide (i = _packetCounter st + 1)) as [->|Hne].
    - rewrite lookup_insert_eq in H. left. split; congruence.
    - rewrite lookup_insert_ne in H by congruence. by right. }
  destruct Hwf as
    [wf_bound wf_inj wf_once_inj wf_suspended wf_request_waiter wf_request_suspended wf_waiter_suspended wf_pending wf_regs wf_regs_bound]. constructor; cbn; try assumption.
  - intros i p H. apply Hreq in H as [[-> _]|[_ H]]; [lia|]. apply wf_bound in H. lia.
  - intros i j p Hi Hj.
    apply Hreq in Hi as [[-> ->]|[Hni Hi]]; apply Hreq in Hj as [[-> Hp]|[Hnj Hj]]; try done.
    + exfalso. eapply wf_request_suspended; [exists j; exact Hj|exact Hs].
    + subst p. exfalso. eapply wf_request_suspended; [exists i; exact Hi|exact Hs].
    + eauto.
  - rewrite Hc in wf_suspended. cbn in wf_suspended. by apply NoDup_cons in wf_suspended as [_ ?].
  - intros p [i Hp] Hq. apply Hreq in Hp as [[_ ->]|[_ Hp]].
    + eapply wf_waiter_suspended; [exact Hq|exact Hs].
    + eapply wf_request_waiter; [exists i; exact Hp|exact Hq].
  - intros p [i Hp] Hq. unfold held_by_suspended in Hq. cbn in Hq.
    apply Hreq in Hp as [[_ ->]|[_ Hp]]; [done|].
    eapply wf_request_suspended; [exists i; exact Hp|by apply Hsub].
  - intros p Hp Hq. eapply wf_waiter_suspended; [exact Hp|by apply Hsub].
  - intros p [[i Hp]|[Hp|Hp]]; apply wf_pending.
    + apply Hreq in Hp as [[_ ->]|[_ Hp]]; [right; by right|left; by exists i].
    + right; by left.
    + right; right. by apply Hsub.
Qed.

(** *** The receive path, case by case *)

Lemma onMessage_eq text st :
  _onMessage text st =
  match JSON.parse text with
  | None => Throws SyntaxError st
  | Some (JObj ms) =>
      match callbacks_get (member_val "id" ms) st with
      | Some p =>
          match JS.member "error" ms with
          | Some JNull => Throws TypeError st
          | Some err =>
              Returns tt
                (delete_st (member_val "id" ms)
                   (settle_st p (Rejected (Value (J err)))
                      (set_console
                         (console st ++
                            [console_error (get_or_undefined (J err) "code")
                               (get_or_undefined (J err) "message")]) st)))
          | None =>
              Returns tt
                (delete_st (member_val "id" ms)
                   (settle_st p (Resolved (member_val "result" ms)) st))
          end
      | None =>
          match JS.member "method" ms with
          | Some (JStr name) => discard (emit name (member_val "params" ms) st)
          | Some _ => Unmodelled
          | None => Returns tt (set_console (console st ++ [console_warn (JObj ms)]) st)
          end
      end
  | Some (JArr l) => Returns tt (set_console (console st ++ [console_warn (JArr l)]) st)
  | Some _ => Throws TypeError st
  end.
Proof.
  unfold _onMessage, bind at 1.
  destruct (JSON.parse text) as [j|]; [|reflexivity].
  destruct j as [|b|m e|sn|s|l|ms]; try reflexivity.
  unfold member_val, discard.
  repeat (unfold bind, gets, ret, lift, throw; cbn -[emit]).
  destruct (JS.member "id" ms) as [id|] eqn:Hid; cbn -[emit].
  - destruct (callbacks_get (J id) st) as [p|] eqn:Hcb; cbn -[emit].
    + destruct (JS.member "error" ms) as [err|] eqn:Herr; cbn -[emit].
      * destruct err as [|b|m e|sn|s|l|ms']; try reflexivity.
        unfold get_or_undefined. cbn. destruct (JS.member "code" ms'), (JS.member "message" ms'); reflexivity.
      * destruct (JS.member "result" ms); reflexivity.
    + destruct (JS.member "method" ms) as [m|] eqn:Hm; cbn -[emit]; [|reflexivity].
      destruct (JS.member "params" ms); cbn -[emit]; destruct m; reflexivity.
  - destruct (JS.member "method" ms) as [m|] eqn:Hm; cbn -[emit]; [|reflexivity].
    destruct (JS.member "params" ms); cbn -[emit]; destruct m; reflexivity.
Qed.

Lemma wf_fields st st' :
  _packetCounter st' = _packetCounter st ->
  _packetCallbacks st' = _packetCallbacks st ->
  _eventEmitter st' = _eventEmitter st ->
  next_reg st' = next_reg st ->
  connecting st' = connecting st ->
  promises st' = promises st ->
  wf st -> wf st'.
Proof.
  intros H1 H2 H3 H4 H5 H6 [].
  constructor; unfold held_by_request, held_by_waiter, held_by_suspended in *;
    rewrite ?H1, ?H2, ?H3, ?H4, ?H5, ?H6; assumption.
Qed.

Lemma same_connection_refl st : same_connection st st.
Proof. by constructor. Qed.

Lemma same_connection_trans st1 st2 st3 :
  same_connection st1 st2 -> same_connection st2 st3 -> same_connection st1 st3.
Proof. intros [] []. constructor; congruence. Qed.

(** *** Calling listeners *)

Lemma invoke_eq r arg st :
  invoke r arg st =
  let st1 := set_delivered (delivered st ++ [(reg_id r, arg)]) st in
  match reg_listener r with
  | ConsoleForwarder =>
      match console_forwarder arg with
      | Ok lines => Returns tt (set_console (console st ++ lines) st1)
      | Raise e => Throws e st1
      end
  | Callback f throws =>
      if throws arg then Throws (ListenerError f) st1 else Returns tt st1
  | Once p =>
      Returns tt
        (settle_st p (Resolved arg)
           (set_eventEmitter
              (filter (fun r' => reg_id r' ≠ reg_id r) (_eventEmitter st)) st1))
  end.
Proof.
  unfold invoke. destruct (reg_listener r) as [|f throws|p]; cbn.
  - unfold bind, record_call, modify, lift. cbn.
    destruct (console_forwarder arg); reflexivity.
  - unfold bind, record_call, modify. cbn. destruct (throws arg); reflexivity.
  - reflexivity.
Qed.

(** A one-shot waiter that fires leaves the emitter and settles its promise;
    nobody else holds that promise. *)
Lemma wf_fire st r p arg dl :
  wf st -> r ∈ _eventEmitter st -> reg_listener r = Once p ->
  let st' :=
    settle_st p (Resolved arg)
      (set_eventEmitter
         (filter (fun r' => reg_id r' ≠ reg_id r) (_eventEmitter st))
         (set_delivered dl st)) in
  wf st' /\ promises st' = <[p := Settled (Resolved arg)]> (promises st) /\
  _eventEmitter st' = filter (fun r' => reg_id r' ≠ reg_id r) (_eventEmitter st) /\
  same_connection st st' /\ delivered st' = dl /\ console st' = console st.
Proof.
  intros Hwf Hr Ho.
  assert (Hp : promises st !! p = Some Pending).
  { apply (wf_pending _ Hwf). right; left. exists r. by split. }
  unfold settle_st. cbn. rewrite Hp. cbn.
  split; [|repeat split; reflexivity].
  assert (Hw : forall q, held_by_waiter
      (set_promises (<[p:=Settled (Resolved arg)]> (promises st))
         (set_eventEmitter
            (filter (fun r' => reg_id r' ≠ reg_id r) (_eventEmitter st))
            (set_delivered dl st))) q -> held_by_waiter st q /\ q <> p).
  { intros q (r' & Hr' & Ho'). cbn in Hr'. apply list_elem_of_filter in Hr' as [Hne Hr'].
    split; [exists r'; by split|]. intros ->. apply Hne.
    eapply (wf_once_inj _ Hwf); eauto. }
  assert (Hheld : held_by_waiter st p) by (exists r; by split).
  destruct Hwf as
    [wf_bound wf_inj wf_once_inj wf_suspended wf_request_waiter wf_request_suspended wf_waiter_suspended wf_pending wf_regs wf_regs_bound]. constructor; cbn; try assumption.
  - intros r1 r2 q H1 H2. apply list_elem_of_filter in H1 as [_ H1].
    apply list_elem_of_filter in H2 as [_ H2]. eauto.
  - intros q Hq Hq'. apply Hw in Hq' as [Hq' _]. eapply wf_request_waiter; eauto.
  - intros q Hq Hq'. apply Hw in Hq as [Hq _]. eapply wf_waiter_suspended; eauto.
  - intros q Hq.
    assert (Hne : q <> p).
    { destruct Hq as [Hq|[Hq|Hq]].
      - intros ->. eapply wf_request_waiter; eauto.
      - by apply Hw in Hq as [_ ?].
      - intros ->. eapply wf_waiter_suspended; eauto. }
    rewrite list_lookup_insert_ne by congruence. apply wf_pending.
    destruct Hq as [Hq|[Hq|Hq]]; [by left|right; left; by apply Hw in Hq as [? _]|right; by right].
  - eapply sublist_NoDup; [exact wf_regs|]. apply fmap_sublist, sublist_filter.
  - intros r' Hr'. apply list_elem_of_filter in Hr' as [_ Hr']. by apply wf_regs_bound.
Qed.

Lemma invoke_spec r arg st :
  wf st -> r ∈ _eventEmitter st ->
  exists st',
    state_of (invoke r arg st) = Some st' /\
    wf st' /\ same_connection st st' /\
    delivered st' = delivered st ++ [(reg_id r, arg)] /\
    promises st' =
      match reg_listener r with
      | Once p => <[p := Settled (Resolved arg)]> (promises st)
      | _ => promises st
      end /\
    _eventEmitter st' =
      (if is_once r
       then filter (fun r' => reg_id r' ≠ reg_id r) (_eventEmitter st)
       else _eventEmitter st) /\
    (listener_throws (reg_listener r) arg = false -> invoke r arg st = Returns tt st').
Proof.
  intros Hwf Hr. rewrite invoke_eq. unfold is_once, listener_throws. cbn.
  destruct (reg_listener r) as [|f throws|p] eqn:Hl.
  - destruct (console_forwarder arg) as [lines|e]; eexists; (split; [reflexivity|]);
      (split; [eapply wf_fields; [..|exact Hwf]; reflexivity|]);
      (split; [by constructor|]); repeat split; try reflexivity. discriminate.
  - destruct (throws arg); eexists; (split; [reflexivity|]);
      (split; [eapply wf_fields; [..|exact Hwf]; reflexivity|]);
      (split; [by constructor|]); repeat split; try reflexivity. discriminate.
  - pose proof (wf_fire st r p arg (delivered st ++ [(reg_id r, arg)]) Hwf Hr Hl) as H.
    cbv zeta in H. destruct H as (H1 & H2 & H3 & H4 & H5 & H6).
    exact (ex_intro _ _ (conj eq_refl (conj H1 (conj H4 (conj H5 (conj H2 (conj H3
             (fun _ => eq_refl)))))))).
Qed.

Lemma reg_id_inj (l : list registration) x y :
  NoDup (map reg_id l) -> x ∈ l -> y ∈ l -> reg_id x = reg_id y -> x = y.
Proof.
  induction l as [|a l IH]; cbn; intros Hnd Hx Hy Heq; [by apply elem_of_nil in Hx|].
  apply NoDup_cons in Hnd as [Ha Hnd].
  apply elem_of_cons in Hx as [->|Hx]; apply elem_of_cons in Hy as [->|Hy]; auto.
  - exfalso. apply Ha. rewrite Heq. apply list_elem_of_fmap. by exists y.
  - exfalso. apply Ha. rewrite <- Heq. apply list_elem_of_fmap. by exists x.
Qed.

Lemma invoke_step r rs arg st st1 :
  state_of (invoke r arg st) = Some st1 ->
  invoke_all (r :: rs) arg st =
  match invoke r arg st with
  | Returns _ _ => invoke_all rs arg st1
  | Throws e _ => Throws e st1
  | Unmodelled => Unmodelled
  end.
Proof.
  cbn [invoke_all]. unfold bind. destruct (invoke r arg st); cbn [state_of];
    intros [= ->]; reflexivity.
Qed.

(** Whatever the listeners do, calling them touches only the emitter, the
    promises of one-shot waiters, the console and the record of calls. *)
Lemma invoke_all_frame rs arg :
  forall st, wf st -> (forall r, r ∈ rs -> r ∈ _eventEmitter st) ->
  NoDup (map reg_id rs) ->
  exists st',
    state_of (invoke_all rs arg st) = Some st' /\ wf st' /\ same_connection st st' /\
    (forall p, ~ held_by_waiter st p -> promises st' !! p = promises st !! p) /\
    (forall x, x ∈ _eventEmitter st' -> x ∈ _eventEmitter st) /\
    (exists called, called `prefix_of` rs /\
       delivered st' = delivered st ++ map (fun r => (reg_id r, arg)) called).
Proof.
  induction rs as [|r rs IH]; intros st Hwf Hin Hnd.
  - exists st. split; [reflexivity|]. split; [exact Hwf|].
    split; [apply same_connection_refl|]. split; [done|]. split; [done|].
    exists []. split; [done|]. cbn. by rewrite app_nil_r.
  - cbn in Hnd. apply NoDup_cons in Hnd as [Hr Hnd].
    destruct (invoke_spec r arg st Hwf (Hin r ltac:(left))) as
      (st1 & Hst1 & Hwf1 & Hsame1 & Hd1 & Hp1 & He1 & _).
    assert (Hsub1 : forall x, x ∈ _eventEmitter st1 -> x ∈ _eventEmitter st).
    { intros x. rewrite He1. destruct (is_once r); [|done].
      intros Hx. by apply list_elem_of_filter in Hx as [_ ?]. }
    assert (Hkeep1 : forall p, ~ held_by_waiter st p -> promises st1 !! p = promises st !! p).
    { intros p Hp. rewrite Hp1. destruct (reg_listener r) as [| |q] eqn:Hl; try done.
      apply list_lookup_insert_ne. intros ->. apply Hp. exists r. split; [|done].
      apply Hin. by left. }
    rewrite (invoke_step _ _ _ _ _ Hst1).
    destruct (invoke r arg st) as [[] st1'|e st1'|]; cbn in Hst1; [| |discriminate].
    + injection Hst1 as ->.
      destruct (IH st1 Hwf1) as (st' & Hst' & Hwf' & Hsame' & Hkeep' & Hsub' & called & Hpre & Hd');
        [|exact Hnd|].
      { intros x Hx. rewrite He1. destruct (is_once r); [|apply Hin; by right].
        apply list_elem_of_filter. split; [|apply Hin; by right].
        intros Heq. apply Hr. rewrite <- Heq. apply list_elem_of_fmap. by exists x. }
      exists st'. split; [exact Hst'|]. split; [exact Hwf'|].
      split; [eapply same_connection_trans; eauto|]. split; [|split].
      * intros p Hp. rewrite Hkeep'; [by apply Hkeep1|].
        intros (x & Hx & Ho). apply Hp. exists x. split; [by apply Hsub1|done].
      * intros x Hx. by apply Hsub1, Hsub'.
      * exists (r :: called). split; [by apply prefix_cons|].
        rewrite Hd', Hd1. cbn. by rewrite <- app_assoc.
    + injection Hst1 as ->. exists st1. split; [reflexivity|]. split; [exact Hwf1|].
      split; [exact Hsame1|]. split; [exact Hkeep1|]. split; [exact Hsub1|].
      exists [r]. split; [apply prefix_cons, prefix_nil|]. by rewrite Hd1.
Qed.


(** When no listener throws, every listener of the snapshot is called once,
    in order, every one-shot waiter among them has its promise resolved with
    the argument, and exactly those waiters leave the emitter. *)
Lemma invoke_all_returns rs arg :
  forall st, wf st -> (forall r, r ∈ rs -> r ∈ _eventEmitter st) ->
  NoDup (map reg_id rs) ->
  (forall r, r ∈ rs -> listener_throws (reg_listener r) arg = false) ->
  exists st',
    invoke_all rs arg st = Returns tt st' /\
    delivered st' = delivered st ++ map (fun r => (reg_id r, arg)) rs /\
    (forall r p, r ∈ rs -> reg_listener r = Once p ->
       promises st' !! p = Some (Settled (Resolved arg))) /\
    (forall x, x ∈ _eventEmitter st' <->
       x ∈ _eventEmitter st /\ ~ (x ∈ rs /\ is_once x = true)).
Proof.
  induction rs as [|r rs IH]; intros st Hwf Hin Hnd Hok.
  - exists st. cbn. split; [done|]. split; [by rewrite app_nil_r|]. split.
    + intros r p Hr. by apply elem_of_nil in Hr.
    + intros x. split; [|tauto]. intros Hx. split; [done|]. intros [Hx' _].
      by apply elem_of_nil in Hx'.
  - cbn in Hnd. apply NoDup_cons in Hnd as [Hr Hnd].
    assert (Hrin : r ∈ _eventEmitter st) by (apply Hin; by left).
    destruct (invoke_spec r arg st Hwf Hrin) as
      (st1 & Hst1 & Hwf1 & Hsame1 & Hd1 & Hp1 & He1 & Hret1).
    specialize (Hret1 (Hok r ltac:(left))).
    assert (Hin1 : forall x, x ∈ rs -> x ∈ _eventEmitter st1).
    { intros x Hx. rewrite He1. destruct (is_once r); [|apply Hin; by right].
      apply list_elem_of_filter. split; [|apply Hin; by right].
      intros Heq. apply Hr. rewrite <- Heq. apply list_elem_of_fmap. by exists x. }
    destruct (IH st1 Hwf1 Hin1 Hnd) as (st' & Hst' & Hd' & Hp' & He');
      [intros x Hx; apply Hok; by right|].
    destruct (invoke_all_frame rs arg st1 Hwf1 Hin1 Hnd) as
      (st'' & Hst'' & _ & _ & Hkeep & _).
    rewrite Hst' in Hst''. cbn in Hst''. injection Hst'' as <-.
    exists st'. split; [|split; [|split]].
    + rewrite (invoke_step _ _ _ _ _ Hst1), Hret1. exact Hst'.
    + rewrite Hd', Hd1. cbn. by rewrite <- app_assoc.
    + intros x p Hx Ho. apply elem_of_cons in Hx as [->|Hx]; [|eauto].
      rewrite Hkeep.
      * rewrite Hp1, Ho. apply list_lookup_insert_eq.
        eapply lookup_lt_Some, (wf_pending _ Hwf). right; left. exists r. by split.
      * intros (y & Hy & Hoy). rewrite He1 in Hy. unfold is_once in Hy. rewrite Ho in Hy.
        apply list_elem_of_filter in Hy as [Hne Hy]. apply Hne.
        eapply (wf_once_inj _ Hwf); eauto.
    + intros x. rewrite He', He1. split.
      * intros [Hx Hn]. destruct (is_once r) eqn:Honce.
        -- apply list_elem_of_filter in Hx as [Hne Hx]. split; [done|].
           intros [Hx' Hox]. apply elem_of_cons in Hx' as [->|Hx']; [done|]. apply Hn. by split.
        -- split; [done|]. intros [Hx' Hox].
           apply elem_of_cons in Hx' as [->|Hx']; [congruence|]. apply Hn. by split.
      * intros [Hx Hn]. split.
        -- destruct (is_once r) eqn:Honce; [|done]. apply list_elem_of_filter. split; [|done].
           intros Heq. apply Hn.
           assert (x = r) as ->
             by (apply (reg_id_inj (_eventEmitter st)); [by apply wf_regs|done..]).
           split; [by left|done].
        -- intros [Hx' Hox]. apply Hn. split; [by right|done].
Qed.

(** *** Emitting an event *)

Lemma emit_eq name arg st :
  emit name arg st =
  match listeners name st with
  | [] => if decide (name = "error"%string) then Throws ERR_UNHANDLED_ERROR st
          else Returns false st
  | ls =>
      match invoke_all ls arg st with
      | Returns _ st' => Returns true st'
      | Throws e st' => Throws e st'
      | Unmodelled => Unmodelled
      end
  end.
Proof.
  unfold emit, bind, gets. destruct (listeners name st); [|reflexivity].
  destruct (decide (name = "error"%string)); reflexivity.
Qed.

Lemma listeners_in name st r :
  r ∈ listeners name st <-> reg_event r = name /\ r ∈ _eventEmitter st.
Proof. unfold listeners. by rewrite list_elem_of_filter. Qed.

Lemma listeners_NoDup name st : wf st -> NoDup (map reg_id (listeners name st)).
Proof.
  intros Hwf. eapply sublist_NoDup; [apply (wf_regs _ Hwf)|].
  apply fmap_sublist, sublist_filter.
Qed.

Lemma emit_frame name arg st :
  wf st ->
  exists st',
    state_of (emit name arg st) = Some st' /\ wf st' /\ same_connection st st' /\
    (forall p, ~ held_by_waiter st p -> promises st' !! p = promises st !! p) /\
    (exists called, called `prefix_of` listeners name st /\
       delivered st' = delivered st ++ map (fun r => (reg_id r, arg)) called).
Proof.
  intros Hwf.
  destruct (invoke_all_frame (listeners name st) arg st Hwf) as
    (st' & Hst' & Hwf' & Hsame & Hkeep & _ & Hcalled).
  { intros r Hr. by apply listeners_in in Hr as [_ ?]. }
  { by apply listeners_NoDup. }
  rewrite emit_eq. destruct (listeners name st) as [|r ls] eqn:Hls.
  - cbn in Hst'. injection Hst' as <-. exists st.
    split; [by destruct (decide (name = "error"%string))|].
    split; [exact Hwf|]. split; [exact Hsame|]. split; [exact Hkeep|exact Hcalled].
  - exists st'. split; [|done].
    destruct (invoke_all (r :: ls) arg st); cbn in *; congruence.
Qed.

(** *** The invariant along a history *)

Lemma callbacks_get_Some id st p :
  callbacks_get id st = Some p ->
  exists i, key_of id = Some i /\ _packetCallbacks st !! i = Some p.
Proof.
  unfold callbacks_get. destruct (key_of id) as [i|]; [|done]. intros H. by exists i.
Qed.

Lemma wf_answered st i p o cons :
  wf st -> _packetCallbacks st !! i = Some p ->
  wf (set_packetCallbacks (delete i (_packetCallbacks st))
        (set_promises (<[p := Settled o]> (promises st)) (set_console cons st))).
Proof.
  intros Hwf Hi.
  set (st' := set_packetCallbacks _ _).
  assert (Hreq : forall q, held_by_request st' q -> held_by_request st q /\ q <> p).
  { intros q [j Hj]. cbn in Hj. apply lookup_delete_Some in Hj as [Hne Hj].
    split; [by exists j|]. intros ->. apply Hne. eapply (wf_inj _ Hwf); eauto. }
  assert (Hp : held_by_request st p) by (by exists i).
  destruct Hwf as
    [wf_bound wf_inj wf_once_inj wf_suspended wf_request_waiter wf_request_suspended wf_waiter_suspended wf_pending wf_regs wf_regs_bound]. constructor; subst st'; cbn; try assumption.
  - intros j q Hj. apply lookup_delete_Some in Hj as [_ Hj]. eauto.
  - intros j k q Hj Hk. apply lookup_delete_Some in Hj as [_ Hj].
    apply lookup_delete_Some in Hk as [_ Hk]. eauto.
  - intros q Hq Hq'. apply Hreq in Hq as [Hq _]. eapply wf_request_waiter; eauto.
  - intros q Hq Hq'. apply Hreq in Hq as [Hq _]. eapply wf_request_suspended; eauto.
  - intros q Hq.
    assert (Hne : q <> p).
    { destruct Hq as [Hq|[Hq|Hq]].
      - by apply Hreq in Hq as [_ ?].
      - intros ->. eapply wf_request_waiter; eauto.
      - intros ->. eapply wf_request_suspended; eauto. }
    rewrite list_lookup_insert_ne by congruence. apply wf_pending.
    destruct Hq as [Hq|[Hq|Hq]]; [left; by apply Hreq in Hq as [? _]|right; by left|right; by right].
Qed.

Lemma answered_eq st id i p o :
  wf st -> key_of id = Some i -> _packetCallbacks st !! i = Some p ->
  forall cons,
  delete_st id (settle_st p o (set_console cons st)) =
  set_packetCallbacks (delete i (_packetCallbacks st))
    (set_promises (<[p := Settled o]> (promises st)) (set_console cons st)).
Proof.
  intros Hwf Hk Hi cons. unfold delete_st, settle_st. rewrite Hk. cbn.
  assert (Hp : promises st !! p = Some Pending).
  { apply (wf_pending _ Hwf). left. by exists i. }
  rewrite Hp. reflexivity.
Qed.

Lemma answered_eq0 st id i p o :
  wf st -> key_of id = Some i -> _packetCallbacks st !! i = Some p ->
  delete_st id (settle_st p o st) =
  set_packetCallbacks (delete i (_packetCallbacks st))
    (set_promises (<[p := Settled o]> (promises st)) st).
Proof.
  intros Hwf Hk Hi. unfold delete_st, settle_st. rewrite Hk. cbn.
  assert (Hp : promises st !! p = Some Pending).
  { apply (wf_pending _ Hwf). left. by exists i. }
  rewrite Hp. reflexivity.
Qed.

Lemma set_console_id st : set_console (console st) st = st.
Proof. by destruct st. Qed.

Lemma wf_onMessage text st st' :
  wf st -> state_of (_onMessage text st) = Some st' -> wf st'.
Proof.
  intros Hwf. rewrite onMessage_eq.
  assert (Hcons : forall l, wf (set_console l st)).
  { intros l. eapply wf_fields; [..|exact Hwf]; reflexivity. }
  destruct (JSON.parse text) as [[|b|m e|sn|s|l|ms]|]; cbn; try (intros [= <-]; auto).
  destruct (callbacks_get (member_val "id" ms) st) as [p|] eqn:Hcb.
  - apply callbacks_get_Some in Hcb as (i & Hk & Hi).
    destruct (JS.member "error" ms) as [err|].
    + destruct err; cbn; intros [= <-]; auto;
        rewrite (answered_eq st _ i p _ Hwf Hk Hi); by apply wf_answered.
    + cbn. intros [= <-]. rewrite <- (set_console_id st) at 1.
      rewrite (answered_eq st _ i p _ Hwf Hk Hi). by apply wf_answered.
  - destruct (JS.member "method" ms) as [[|b|m e|sn|name|l|ms']|]; cbn; try discriminate.
    + destruct (emit_frame name (member_val "params" ms) st Hwf) as (st1 & Hst1 & Hwf1 & _).
      destruct (emit name (member_val "params" ms) st); cbn in *; congruence.
    + intros [= <-]. auto.
Qed.

Lemma wf_step e st st' : wf st -> step e st = Some st' -> wf st'.
Proof.
  intros Hwf. destruct e as [method params|method f throws|method| | |text]; cbn [step].
  - rewrite send_eq. cbn [state_of]. intros [= <-]. eapply wf_send; [exact Hwf|apply send_eq].
  - destruct (listen method (Callback f throws) st) as [[] st1|e st1|] eqn:H;
      cbn [state_of]; [|rewrite listen_eq in H; by destruct (meta_event method)|discriminate].
    intros [= <-]. eapply wf_listen; eauto.
  - destruct (wait method st) as [p st1|e st1|] eqn:H;
      cbn [state_of]; [|rewrite wait_eq in H; by destruct (meta_event method)|discriminate].
    intros [= <-]. eapply wf_wait; eauto.
  - destruct (send_resume st) as [[] st1|e st1|] eqn:H; cbn; try discriminate.
    + intros [= <-]. eapply wf_send_resume; eauto.
    + exfalso. rewrite send_resume_eq in H.
      destruct (connecting st); [discriminate|]. destruct (readyState st =? 1); discriminate.
  - cbn. intros [= <-]. eapply wf_socket_open; [exact Hwf|reflexivity].
  - by apply wf_onMessage.
Qed.

Lemma wf_run tr : forall st st', wf st -> run tr st = Some st' -> wf st'.
Proof.
  induction tr as [|e tr IH]; cbn; intros st st' Hwf H; [congruence|].
  destruct (step e st) as [st1|] eqn:He; [|discriminate].
  eapply IH; [|exact H]. eapply wf_step; eauto.
Qed.

Lemma reachable_wf st : reachable st -> wf st.
Proof. intros (d & tr & H). eapply wf_run; [apply wf_new_Page|exact H]. Qed.

(** *** A settled promise stays as it is *)

Lemma keeps_settled_refl st : keeps_settled st st.
Proof. by intros p o. Qed.

Lemma keeps_settled_trans st1 st2 st3 :
  keeps_settled st1 st2 -> keeps_settled st2 st3 -> keeps_settled st1 st3.
Proof. intros H1 H2 p o H. by apply H2, H1. Qed.

Lemma keeps_settled_eq st st' : promises st' = promises st -> keeps_settled st st'.
Proof. intros H p o. by rewrite H. Qed.

Lemma keeps_settled_new st st' :
  promises st' = promises st ++ [Pending] -> keeps_settled st st'.
Proof.
  intros H p o Hp. rewrite H. rewrite lookup_app_l; [done|]. by eapply lookup_lt_Some.
Qed.

Lemma keeps_settled_settle p o st : keeps_settled st (settle_st p o st).
Proof.
  intros q o' Hq. unfold settle_st. destruct (promises st !! p) as [[|]|] eqn:Hp; try done.
  cbn. rewrite list_lookup_insert_ne; [done|]. congruence.
Qed.

Lemma keeps_settled_invoke r arg st st' :
  state_of (invoke r arg st) = Some st' -> keeps_settled st st'.
Proof.
  rewrite invoke_eq. cbn. destruct (reg_listener r) as [|f throws|p].
  - destruct (console_forwarder arg); intros [= <-]; by apply keeps_settled_eq.
  - destruct (throws arg); intros [= <-]; by apply keeps_settled_eq.
  - intros [= <-]. eapply keeps_settled_trans; [|apply keeps_settled_settle].
    by apply keeps_settled_eq.
Qed.

Lemma keeps_settled_invoke_all rs arg :
  forall st st', state_of (invoke_all rs arg st) = Some st' -> keeps_settled st st'.
Proof.
  induction rs as [|r rs IH]; intros st st'; cbn [invoke_all].
  - intros [= <-]. apply keeps_settled_refl.
  - unfold bind. destruct (invoke r arg st) as [[] st1|e st1|] eqn:Hr; cbn [state_of];
      [|intros [= <-]|discriminate].
    + intros H. eapply keeps_settled_trans; [|eapply IH; exact H].
      eapply keeps_settled_invoke. by rewrite Hr.
    + eapply keeps_settled_invoke. by rewrite Hr.
Qed.

Lemma keeps_settled_onMessage text st st' :
  state_of (_onMessage text st) = Some st' -> keeps_settled st st'.
Proof.
  rewrite onMessage_eq.
  destruct (JSON.parse text) as [[|b|m e|sn|s|l|ms]|]; cbn;
    try (intros [= <-]; by apply keeps_settled_eq).
  assert (Hdel : forall id st0, keeps_settled st0 (delete_st id st0)).
  { intros id st0. apply keeps_settled_eq. unfold delete_st. by destruct (key_of id). }
  destruct (callbacks_get (member_val "id" ms) st) as [p|].
  - destruct (JS.member "error" ms) as [err|].
    + destruct err; cbn; intros [= <-]; try apply keeps_settled_refl;
        (eapply keeps_settled_trans; [|apply Hdel]);
        (eapply keeps_settled_trans; [|apply keeps_settled_settle]);
        by apply keeps_settled_eq.
    + cbn. intros [= <-]. eapply keeps_settled_trans; [|apply Hdel].
      apply keeps_settled_settle.
  - destruct (JS.member "method" ms) as [[|b|m e|sn|name|l|ms']|]; cbn; try discriminate.
    + rewrite emit_eq. destruct (listeners name st) as [|r ls].
      * destruct (decide (name = "error"%string)); intros [= <-]; apply keeps_settled_refl.
      * destruct (invoke_all (r :: ls) (member_val "params" ms) st) eqn:Hi; cbn;
          try discriminate; intros [= <-];
          eapply keeps_settled_invoke_all; by rewrite Hi.
    + intros [= <-]. by apply keeps_settled_eq.
Qed.

Lemma keeps_settled_step e st st' : step e st = Some st' -> keeps_settled st st'.
Proof.
  destruct e as [method params|method f throws|method| | |text]; cbn [step].
  - rewrite send_eq. intros [= <-]. by apply keeps_settled_new.
  - rewrite listen_eq. destruct (meta_event method); [discriminate|].
    intros [= <-]. by apply keeps_settled_eq.
  - rewrite wait_eq. destruct (meta_event method); [discriminate|].
    intros [= <-]. by apply keeps_settled_new.
  - rewrite send_resume_eq. destruct (connecting st); [intros [= <-]; apply keeps_settled_refl|].
    destruct (readyState st =? 1); intros [= <-]; by apply keeps_settled_eq.
  - intros [= <-]. by apply keeps_settled_eq.
  - apply keeps_settled_onMessage.
Qed.

Lemma keeps_settled_run tr :
  forall st st', run tr st = Some st' -> keeps_settled st st'.
Proof.
  induction tr as [|e tr IH]; cbn; intros st st' H.
  - injection H as <-. apply keeps_settled_refl.
  - destruct (step e st) as [st1|] eqn:He; [|discriminate].
    eapply keeps_settled_trans; [by eapply keeps_settled_step|by eapply IH].
Qed.

(** *** A pending request and the frames that arrive *)

Lemma key_of_is_integer j i : key_of (J j) = Some i <-> is_integer j i = true.
Proof.
  unfold key_of, is_integer, JS.integer.
  destruct j as [|b|m e|sn|s|l|ms]; try (split; discriminate).
  2: { destruct sn; try (split; discriminate).
       rewrite Z.eqb_eq. split; [by intros [= <-]|by intros ->]. }
  destruct (0 <=? e) eqn:He.
  - rewrite Z.eqb_eq. split; congruence.
  - apply Z.leb_gt in He.
    assert (Hd : 0 < 10 ^ (- e)) by (apply Z.pow_pos_nonneg; lia).
    rewrite Z.eqb_eq. split.
    + destruct (m mod 10 ^ (- e) =? 0) eqn:Hm; [|discriminate].
      apply Z.eqb_eq in Hm. intros [= <-].
      rewrite Z.mul_comm. by apply Z.div_exact; [lia|].
    + intros ->. rewrite Z.mod_mul by lia. cbn. by rewrite Z.div_mul by lia.
Qed.

Lemma onMessage_request text st st' i p :
  wf st -> _packetCallbacks st !! i = Some p ->
  state_of (_onMessage text st) = Some st' ->
  match response_for i text with
  | Some o => promises st' !! p = Some (Settled o)
  | None => _packetCallbacks st' !! i = Some p
  end.
Proof.
  intros Hwf Hi. rewrite onMessage_eq. unfold response_for.
  assert (Hp : promises st !! p = Some Pending).
  { apply (wf_pending _ Hwf). left. by exists i. }
  destruct (JSON.parse text) as [[|b|m e|sn|s|l|ms]|]; cbn; try (by intros [= <-]).
  destruct (JS.member "id" ms) as [id|] eqn:Hid.
  - assert (Hmv : member_val "id" ms = J id) by (unfold member_val; by rewrite Hid).
    rewrite !Hmv.
    destruct (is_integer id i) eqn:Hint.
    + pose proof (proj2 (key_of_is_integer id i) Hint) as Hk.
      unfold callbacks_get. rewrite Hk, Hi.
      destruct (JS.member "error" ms) as [err|].
      * destruct err; cbn; intros [= <-]; try done;
          rewrite (answered_eq st _ i p _ Hwf Hk Hi); cbn;
          apply list_lookup_insert_eq; by eapply lookup_lt_Some.
      * cbn. intros [= <-]. rewrite <- (set_console_id st) at 1.
        rewrite (answered_eq st _ i p _ Hwf Hk Hi). cbn.
        apply list_lookup_insert_eq. by eapply lookup_lt_Some.
    + assert (Hk : key_of (J id) <> Some i).
      { intros Hk. apply key_of_is_integer in Hk. congruence. }
      destruct (callbacks_get (J id) st) as [q|] eqn:Hcb.
      * apply callbacks_get_Some in Hcb as (j & Hj & Hq).
        assert (Hne : j <> i) by congruence.
        destruct (JS.member "error" ms) as [err|].
        -- destruct err; cbn; intros [= <-]; try done;
             rewrite (answered_eq st _ j q _ Hwf Hj Hq); cbn;
             by rewrite lookup_delete_ne.
        -- cbn. intros [= <-]. rewrite <- (set_console_id st) at 1.
           rewrite (answered_eq st _ j q _ Hwf Hj Hq). cbn. by rewrite lookup_delete_ne.
      * destruct (JS.member "method" ms) as [[|b|m e|sn|name|l|ms']|]; cbn; try discriminate.
        -- destruct (emit_frame name (member_val "params" ms) st Hwf) as
             (st1 & Hst1 & _ & Hsame & _).
           destruct (emit name (member_val "params" ms) st); cbn in *; try discriminate;
             injection Hst1 as ->; intros [= <-]; by rewrite (same_callbacks _ _ Hsame).
        -- by intros [= <-].
  - assert (Hmv : member_val "id" ms = undefined) by (unfold member_val; by rewrite Hid).
    rewrite !Hmv. unfold callbacks_get, key_of.
    destruct (JS.member "method" ms) as [[|b|m e|sn|name|l|ms']|]; cbn; try discriminate.
    + destruct (emit_frame name (member_val "params" ms) st Hwf) as
        (st1 & Hst1 & _ & Hsame & _).
      destruct (emit name (member_val "params" ms) st); cbn in *; try discriminate;
        injection Hst1 as ->; intros [= <-]; by rewrite (same_callbacks _ _ Hsame).
    + by intros [= <-].
Qed.

Lemma step_keeps_request e st st' i p :
  wf st -> _packetCallbacks st !! i = Some p ->
  (forall text, e <> Socket_message text) ->
  step e st = Some st' -> _packetCallbacks st' !! i = Some p.
Proof.
  intros Hwf Hi Hne. destruct e as [method params|method f throws|method| | |text]; cbn [step].
  - rewrite send_eq. by intros [= <-].
  - rewrite listen_eq. destruct (meta_event method); [discriminate|]. by intros [= <-].
  - rewrite wait_eq. destruct (meta_event method); [discriminate|]. by intros [= <-].
  - rewrite send_resume_eq. destruct (connecting st); [by intros [= <-]|].
    destruct (readyState st =? 1); [|by intros [= <-]].
    intros [= <-]. cbn. rewrite lookup_insert_ne; [done|].
    apply (wf_bound _ Hwf) in Hi. lia.
  - by intros [= <-].
  - by destruct (Hne text).
Qed.

Lemma verdict_run post :
  forall st st' i p,
    wf st -> _packetCallbacks st !! i = Some p ->
    run post st = Some st' ->
    promises st' !! p = Some (verdict i post).
Proof.
  induction post as [|e post IH]; intros st st' i p Hwf Hi; cbn [run verdict].
  - intros [= <-]. apply (wf_pending _ Hwf). left. by exists i.
  - destruct (step e st) as [st1|] eqn:He; [|discriminate]. intros Hrun.
    assert (Hwf1 : wf st1) by (eapply wf_step; eauto).
    assert (Hother : (forall text, e <> Socket_message text) ->
                     promises st' !! p = Some (verdict i post)).
    { intros Hne. eapply IH; [exact Hwf1| |exact Hrun].
      exact (step_keeps_request e st st1 i p Hwf Hi Hne He). }
    destruct e as [method params|method f throws|method| | |text]; try (by apply Hother).
    cbn [step] in He. pose proof (onMessage_request text st st1 i p Hwf Hi He) as Hm.
    destruct (response_for i text) as [o|].
    + eapply keeps_settled_run; eauto.
    + eapply IH; eauto.
Qed.

(** The receive path leaves the identity of the page alone. *)
Lemma onMessage_id text st st' :
  wf st -> state_of (_onMessage text st) = Some st' -> _id st' = _id st.
Proof.
  intros Hwf. rewrite onMessage_eq.
  destruct (JSON.parse text) as [[|b|m e|sn|s|l|ms]|]; cbn; try (by intros [= <-]).
  assert (Hdel : forall id st0, _id (delete_st id st0) = _id st0).
  { intros id st0. unfold delete_st. by destruct (key_of id). }
  assert (Hset : forall p o st0, _id (settle_st p o st0) = _id st0).
  { intros p o st0. unfold settle_st. by destruct (promises st0 !! p) as [[|]|]. }
  destruct (callbacks_get (member_val "id" ms) st) as [p|].
  - destruct (JS.member "error" ms) as [err|].
    + destruct err; cbn; intros [= <-]; try done; by rewrite Hdel, Hset.
    + cbn. intros [= <-]. by rewrite Hdel, Hset.
  - destruct (JS.member "method" ms) as [[|b|m e|sn|name|l|ms']|]; cbn; try discriminate.
    + destruct (emit_frame name (member_val "params" ms) st Hwf) as
        (st1 & Hst1 & _ & Hsame & _).
      destruct (emit name (member_val "params" ms) st); cbn in *; try discriminate;
        injection Hst1 as ->; intros [= <-]; by rewrite (same_id _ _ Hsame).
    + by intros [= <-].
Qed.

Lemma step_id e st st' : wf st -> step e st = Some st' -> _id st' = _id st.
Proof.
  intros Hwf. destruct e as [method params|method f throws|method| | |text]; cbn [step].
  - rewrite send_eq. by intros [= <-].
  - rewrite listen_eq. destruct (meta_event method); [discriminate|]. by intros [= <-].
  - rewrite wait_eq. destruct (meta_event method); [discriminate|]. by intros [= <-].
  - rewrite send_resume_eq. destruct (connecting st); [by intros [= <-]|].
    destruct (readyState st =? 1); by intros [= <-].
  - by intros [= <-].
  - by apply onMessage_id.
Qed.

(** ** The helpers against the answers of the browser *)


Lemma play_chain env a k :
  forall n w,
    play env (chain a k) n w =
    let '(l1, o1) := play env a n w in
    let '(l2, o2) := play env (k o1) (n + requests l1)%nat (w + awaits l1)%nat in
    (l1 ++ l2, o2).
Proof.
  induction a as [o|method params k' IH|method k' IH|ms a IH]; intros n w; cbn.
  - rewrite !Nat.add_0_r. by destruct (play env (k o) n w).
  - rewrite IH. destruct (play env (k' (answer env n)) (S n) w) as [l1 o1]. cbn.
    unfold requests. cbn. rewrite Nat.add_succ_r.
    by destruct (play env (k o1) _ _).
  - rewrite IH. destruct (play env (k' (event_arg env w)) n (S w)) as [l1 o1]. cbn.
    unfold awaits. cbn. rewrite Nat.add_succ_r.
    by destruct (play env (k o1) _ _).
  - rewrite IH. destruct (play env a n w) as [l1 o1]. cbn.
    by destruct (play env (k o1) _ _).
Qed.

Lemma convoy_if {A} (b : bool) (x y : A) :
  (match b as b' return (b = b' -> A) with
   | true => fun _ => x
   | false => fun _ => y
   end) eq_refl = if b then x else y.
Proof. by destruct b. Qed.

(** *** The passes of [waitFor] *)

Lemma Qceiling_unique (x : Q) (c : Z) :
  (inject_Z (c - 1) < x)%Q -> (x <= inject_Z c)%Q -> Qceiling x = c.
Proof.
  intros H1 H2.
  pose proof (Qle_ceiling x) as Ha. pose proof (Qceiling_lt x) as Hb.
  assert (H3 : (inject_Z (c - 1) < inject_Z (Qceiling x))%Q) by lra.
  assert (H4 : (inject_Z (Qceiling x - 1) < inject_Z c)%Q) by lra.
  rewrite <- Zlt_Qlt in H3. rewrite <- Zlt_Qlt in H4. lia.
Qed.

Lemma Qceiling_pred (x : Q) : Qceiling (x - 1) = Qceiling x - 1.
Proof.
  apply Qceiling_unique.
  - pose proof (Qceiling_lt x) as Hb.
    unfold Z.sub in *. rewrite !inject_Z_plus, !inject_Z_opp in *.
    change (inject_Z 1) with 1%Q in *. lra.
  - pose proof (Qle_ceiling x) as Ha.
    unfold Z.sub. rewrite inject_Z_plus, inject_Z_opp. change (inject_Z 1) with 1%Q. lra.
Qed.

Lemma passes_spent (passes : Q) :
  Z.to_nat (Qceiling passes) = O -> Qle_bool passes 0 = true.
Proof.
  intros H. apply Qle_bool_iff.
  pose proof (Qle_ceiling passes) as Ha.
  assert (Hc : Qceiling passes <= 0) by lia.
  rewrite Zle_Qle in Hc. change (inject_Z 0) with 0%Q in Hc. lra.
Qed.

Lemma passes_left (passes : Q) c :
  Z.to_nat (Qceiling passes) = S c ->
  Qle_bool passes 0 = false /\ Z.to_nat (Qceiling (passes - 1)) = c.
Proof.
  intros H. split.
  - destruct (Qle_bool passes 0) eqn:Hle; [|reflexivity]. exfalso.
    apply Qle_bool_iff in Hle. pose proof (Qceiling_lt passes) as Hb.
    assert (Hc : 0 <= Qceiling passes - 1) by lia.
    rewrite Zle_Qle in Hc. change (inject_Z 0) with 0%Q in Hc. lra.
  - rewrite Qceiling_pred. lia.
Qed.

Section HelperFacts.
Variable JSON_stringify : list val -> string.

Lemma play_execSync env expression params n w :
  play env (execSync JSON_stringify expression params) n w =
  ([Request "Runtime.evaluate"
      (evaluate_request (script_of JSON_stringify expression params) false)],
   execSync_outcome (answer env n)).
Proof.
  unfold execSync. cbn. unfold execSync_outcome.
  destruct (answer env n) as [result|r]; cbn; [|reflexivity].
  destruct (JS.get result "exceptionDetails") as [details|e]; cbn; [|reflexivity].
  destruct (JS.truthy details); cbn; [reflexivity|].
  unfold result_value.
  destruct (JS.get result "result") as [r|e]; cbn; [|reflexivity].
  destruct (JS.get r "value"); reflexivity.
Qed.

(** One turn of the closure of [waitFor]. *)
Lemma play_waitFor_exec env expression timeout params passes n w :
  play env (waitFor_exec JSON_stringify expression timeout params passes) n w =
  let request :=
    Request "Runtime.evaluate"
      (evaluate_request (script_of JSON_stringify expression params) false) in
  match execSync_outcome (answer env n) with
  | Resolved result =>
      if JS.truthy result then ([request], Resolved result)
      else if Qle_bool passes 0
           then ([request], Rejected (Value (timeout_message timeout)))
           else
             let '(l, o) :=
               play env
                 (waitFor_exec JSON_stringify expression timeout params (passes - 1))
                 (S n) w in
             (request :: Timer 10 :: l, o)
  | Rejected r => ([request], Rejected r)
  end.
Proof.
  rewrite waitFor_exec_equation_1, play_chain, play_execSync. cbn zeta.
  unfold requests, awaits. cbn [List.filter is_request is_await length app].
  replace (n + 1)%nat with (S n) by lia. rewrite Nat.add_0_r.
  destruct (execSync_outcome (answer env n)) as [result|r]; [|reflexivity].
  destruct (JS.truthy result); [reflexivity|].
  rewrite convoy_if. destruct (Qle_bool passes 0); [reflexivity|].
  cbn. by destruct (play env _ (S n) w).
Qed.

(** With answers that are always falsy the closure runs once per pass left
    and once more, then rejects. *)
Lemma waitFor_exec_gives_up env expression timeout params c :
  (forall k, falsy_answer (answer env k)) ->
  forall passes n w,
    Z.to_nat (Qceiling passes) = c ->
    exists l,
      play env (waitFor_exec JSON_stringify expression timeout params passes) n w =
        (l, Rejected (Value (timeout_message timeout))) /\
      requests l = S c /\
      Forall (fun a => a = evaluation JSON_stringify expression params \/ a = Timer 10) l.
Proof.
  intros Hfalsy. induction c as [|c IH]; intros passes n w Hc;
    rewrite play_waitFor_exec; cbn zeta;
    destruct (Hfalsy n) as (v & -> & ->).
  - rewrite (passes_spent _ Hc). eexists. split; [reflexivity|]. split; [reflexivity|].
    repeat constructor.
  - destruct (passes_left _ _ Hc) as [-> Hc'].
    destruct (IH (passes - 1)%Q (S n) w Hc') as (l & -> & Hl & Hall).
    eexists. split; [reflexivity|]. split.
    + unfold requests in *. cbn. by rewrite Hl.
    + constructor; [by left|]. constructor; [by right|]. exact Hall.
Qed.

(** A failing attempt ends [waitFor] at once with that failure. *)
Lemma waitFor_exec_fails env expression timeout params r k :
  forall passes n w,
    (forall j, (j < k)%nat -> falsy_answer (answer env (n + j))) ->
    execSync_outcome (answer env (n + k)) = Rejected r ->
    (k <= Z.to_nat (Qceiling passes))%nat ->
    exists l,
      play env (waitFor_exec JSON_stringify expression timeout params passes) n w =
        (l, Rejected r) /\
      requests l = S k.
Proof.
  induction k as [|k IH]; intros passes n w Hfalsy Hfail Hk;
    rewrite play_waitFor_exec; cbn zeta.
  - rewrite Nat.add_0_r in Hfail. rewrite Hfail. eexists. by split.
  - destruct (Hfalsy O ltac:(lia)) as (v & Hv & Ht). rewrite Nat.add_0_r in Hv.
    rewrite Hv, Ht.
    destruct (Z.to_nat (Qceiling passes)) as [|c] eqn:Hc; [lia|].
    destruct (passes_left _ _ Hc) as [-> Hc'].
    destruct (IH (passes - 1)%Q (S n) w) as (l & -> & Hl).
    + intros j Hj. replace (S n + j)%nat with (n + S j)%nat by lia. apply Hfalsy. lia.
    + by replace (S n + k)%nat with (n + S k)%nat by lia.
    + lia.
    + eexists. split; [reflexivity|]. unfold requests in *. cbn. by rewrite Hl.
Qed.

End HelperFacts.

Lemma attempts_bounds timeout :
  0 <= timeout ->
  timeout + 10 <= 10 * Z.of_nat (attempts timeout) < timeout + 20.
Proof.
  intros Ht. unfold attempts.
  pose proof (Qle_ceiling (inject_Z timeout / 10)) as Ha.
  pose proof (Qceiling_lt (inject_Z timeout / 10)) as Hb.
  set (c := Qceiling (inject_Z timeout / 10)) in *. clearbody c.
  assert (E : (inject_Z timeout == 10 * (inject_Z timeout / 10))%Q) by field.
  set (y := (inject_Z timeout / 10)%Q) in *. clearbody y.
  unfold Z.sub in Hb. rewrite inject_Z_plus, inject_Z_opp in Hb.
  change (inject_Z 1) with 1%Q in Hb.
  assert (H1 : (inject_Z timeout <= inject_Z (10 * c))%Q).
  { rewrite inject_Z_mult. change (inject_Z 10) with 10%Q. lra. }
  assert (H2 : (inject_Z (10 * c) < inject_Z (timeout + 10))%Q).
  { rewrite inject_Z_mult, inject_Z_plus. change (inject_Z 10) with 10%Q. lra. }
  rewrite <- Zle_Qle in H1. rewrite <- Zlt_Qlt in H2. lia.
Qed.

Example attempts_100 : attempts 100 = 11%nat.
Proof. reflexivity. Qed.

(** ** Facts about the Browser registry *)

Lemma get_eq target b :
  get target b =
  match _sockets b !! t_id target with
  | Some page => (page, b)
  | None =>
      (length (heap b),
       mkBrowser (<[t_id target := length (heap b)]> (_sockets b)) (_defaultPage b)
         (heap b ++ [new_Page target]))
  end.
Proof.
  unfold get. destruct (_sockets b !! t_id target) as [page|] eqn:H; cbn; [|reflexivity].
  rewrite insert_id by done. by destruct b.
Qed.

Lemma inv_new : browser_inv new_Browser.
Proof.
  constructor; cbn.
  - intros id page H. by rewrite lookup_empty in H.
  - intros id1 id2 page H. by rewrite lookup_empty in H.
  - intros page st H. by rewrite lookup_nil in H.
Qed.

Lemma inv_get target b :
  browser_inv b -> browser_inv (snd (get target b)).
Proof.
  intros Hinv. rewrite get_eq.
  destruct (_sockets b !! t_id target) as [page|] eqn:Hc; [done|]. cbn.
  destruct Hinv as [Hheap Hinj Hwf]. constructor; cbn.
  - intros id page Hp. destruct (decide (id = t_id target)) as [->|Hne].
    + rewrite lookup_insert_eq in Hp. injection Hp as <-.
      exists (new_Page target). split; [|reflexivity].
      rewrite lookup_app_r by lia. by rewrite Nat.sub_diag.
    + rewrite lookup_insert_ne in Hp by done.
      destruct (Hheap _ _ Hp) as (st & Hst & Hid). exists st. split; [|done].
      rewrite lookup_app_l; [done|]. by eapply lookup_lt_Some.
  - intros id1 id2 page H1 H2.
    assert (Hfresh : forall id, _sockets b !! id = Some (length (heap b)) -> False).
    { intros id H. destruct (Hheap _ _ H) as (st & Hst & _).
      apply lookup_lt_Some in Hst. lia. }
    destruct (decide (id1 = t_id target)) as [->|Hne1];
      destruct (decide (id2 = t_id target)) as [->|Hne2]; try done.
    + rewrite lookup_insert_eq in H1. rewrite lookup_insert_ne in H2 by done.
      injection H1 as <-. by destruct (Hfresh _ H2).
    + rewrite lookup_insert_eq in H2. rewrite lookup_insert_ne in H1 by done.
      injection H2 as <-. by destruct (Hfresh _ H1).
    + rewrite lookup_insert_ne in H1, H2 by done. eauto.
  - intros page st Hp. apply lookup_app_Some in Hp as [Hp|[_ Hp]]; [eauto|].
    apply list_lookup_singleton_Some in Hp as [_ <-]. apply wf_new_Page.
Qed.

Lemma inv_update b page st st' :
  browser_inv b -> heap b !! page = Some st -> wf st' -> _id st' = _id st ->
  forall dp, browser_inv (mkBrowser (_sockets b) dp (<[page := st']> (heap b))).
Proof.
  intros [Hheap Hinj Hwf] Hst Hwf' Hid dp. constructor; cbn; [|done|].
  - intros id q Hq. destruct (Hheap _ _ Hq) as (stq & Hstq & Hidq).
    destruct (decide (q = page)) as [->|Hne].
    + exists st'. split; [|congruence].
      apply list_lookup_insert_eq. by eapply lookup_lt_Some.
    + exists stq. split; [|done]. by rewrite list_lookup_insert_ne.
  - intros q stq Hq. destruct (decide (q = page)) as [->|Hne].
    + rewrite list_lookup_insert_eq in Hq by (by eapply lookup_lt_Some). by injection Hq as <-.
    + rewrite list_lookup_insert_ne in Hq by done. eauto.
Qed.

Lemma inv_initialize pages b b' :
  browser_inv b -> _initialize pages b = Some b' -> browser_inv b'.
Proof.
  intros Hinv. unfold _initialize. destruct (default_target pages) as [target|]; [|done].
  pose proof (inv_get target b Hinv) as Hinv1.
  destruct (get target b) as [page b1]. cbn in Hinv1.
  unfold on_page. cbn. destruct (heap b1 !! page) as [st|] eqn:Hst; [|done].
  rewrite send_eq. cbn. intros [= <-].
  apply (inv_update b1 page st); try done.
  eapply wf_send; [by eapply inv_wf|].
  exact (send_eq "Target.setDiscoverTargets" (J (JObj [("discover"%string, JBool true)])) st).
Qed.

Lemma inv_step e b b' : browser_inv b -> browser_step e b = Some b' -> browser_inv b'.
Proof.
  intros Hinv. destruct e as [target|pages|page e]; cbn.
  - intros [= <-]. by apply inv_get.
  - by apply inv_initialize.
  - destruct (heap b !! page) as [st|] eqn:Hst; [|done].
    destruct (step e st) as [st'|] eqn:He; [|done]. intros [= <-].
    pose proof (inv_wf _ Hinv _ _ Hst) as Hwf.
    apply (inv_update b page st); try done; [by eapply wf_step|by eapply step_id].
Qed.

Lemma inv_run tr : forall b b', browser_inv b -> browser_run tr b = Some b' -> browser_inv b'.
Proof.
  induction tr as [|e tr IH]; cbn; intros b b' Hinv H; [congruence|].
  destruct (browser_step e b) as [b1|] eqn:He; [|done].
  eapply IH; [|exact H]. by eapply inv_step.
Qed.

(** An entry of the registry is never replaced or removed. *)
Lemma cached_get target b id page :
  _sockets b !! id = Some page -> _sockets (snd (get target b)) !! id = Some page.
Proof.
  intros H. rewrite get_eq. destruct (_sockets b !! t_id target) eqn:Hc; [done|]. cbn.
  rewrite lookup_insert_ne; [done|]. congruence.
Qed.

Lemma cached_step e b b' id page :
  _sockets b !! id = Some page -> browser_step e b = Some b' ->
  _sockets b' !! id = Some page.
Proof.
  intros H. destruct e as [target|pages|q e]; cbn.
  - intros [= <-]. by apply cached_get.
  - unfold _initialize. destruct (default_target pages) as [target|]; [|done].
    pose proof (cached_get target b id page H) as H1.
    destruct (get target b) as [q b1]. cbn in H1. unfold on_page. cbn.
    destruct (heap b1 !! q); [|done]. rewrite send_eq. cbn. by intros [= <-].
  - destruct (heap b !! q); [|done]. destruct (step e _); [|done]. by intros [= <-].
Qed.

Lemma cached_run tr : forall b b' id page,
  _sockets b !! id = Some page -> browser_run tr b = Some b' ->
  _sockets b' !! id = Some page.
Proof.
  induction tr as [|e tr IH]; cbn; intros b b' id page H Hrun; [congruence|].
  destruct (browser_step e b) as [b1|] eqn:He; [|done].
  eapply IH; [|exact Hrun]. by eapply cached_step.
Qed.

Lemma get_cached target b :
  _sockets (snd (get target b)) !! t_id target = Some (fst (get target b)).
Proof.
  rewrite get_eq. destruct (_sockets b !! t_id target) eqn:Hc; cbn; [done|].
  by rewrite lookup_insert_eq.
Qed.

(** *** The default page *)




(** * The properties *)

(** ** Requests and their responses *)

(** C1. Take any history of a Page, and a [send] whose executor is the next
    to continue on the open socket; it takes the number [_packetCounter + 1],
    stores its promise under it and sends a request with that [id]. Whatever
    comes afterwards, in whatever order (other sends, listeners, events,
    responses to other requests), the promise the call returned is pending
    until the first frame that answers that number, and from then on is
    resolved with that frame's [result], or rejected with its [error]. *)
Theorem send_correlation pageObject pre post st1 st2 s rest :
  run pre (new_Page pageObject) = Some st1 ->
  connecting st1 = s :: rest ->
  readyState st1 = 1 ->
  run (Resume :: post) st1 = Some st2 ->
  promises st2 !! s_promise s = Some (verdict (_packetCounter st1 + 1) post) /\
  exists st, step Resume st1 = Some st /\
    _packetCallbacks st !! (_packetCounter st1 + 1) = Some (s_promise s) /\
    sent st = sent st1 ++
      [JObj [("id"%string, JNum (_packetCounter st1 + 1) 0);
             ("method"%string, JStr (s_method s));
             ("params"%string, s_params s)]].
Proof.
  intros Hpre Hc Hopen Hrun.
  assert (Hwf : wf st1) by (eapply wf_run; [apply wf_new_Page|exact Hpre]).
  cbn [run] in Hrun. destruct (step Resume st1) as [st|] eqn:Hstep; [|done].
  assert (Hwf' : wf st) by (eapply wf_step; eauto).
  cbn [step] in Hstep. rewrite send_resume_eq, Hc, Hopen in Hstep. cbn in Hstep.
  injection Hstep as <-.
  split.
  - eapply verdict_run; [exact Hwf'| |exact Hrun]. cbn. apply lookup_insert_eq.
  - eexists. split; [reflexivity|]. cbn. split; [apply lookup_insert_eq|reflexivity].
Qed.

Lemma send_correlation_witness :
  promises (state_after (history_open ++ Resume :: history_rounded))
    !! s_promise suspended_enable = Some (Settled (Resolved (J (JStr "x")))) /\
  promises (state_after (history_open ++ Resume :: history_answers))
    !! s_promise suspended_enable =
    Some (Settled (Rejected (Value (J (JObj [("code"%string, JNum (-1) 0);
                                            ("message"%string, JStr "bad")]))))) /\
  exists st, step Resume (state_after history_open) = Some st /\
    _packetCallbacks st !! (_packetCounter (state_after history_open) + 1) =
      Some (s_promise suspended_enable) /\
    sent st = sent (state_after history_open) ++
      [JObj [("id"%string, JNum (_packetCounter (state_after history_open) + 1) 0);
             ("method"%string, JStr (s_method suspended_enable));
             ("params"%string, s_params suspended_enable)]].
Proof.
  destruct (send_correlation page_A history_open history_rounded
              (state_after history_open)
              (state_after (history_open ++ Resume :: history_rounded))
              suspended_enable [suspended_page]) as [Hr _].
  - vm_compute. reflexivity.
  - vm_compute. reflexivity.
  - vm_compute. reflexivity.
  - vm_compute. reflexivity.
  - destruct (send_correlation page_A history_open history_answers
                (state_after history_open)
                (state_after (history_open ++ Resume :: history_answers))
                suspended_enable [suspended_page]) as [Hp Hst].
    + vm_compute. reflexivity.
    + vm_compute. reflexivity.
    + vm_compute. reflexivity.
    + vm_compute. reflexivity.
    + split; [rewrite Hr; vm_compute; reflexivity|].
      split; [|exact Hst]. rewrite Hp. vm_compute. reflexivity.
Defined.

(** An [id] written with more digits than a double holds is the number it
    rounds to: the frame [{id: 1.0000000000000000001, result: 'x'}] answers
    request 1, and a later frame for 1 finds no request. *)
Example rounded_id_answers :
  JSON.parse frame_rounded_id = Some (JObj rounded_id_members) /\
  verdict 1 history_rounded = Settled (Resolved (J (JStr "x"))) /\
  promises (state_after (history_two_pending ++ history_rounded)) =
    [Settled (Resolved (J (JStr "x"))); Pending].
Proof. repeat split; vm_compute; reflexivity. Qed.

(** The two requests of the constructor, answered in the opposite order. *)
Example correlation_out_of_order :
  promises (state_after (history_open ++ Resume :: history_answers)) =
    [Settled (Rejected (Value (J (JObj [("code"%string, JNum (-1) 0);
                                        ("message"%string, JStr "bad")]))));
     Settled (Resolved (J (JObj [("frameId"%string, JStr "F")])))].
Proof. vm_compute. reflexivity. Qed.

(** ** Events *)

(** Two [wait('Page.loadEventFired')] are pending when the event arrives:
    both are served by the one frame. *)
Lemma two_waiters_both_served :
  let st := state_after history_two_waiters in
  let params := J (JObj [("timestamp"%string, JNum 1 0)]) in
  run history_two_waiters (new_Page page_A) = Some st /\
  listeners "Page.loadEventFired" st =
    [mkReg 1 "Page.loadEventFired" (Once 2); mkReg 2 "Page.loadEventFired" (Once 3)] /\
  promises st !! 2%nat = Some Pending /\ promises st !! 3%nat = Some Pending /\
  exists st', _onMessage frame_load st = Returns tt st' /\
    promises st' !! 2%nat = Some (Settled (Resolved params)) /\
    promises st' !! 3%nat = Some (Settled (Resolved params)) /\
    delivered st' = [(1%nat, params); (2%nat, params)].
Proof.
  cbv zeta. split; [vm_compute; reflexivity|]. split; [vm_compute; reflexivity|].
  split; [vm_compute; reflexivity|]. split; [vm_compute; reflexivity|].
  eexists. split; [vm_compute; reflexivity|]. repeat split.
Qed.

(** An event name written with escapes is the name: the listener registered
    under the character U+1F600 is called for a frame that spells it as two
    escaped surrogates. *)
Example escaped_name_is_the_name :
  JSON.parse frame_escaped = Some (JObj escaped_members) /\
  listeners grinning (state_after history_grinning) =
    [mkReg 1 grinning (Callback 7 (fun _ => false))] /\
  delivered (state_after (history_grinning ++ [Socket_message frame_escaped])) =
    [(1%nat, undefined)].
Proof. repeat split; vm_compute; reflexivity. Qed.

(** C2, as the code has it. A frame that names the event [name] and answers no pending
    request is handled by calling listeners registered for [name] only, in
    the order of their registration, each with the frame's [params]. When
    none of them throws, every durable listener for [name] and every pending
    one-shot waiter for [name] is called exactly once; each of these waiters
    has its promise resolved with [params] and is gone from the emitter,
    which otherwise keeps all its registrations. *)
Theorem event_dispatch st text ms name :
  reachable st ->
  JSON.parse text = Some (JObj ms) ->
  callbacks_get (member_val "id" ms) st = None ->
  JS.member "method" ms = Some (JStr name) ->
  exists st',
    state_of (_onMessage text st) = Some st' /\
    (exists called, called `prefix_of` listeners name st /\
       delivered st' =
         delivered st ++ map (fun r => (reg_id r, member_val "params" ms)) called) /\
    ((forall r, r ∈ listeners name st ->
        listener_throws (reg_listener r) (member_val "params" ms) = false) ->
     delivered st' =
       delivered st ++
         map (fun r => (reg_id r, member_val "params" ms)) (listeners name st) /\
     (forall r p, r ∈ listeners name st -> reg_listener r = Once p ->
        promises st' !! p = Some (Settled (Resolved (member_val "params" ms)))) /\
     (forall r, r ∈ _eventEmitter st' <->
        r ∈ _eventEmitter st /\ ~ (reg_event r = name /\ is_once r = true))).
Proof.
  intros Hreach Hparse Hcb Hmethod.
  pose proof (reachable_wf _ Hreach) as Hwf.
  rewrite onMessage_eq, Hparse, Hcb, Hmethod.
  set (params := member_val "params" ms).
  destruct (emit_frame name params st Hwf) as (st' & Hst' & _ & _ & _ & Hcalled).
  exists st'. split; [|split; [exact Hcalled|]].
  { destruct (emit name params st); cbn in *; congruence. }
  intros Hok.
  destruct (invoke_all_returns (listeners name st) params st Hwf) as
    (st2 & Hret & Hd & Hp & He).
  { intros r Hr. by apply listeners_in in Hr as [_ ?]. }
  { by apply listeners_NoDup. }
  { exact Hok. }
  assert (st2 = st') as ->.
  { rewrite emit_eq in Hst'. destruct (listeners name st) as [|r ls] eqn:Hls.
    - cbn in Hret. injection Hret as <-.
      destruct (decide (name = "error"%string)); cbn in Hst'; congruence.
    - rewrite Hret in Hst'. cbn in Hst'. congruence. }
  split; [exact Hd|]. split; [exact Hp|].
  intros r. rewrite He. split; intros [Hr Hn]; (split; [done|]); intros [H1 H2]; apply Hn.
  - split; [|done]. apply listeners_in. by split.
  - split; [|done]. by apply listeners_in in H1 as [? _].
Qed.

Lemma event_dispatch_witness :
  (exists st',
     state_of (_onMessage frame_load (state_after history_listeners)) = Some st' /\
     delivered st' =
       [(1%nat, J (JObj [("timestamp"%string, JNum 1 0)]));
        (2%nat, J (JObj [("timestamp"%string, JNum 1 0)]))]) /\
  (exists st',
     state_of (_onMessage frame_escaped (state_after history_grinning)) = Some st' /\
     delivered st' = [(1%nat, undefined)]).
Proof.
  split.
  - destruct (event_dispatch (state_after history_listeners) frame_load load_members
                "Page.loadEventFired") as (st' & Hst' & _ & Hall).
    + exists page_A, history_listeners. vm_compute. reflexivity.
    + vm_compute. reflexivity.
    + vm_compute. reflexivity.
    + vm_compute. reflexivity.
    + exists st'. split; [exact Hst'|].
      destruct Hall as (Hd & _).
      * intros r Hr. vm_compute in Hr.
        apply elem_of_cons in Hr as [->|Hr]; [reflexivity|].
        apply list_elem_of_singleton in Hr. subst r. reflexivity.
      * rewrite Hd. vm_compute. reflexivity.
  - destruct (event_dispatch (state_after history_grinning) frame_escaped escaped_members
                grinning) as (st' & Hst' & _ & Hall).
    + exists page_A, history_grinning. vm_compute. reflexivity.
    + vm_compute. reflexivity.
    + vm_compute. reflexivity.
    + vm_compute. reflexivity.
    + exists st'. split; [exact Hst'|].
      destruct Hall as (Hd & _).
      * intros r Hr. vm_compute in Hr.
        apply list_elem_of_singleton in Hr. subst r. reflexivity.
      * rewrite Hd. vm_compute. reflexivity.
Defined.

(** ** The receive path *)

(** A text that is not JSON makes [JSON.parse] throw out of [_onMessage]. *)
Lemma unparseable_frame_throws :
  JSON.parse "not json" = None /\
  _onMessage "not json" (new_Page page_A) = Throws SyntaxError (new_Page page_A).
Proof. split; vm_compute; reflexivity. Qed.

(** C3, as the code has it. On a text that parses as a JSON object or array,
    [_onMessage] returns normally, provided that the [error] member of a
    frame answering a pending request is not [null], and that the event a
    frame names is a string whose listeners do not throw on its parameters
    (and has a listener when it is ['error']). A frame with neither a pending
    [id] nor a [method] is reported with [console.warn] and changes nothing
    else. *)
Theorem receive_path_returns st text j :
  reachable st ->
  JSON.parse text = Some j ->
  quiet st j ->
  (exists st', _onMessage text st = Returns tt st') /\
  (forall ms, j = JObj ms ->
     callbacks_get (member_val "id" ms) st = None -> JS.member "method" ms = None ->
     _onMessage text st = Returns tt (set_console (console st ++ [console_warn j]) st)).
Proof.
  intros Hreach Hparse Hq. pose proof (reachable_wf _ Hreach) as Hwf.
  rewrite onMessage_eq, Hparse. split.
  - destruct j as [|b|m e|sn|s|l|ms]; cbn in Hq; try done; [by eexists|].
    destruct (callbacks_get (member_val "id" ms) st) as [p|].
    + destruct (JS.member "error" ms) as [[|b|m e|sn|s|l|ms']|]; try done; by eexists.
    + destruct (JS.member "method" ms) as [[|b|m e|sn|name|l|ms']|]; try done; [|by eexists].
      destruct Hq as [Hok Herr].
      destruct (invoke_all_returns (listeners name st) (member_val "params" ms) st Hwf)
        as (st' & Hret & _).
      { intros r Hr. by apply listeners_in in Hr as [_ ?]. }
      { by apply listeners_NoDup. }
      { exact Hok. }
      rewrite emit_eq. destruct (listeners name st) as [|r ls] eqn:Hls.
      * destruct (decide (name = "error"%string)) as [He|He]; [by destruct (Herr He)|].
        by eexists.
      * rewrite Hret. by eexists.
  - intros ms -> Hcb Hm. by rewrite Hcb, Hm.
Qed.

Lemma receive_path_returns_witness :
  _onMessage frame_unknown (new_Page page_A) =
  Returns tt
    (set_console
       (console (new_Page page_A) ++ [console_warn (JObj unknown_members)])
       (new_Page page_A)).
Proof.
  apply (proj2 (receive_path_returns (new_Page page_A) frame_unknown
                  (JObj unknown_members)
                  (ex_intro _ page_A (ex_intro _ [] eq_refl))
                  ltac:(vm_compute; reflexivity)
                  ltac:(vm_compute; exact I))
           unknown_members eq_refl).
  - vm_compute. reflexivity.
  - vm_compute. reflexivity.
Defined.

(** C9. A frame whose [id] is the number of no pending request (it is no
    number, or a number under which [_packetCallbacks] has no entry) leaves
    the map of pending requests as it is, and every pending request
    pending. *)
Theorem unknown_id_leaves_requests st text ms id st' :
  reachable st ->
  JSON.parse text = Some (JObj ms) ->
  JS.member "id" ms = Some id ->
  (forall i, is_integer id i = true -> _packetCallbacks st !! i = None) ->
  state_of (_onMessage text st) = Some st' ->
  _packetCallbacks st' = _packetCallbacks st /\
  forall i p, _packetCallbacks st !! i = Some p ->
    promises st !! p = Some Pending /\ promises st' !! p = Some Pending.
Proof.
  intros Hreach Hparse Hid Hno. pose proof (reachable_wf _ Hreach) as Hwf.
  assert (Hcb : callbacks_get (J id) st = None).
  { unfold callbacks_get. destruct (key_of (J id)) as [i|] eqn:Hk; [|done].
    apply Hno. by apply key_of_is_integer. }
  assert (Hmv : member_val "id" ms = J id) by (unfold member_val; by rewrite Hid).
  assert (Hpend : forall i p, _packetCallbacks st !! i = Some p -> promises st !! p = Some Pending).
  { intros i p Hi. apply (wf_pending _ Hwf). left. by exists i. }
  rewrite onMessage_eq, Hparse, Hmv, Hcb.
  destruct (JS.member "method" ms) as [[|b|m e|sn|name|l|ms']|]; cbn; try done.
  - destruct (emit_frame name (member_val "params" ms) st Hwf) as
      (st1 & Hst1 & _ & Hsame & Hkeep & _).
    intros Hst'. assert (st1 = st') as ->.
    { destruct (emit name (member_val "params" ms) st); cbn in *; congruence. }
    split; [by apply same_callbacks|].
    intros i p Hi. split; [by eapply Hpend|]. rewrite Hkeep; [by eapply Hpend|].
    apply (wf_request_waiter _ Hwf). by exists i.
  - intros [= <-]. split; [done|]. intros i p Hi. split; by eapply Hpend.
Qed.

(** The frame [{id: 7, error: {code: -1, message: 'bad'}}] while requests 1
    and 2 are pending. *)
Lemma unknown_id_leaves_requests_witness :
  _packetCallbacks
    (set_console
       (console (state_after history_two_pending) ++ [console_warn (JObj stale_members)])
       (state_after history_two_pending)) =
  _packetCallbacks (state_after history_two_pending).
Proof.
  apply (unknown_id_leaves_requests (state_after history_two_pending) frame_stale
           stale_members (JNum 7 0)).
  - exists page_A, history_two_pending. vm_compute. reflexivity.
  - vm_compute. reflexivity.
  - vm_compute. reflexivity.
  - intros i Hi. apply Z.eqb_eq in Hi. subst i. vm_compute. reflexivity.
  - vm_compute. reflexivity.
Defined.



(** ** Script execution *)

(** [exec] resolves with the object that answers [Runtime.evaluate], which
    holds the value of the script in [result.value]; it is [execSync] that
    takes the value out. *)
Lemma exec_resolves_with_response_object :
  snd (play browser_answers_two (exec "1+1" undefined) 0 0) = Resolved two /\
  evaluated_value two = Some (J (JNum 2 0)) /\
  snd (play browser_answers_two (exec "1+1" undefined) 0 0) <> Resolved (J (JNum 2 0)).
Proof.
  split; [vm_compute; reflexivity|]. split; [vm_compute; reflexivity|].
  vm_compute. discriminate.
Qed.

(** C4, as the code has it. [exec] sends one [Runtime.evaluate] request whose
    parameters carry the script and [returnByValue = true]. When the response
    carries [exceptionDetails] (any truthy value, such as an object), the
    call is rejected with exactly that value and is not resolved; when it
    carries none, the call is resolved with the whole result object of the
    response; a rejected request rejects the call with the same reason. *)
Theorem exec_settles script options env n w :
  options <> J JNull ->
  exists awaitPromise,
    fst (play env (exec script options) n w) =
      [Request "Runtime.evaluate" (evaluate_request script awaitPromise)] /\
    JS.get (evaluate_request script awaitPromise) "returnByValue" = Ok (J (JBool true)) /\
    JS.get (evaluate_request script awaitPromise) "expression" = Ok (J (JStr script)) /\
    (forall result details,
       answer env n = Resolved result ->
       JS.get result "exceptionDetails" = Ok details -> JS.truthy details = true ->
       snd (play env (exec script options) n w) = Rejected (Value details)) /\
    (forall result details,
       answer env n = Resolved result ->
       JS.get result "exceptionDetails" = Ok details -> JS.truthy details = false ->
       snd (play env (exec script options) n w) = Resolved result) /\
    (forall r,
       answer env n = Rejected r ->
       snd (play env (exec script options) n w) = Rejected r).
Proof.
  intros Hopt.
  assert (Hget : exists promise,
    JS.get (match options with undefined => J (JObj []) | v => v end) "promise" = Ok promise).
  { destruct options as [|[|b|m e|sn|s|l|ms]];
      [by eexists|by destruct Hopt|by eexists|by eexists|by eexists|by eexists|by eexists|].
    cbn. destruct (JS.member "promise" ms); by eexists. }
  destruct Hget as [promise Hget].
  exists (is_true promise). unfold exec. rewrite Hget. cbn.
  destruct (play env _ (S n) w) as [l o] eqn:Hplay. cbn.
  assert (Hl : l = []).
  { revert Hplay. unfold then_, or_reject.
    destruct (answer env n) as [result|r]; [|by intros [= <- _]].
    destruct (JS.get result "exceptionDetails") as [details|e]; [|by intros [= <- _]].
    destruct (JS.truthy details); by intros [= <- _]. }
  subst l. split; [reflexivity|]. split; [reflexivity|]. split; [reflexivity|].
  split; [|split].
  - intros result details Ha Hd Ht. rewrite Ha in Hplay. cbn in Hplay.
    rewrite Hd in Hplay. cbn in Hplay. rewrite Ht in Hplay. by injection Hplay as <-.
  - intros result details Ha Hd Ht. rewrite Ha in Hplay. cbn in Hplay.
    rewrite Hd in Hplay. cbn in Hplay. rewrite Ht in Hplay. by injection Hplay as <-.
  - intros r Ha. rewrite Ha in Hplay. cbn in Hplay. by injection Hplay as <-.
Qed.

Lemma exec_settles_witness :
  exists awaitPromise,
    fst (play browser_answers_two (exec "1+1" undefined) 0 0) =
      [Request "Runtime.evaluate" (evaluate_request "1+1" awaitPromise)].
Proof.
  destruct (exec_settles "1+1" undefined browser_answers_two 0 0) as (a & H & _).
  - discriminate.
  - exists a. exact H.
Defined.

(** C5. With answers that always make the expression falsy, [waitFor] with
    budget [timeout] evaluates the expression [attempts timeout] times, one
    [Runtime.evaluate] request each, 10 ms apart, and is then rejected with
    the string ['Timeout of ' + timeout + 'ms exceeded']; that number is the
    least integer not below
    [timeout / 10], plus one (11 for a budget of 100). An attempt that fails
    within the budget rejects the call with that failure, after no further
    request. *)
Theorem waitFor_gives_up (JSON_stringify : list val -> string)
    expression timeout params n w :
  let budget := match timeout with None => 10000 | Some t => t end in
  (forall env,
     (forall k, falsy_answer (answer env k)) ->
     exists l,
       play env (waitFor JSON_stringify expression timeout params) n w =
         (l, Rejected (Value (J (JStr ("Timeout of " +:+ pretty budget +:+
                                        "ms exceeded"))))) /\
       requests l = attempts budget /\
       Forall (fun a => a = evaluation JSON_stringify expression params \/ a = Timer 10) l) /\
  (0 <= budget -> budget + 10 <= 10 * Z.of_nat (attempts budget) < budget + 20) /\
  (forall env k r,
     (k < attempts budget)%nat ->
     (forall j, (j < k)%nat -> falsy_answer (answer env (n + j))) ->
     execSync_outcome (answer env (n + k)) = Rejected r ->
     exists l,
       play env (waitFor JSON_stringify expression timeout params) n w = (l, Rejected r) /\
       requests l = S k).
Proof.
  cbv zeta. unfold waitFor, attempts. split; [|split].
  - intros env Hfalsy. by apply waitFor_exec_gives_up.
  - apply attempts_bounds.
  - intros env k r Hk Hfalsy Hfail. apply waitFor_exec_fails; [done|done|lia].
Qed.

Lemma waitFor_gives_up_witness :
  exists l,
    play always_false (waitFor (fun _ => "[]"%string) "() => false" (Some 100) []) 0 0 =
      (l, Rejected (Value (J (JStr "Timeout of 100ms exceeded")))) /\
    requests l = 11%nat.
Proof.
  destruct (proj1 (waitFor_gives_up (fun _ => "[]"%string) "() => false" (Some 100) [] 0 0)
              always_false) as (l & Hl & Hn & _).
  - intros k. exists (J (JBool false)). split; reflexivity.
  - exists l. split; [exact Hl|exact Hn].
Defined.

(** ** Navigation *)

(** C6: what the code does. [navigate] reads [this._page], which no Page
    has; whatever the url and the flag, the call is rejected with a
    [TypeError] and no request is sent, no event awaited. *)
Theorem navigate_rejects url waitForLoad env n w :
  play env (navigate url waitForLoad) n w = ([], Rejected (Exception TypeError)).
Proof.
  unfold navigate.
  assert (H : this__page = None) by (vm_compute; reflexivity).
  rewrite H. reflexivity.
Qed.

(** [post], next to it, waits for the load event on the page itself. *)
Example post_waits_for_load (JSON_stringify : list val -> string) form url data :
  exists request,
    fst (play browser_answers_two (post JSON_stringify form url data) 0 0) =
      [request; Await_event "Page.loadEventFired"].
Proof. eexists. vm_compute. reflexivity. Qed.

(** ** The registry of pages *)

(** C7. After [get] has returned a Page for a descriptor, and whatever
    happens to the Browser in between, [get] with a descriptor of the same id
    returns the same Page object and changes nothing, and [get] with a
    descriptor of another id returns another Page object. *)
Theorem get_same_instance pre mid b0 b2 target1 target2 :
  browser_run pre new_Browser = Some b0 ->
  browser_run mid (snd (get target1 b0)) = Some b2 ->
  (t_id target1 = t_id target2 ->
     fst (get target2 b2) = fst (get target1 b0) /\ snd (get target2 b2) = b2) /\
  (t_id target1 <> t_id target2 ->
     fst (get target2 b2) <> fst (get target1 b0)).
Proof.
  intros Hpre Hmid.
  assert (Hinv2 : browser_inv b2).
  { eapply inv_run; [|exact Hmid]. apply inv_get. eapply inv_run; [apply inv_new|exact Hpre]. }
  pose proof (cached_run _ _ _ _ _ (get_cached target1 b0) Hmid) as Hc.
  split.
  - intros Heq. rewrite (get_eq target2 b2), <- Heq, Hc. by split.
  - intros Hne Heq. rewrite (get_eq target2 b2) in Heq.
    destruct (_sockets b2 !! t_id target2) as [page|] eqn:Hc2; cbn in Heq.
    + subst page. apply Hne. by eapply (inv_inj _ Hinv2).
    + destruct (inv_heap _ Hinv2 _ _ Hc) as (st & Hst & _).
      apply lookup_lt_Some in Hst. lia.
Qed.

Lemma get_same_instance_witness :
  (fst (get page_A registry_AB) = fst (get page_A new_Browser) /\
   snd (get page_A registry_AB) = registry_AB) /\
  fst (get page_B registry_AB) <> fst (get page_A new_Browser).
Proof.
  split.
  - apply (proj1 (get_same_instance [] [B_get page_B] new_Browser registry_AB page_A page_A
                    eq_refl ltac:(vm_compute; reflexivity))).
    reflexivity.
  - apply (proj2 (get_same_instance [] [B_get page_B] new_Browser registry_AB page_A page_B
                    eq_refl ltac:(vm_compute; reflexivity))).
    vm_compute. discriminate.
Defined.



(** The descriptor with the blank-page url is chosen wherever it stands in
    the list; without one, the first descriptor is. *)
Example default_is_A :
  default_target [page_A; page_B] = Some page_A /\
  default_target [page_B; page_A] = Some page_A /\
  default_target [page_B; page_C] = Some page_B.
Proof. repeat split; vm_compute; reflexivity. Qed.

(** * Further properties of the Page and of the Browser *)

(** ** Requests in call order *)

Lemma numbered_snoc cs : forall i c,
  numbered i (cs ++ [c]) = numbered i cs ++ [request_object (i + Z.of_nat (length cs)) c].
Proof.
  induction cs as [|a cs IH]; intros i c; cbn [numbered app length].
  - by rewrite Z.add_0_r.
  - rewrite IH. replace (i + 1 + Z.of_nat (length cs)) with (i + Z.of_nat (S (length cs)))
      by lia. reflexivity.
Qed.

(** What the receive path leaves alone, whatever the frame. *)
Lemma onMessage_connection text st st' :
  wf st -> state_of (_onMessage text st) = Some st' ->
  _packetCounter st' = _packetCounter st /\ sent st' = sent st /\
  connecting st' = connecting st /\ readyState st' = readyState st /\
  next_reg st' = next_reg st.
Proof.
  intros Hwf. rewrite onMessage_eq.
  destruct (JSON.parse text) as [[|b|m e|sn|s|l|ms]|]; cbn; try (by intros [= <-]).
  destruct (callbacks_get (member_val "id" ms) st) as [p|].
  - destruct (JS.member "error" ms) as [err|].
    + destruct err; cbn; intros [= <-]; try done; unfold delete_st, settle_st; cbn;
        destruct (key_of _); destruct (_ !! p) as [[|]|]; done.
    + cbn. intros [= <-]. unfold delete_st, settle_st.
      destruct (key_of _); destruct (_ !! p) as [[|]|]; done.
  - destruct (JS.member "method" ms) as [[|b|m e|sn|name|l|ms']|]; cbn; try discriminate.
    + destruct (emit_frame name (member_val "params" ms) st Hwf) as
        (st1 & Hst1 & _ & Hsame & _).
      destruct (emit name (member_val "params" ms) st); cbn in *; try discriminate;
        injection Hst1 as ->; intros [= <-]; destruct Hsame; by repeat split.
    + by intros [= <-].
Qed.

Lemma in_call_order_step e st st' calls :
  wf st -> in_call_order calls st -> step e st = Some st' ->
  in_call_order (calls ++ calls_of [e]) st'.
Proof.
  intros Hwf (done & Hsent & Hcount & Hcalls).
  destruct e as [method params|method f throws|method| | |text]; cbn [step calls_of].
  - rewrite send_eq. intros [= <-]. exists done. cbn. split; [done|]. split; [done|].
    rewrite map_app, app_assoc, Hcalls. reflexivity.
  - rewrite listen_eq. destruct (meta_event method); [discriminate|]. intros [= <-].
    exists done. rewrite app_nil_r. by repeat split.
  - rewrite wait_eq. destruct (meta_event method); [discriminate|]. intros [= <-].
    exists done. rewrite app_nil_r. by repeat split.
  - rewrite send_resume_eq, app_nil_r.
    destruct (connecting st) as [|s rest] eqn:Hc; [intros [= <-]; exists done; by rewrite Hc|].
    destruct (readyState st =? 1); [|intros [= <-]; exists done; by rewrite Hc].
    intros [= <-]. exists (done ++ [call_of s]). cbn. split; [|split].
    + rewrite numbered_snoc, Hsent, Hcount.
      replace (1 + Z.of_nat (length done)) with (Z.of_nat (length done) + 1) by lia.
      reflexivity.
    + rewrite Hcount, length_app. cbn. lia.
    + rewrite <- app_assoc. exact Hcalls.
  - intros [= <-]. exists done. rewrite app_nil_r. by repeat split.
  - intros Hst'. destruct (onMessage_connection text st st' Hwf Hst') as (Hc & Hs & Hq & _).
    exists done. rewrite app_nil_r, Hc, Hs, Hq. by repeat split.
Qed.

Lemma calls_of_app tr1 tr2 : calls_of (tr1 ++ tr2) = calls_of tr1 ++ calls_of tr2.
Proof.
  induction tr1 as [|e tr1 IH]; [done|].
  destruct e; cbn; by rewrite ?IH.
Qed.

Lemma in_call_order_run tr : forall st st' calls,
  wf st -> in_call_order calls st -> run tr st = Some st' ->
  in_call_order (calls ++ calls_of tr) st'.
Proof.
  induction tr as [|e tr IH]; intros st st' calls Hwf Hord; cbn [run].
  - intros [= <-]. by rewrite app_nil_r.
  - destruct (step e st) as [st1|] eqn:He; [|discriminate]. intros Hrun.
    change (e :: tr) with ([e] ++ tr). rewrite calls_of_app, app_assoc.
    eapply IH; [by eapply wf_step| |exact Hrun]. by eapply in_call_order_step.
Qed.

Lemma in_call_order_new pageObject : in_call_order constructor_calls (new_Page pageObject).
Proof. exists []. rewrite new_Page_eq. by repeat split. Qed.

(** X1. Whatever the history of a Page built by the constructor, the
    requests that went out on the socket are an initial part of the calls of
    [send] in call order, the two calls of the constructor first, numbered
    1, 2, 3, ... without a gap; the counter is the number of requests sent;
    the calls not yet sent are the suspended ones, in call order. *)
Theorem requests_in_call_order pageObject tr st :
  run tr (new_Page pageObject) = Some st ->
  exists done,
    sent st = numbered 1 done /\
    _packetCounter st = Z.of_nat (length done) /\
    done ++ map call_of (connecting st) = constructor_calls ++ calls_of tr.
Proof.
  intros Hrun.
  exact (in_call_order_run tr _ _ _ (wf_new_Page pageObject)
           (in_call_order_new pageObject) Hrun).
Qed.

Lemma requests_in_call_order_witness :
  exists done,
    sent (state_after history_navigate) = numbered 1 done /\
    _packetCounter (state_after history_navigate) = Z.of_nat (length done) /\
    done ++ map call_of (connecting (state_after history_navigate)) =
      constructor_calls ++ calls_of history_navigate.
Proof.
  apply (requests_in_call_order page_A history_navigate). vm_compute. reflexivity.
Defined.

(** *** Nothing leaves before the socket is open *)

Lemma idle_step e st st' :
  wf st -> idle_while_connecting st -> step e st = Some st' -> idle_while_connecting st'.
Proof.
  intros Hwf Hidle. destruct e as [method params|method f throws|method| | |text]; cbn [step].
  - rewrite send_eq. by intros [= <-].
  - rewrite listen_eq. destruct (meta_event method); [discriminate|]. by intros [= <-].
  - rewrite wait_eq. destruct (meta_event method); [discriminate|]. by intros [= <-].
  - rewrite send_resume_eq. destruct (connecting st) as [|s rest]; [by intros [= <-]|].
    destruct (readyState st =? 1) eqn:Hr; [|by intros [= <-]].
    intros [= <-] H0. cbn in H0. lia.
  - intros [= <-] H0. cbn in H0. discriminate.
  - intros Hst' H0.
    destruct (onMessage_connection text st st' Hwf Hst') as (Hc & Hs & _ & Hr & _).
    rewrite Hr in H0. destruct (Hidle H0) as (Hsent & Hcount & Hcb).
    rewrite Hc, Hs. split; [done|]. split; [done|].
    (* with an empty map the frame answers nothing *)
    revert Hst'. rewrite onMessage_eq.
    destruct (JSON.parse text) as [[|b|m e|sn|s|l|ms]|]; cbn; try (by intros [= <-]).
    assert (Hnone : callbacks_get (member_val "id" ms) st = None).
    { unfold callbacks_get. destruct (key_of _); [|done]. by rewrite Hcb, lookup_empty. }
    rewrite Hnone.
    destruct (JS.member "method" ms) as [[|b|m e|sn|name|l|ms']|]; cbn; try discriminate.
    + destruct (emit_frame name (member_val "params" ms) st Hwf) as
        (st1 & Hst1 & _ & Hsame & _).
      destruct (emit name (member_val "params" ms) st); cbn in *; try discriminate;
        injection Hst1 as ->; intros [= <-]; by rewrite (same_callbacks _ _ Hsame).
    + by intros [= <-].
Qed.

Lemma idle_run tr : forall st st',
  wf st -> idle_while_connecting st -> run tr st = Some st' -> idle_while_connecting st'.
Proof.
  induction tr as [|e tr IH]; intros st st' Hwf Hidle; cbn [run].
  - by intros [= <-].
  - destruct (step e st) as [st1|] eqn:He; [|discriminate].
    eapply IH; [by eapply wf_step|by eapply idle_step].
Qed.

(** X2. As long as the socket has not opened, nothing was sent, no number
    was taken and no request is registered: every call of [send] so far,
    the two of the constructor first, is suspended, in call order. *)
Theorem nothing_sent_while_connecting pageObject tr st :
  run tr (new_Page pageObject) = Some st ->
  readyState st = 0 ->
  sent st = [] /\ _packetCounter st = 0 /\ _packetCallbacks st = ∅ /\
  map call_of (connecting st) = constructor_calls ++ calls_of tr.
Proof.
  intros Hrun H0.
  assert (Hidle : idle_while_connecting (new_Page pageObject)).
  { intros _. by rewrite new_Page_eq. }
  destruct (idle_run tr _ _ (wf_new_Page pageObject) Hidle Hrun H0) as (Hs & Hc & Hcb).
  destruct (in_call_order_run tr _ _ _ (wf_new_Page pageObject)
              (in_call_order_new pageObject) Hrun) as (done & _ & Hcount & Hcalls).
  rewrite Hc in Hcount. destruct done; [|cbn in Hcount; lia].
  by repeat split.
Qed.

Lemma nothing_sent_while_connecting_witness :
  sent (state_after history_early) = [] /\
  _packetCounter (state_after history_early) = 0 /\
  _packetCallbacks (state_after history_early) = ∅ /\
  map call_of (connecting (state_after history_early)) =
    constructor_calls ++ calls_of history_early.
Proof.
  apply (nothing_sent_while_connecting page_A history_early); vm_compute; reflexivity.
Defined.

(** X9. Handling a frame never sends anything: however [_onMessage]
    completes, the requests sent, the counter, the suspended sends and the
    state of the socket are as before (the listeners given to [listen]
    being functions that leave the Page alone). *)
Theorem receive_path_sends_nothing st text st' :
  reachable st ->
  state_of (_onMessage text st) = Some st' ->
  sent st' = sent st /\ _packetCounter st' = _packetCounter st /\
  connecting st' = connecting st /\ readyState st' = readyState st.
Proof.
  intros Hreach Hst'.
  destruct (onMessage_connection text st st' (reachable_wf _ Hreach) Hst')
    as (Hc & Hs & Hq & Hr & _).
  by repeat split.
Qed.

Lemma receive_path_sends_nothing_witness :
  sent (state_after (history_two_pending ++ [Socket_message frame_both])) =
    sent (state_after history_two_pending) /\
  _packetCounter (state_after (history_two_pending ++ [Socket_message frame_both])) =
    _packetCounter (state_after history_two_pending) /\
  connecting (state_after (history_two_pending ++ [Socket_message frame_both])) =
    connecting (state_after history_two_pending) /\
  readyState (state_after (history_two_pending ++ [Socket_message frame_both])) =
    readyState (state_after history_two_pending).
Proof.
  apply (receive_path_sends_nothing (state_after history_two_pending) frame_both).
  - exists page_A, history_two_pending. vm_compute. reflexivity.
  - vm_compute. reflexivity.
Defined.

(** X3. A frame that answers a pending request (its [error] member not
    [null]) touches that request only: the handler returns, the entry of
    that id is removed from [_packetCallbacks], its promise is settled with
    the [error] (rejected) or else the [result] (resolved), every other
    promise is as before, and every other request stays registered and
    pending. *)
Theorem response_touches_one_request st text ms p :
  reachable st ->
  JSON.parse text = Some (JObj ms) ->
  callbacks_get (member_val "id" ms) st = Some p ->
  JS.member "error" ms <> Some JNull ->
  exists i st',
    key_of (member_val "id" ms) = Some i /\ _packetCallbacks st !! i = Some p /\
    _onMessage text st = Returns tt st' /\
    _packetCallbacks st' = delete i (_packetCallbacks st) /\
    promises st' !! p =
      Some (Settled (match JS.member "error" ms with
                     | Some err => Rejected (Value (J err))
                     | None => Resolved (member_val "result" ms)
                     end)) /\
    (forall q, q <> p -> promises st' !! q = promises st !! q) /\
    (forall j q, j <> i -> _packetCallbacks st !! j = Some q ->
       _packetCallbacks st' !! j = Some q /\ promises st' !! q = Some Pending).
Proof.
  intros Hreach Hparse Hcb Herr. pose proof (reachable_wf _ Hreach) as Hwf.
  pose proof Hcb as Hcb'. apply callbacks_get_Some in Hcb' as (i & Hk & Hi).
  assert (Hp : promises st !! p = Some Pending).
  { apply (wf_pending _ Hwf). left. by exists i. }
  assert (Hothers : forall o j q, j <> i -> _packetCallbacks st !! j = Some q ->
    delete i (_packetCallbacks st) !! j = Some q /\
    <[p := Settled o]> (promises st) !! q = Some Pending).
  { intros o j q Hne Hj. split; [by rewrite lookup_delete_ne|].
    rewrite list_lookup_insert_ne.
    - apply (wf_pending _ Hwf). left. by exists j.
    - intros <-. apply Hne. symmetry. by eapply (wf_inj _ Hwf). }
  exists i. rewrite onMessage_eq, Hparse, Hcb.
  destruct (JS.member "error" ms) as [err|].
  - destruct err as [|b|m e|sn|s|l|ms']; [done|..];
      (eexists; split; [exact Hk|]; split; [exact Hi|]; split; [reflexivity|]);
      rewrite (answered_eq st _ i p _ Hwf Hk Hi); cbn;
      (split; [reflexivity|]);
      (split; [apply list_lookup_insert_eq; by eapply lookup_lt_Some|]);
      (split; [intros q Hq; by apply list_lookup_insert_ne|]); by apply Hothers.
  - eexists. split; [exact Hk|]. split; [exact Hi|]. split; [reflexivity|].
    rewrite (answered_eq0 st _ i p _ Hwf Hk Hi). cbn.
    split; [reflexivity|].
    split; [apply list_lookup_insert_eq; by eapply lookup_lt_Some|].
    split; [intros q Hq; by apply list_lookup_insert_ne|]. by apply Hothers.
Qed.

Lemma response_touches_one_request_witness :
  exists st',
    _onMessage frame_both (state_after history_two_pending) = Returns tt st' /\
    _packetCallbacks st' !! 2 = Some 1%nat /\
    promises st' !! 1%nat = Some Pending.
Proof.
  destruct (response_touches_one_request (state_after history_two_pending) frame_both
              both_members 0%nat) as (i & st' & Hk & _ & Hret & _ & _ & _ & Hothers).
  - exists page_A, history_two_pending. vm_compute. reflexivity.
  - vm_compute. reflexivity.
  - vm_compute. reflexivity.
  - vm_compute. discriminate.
  - exists st'. split; [exact Hret|].
    apply (Hothers 2 1%nat).
    + vm_compute in Hk. injection Hk as <-. discriminate.
    + vm_compute. reflexivity.
Defined.

(** X4. The three ways the receive path throws before it has done
    anything, leaving the Page as it was: a text that is not JSON
    (SyntaxError from [JSON.parse]); a text that is JSON but neither object
    nor array (TypeError from ['id' in json]); a frame for a pending request
    whose [error] member is [null] (TypeError from [json.error.code]; the
    request stays pending). *)
Theorem receive_path_throws_early st text :
  (JSON.parse text = None -> _onMessage text st = Throws SyntaxError st) /\
  (forall j, JSON.parse text = Some j ->
     match j with JObj _ | JArr _ => False | _ => True end ->
     _onMessage text st = Throws TypeError st) /\
  (forall ms p, JSON.parse text = Some (JObj ms) ->
     callbacks_get (member_val "id" ms) st = Some p ->
     JS.member "error" ms = Some JNull ->
     _onMessage text st = Throws TypeError st).
Proof.
  rewrite onMessage_eq. split; [|split].
  - by intros ->.
  - intros j -> Hj. by destruct j.
  - intros ms p -> -> ->. reflexivity.
Qed.

Lemma receive_path_throws_early_witness :
  _onMessage "not json" (state_after history_open) =
    Throws SyntaxError (state_after history_open) /\
  _onMessage "17" (state_after history_open) =
    Throws TypeError (state_after history_open).
Proof.
  destruct (receive_path_throws_early (state_after history_open) "not json") as (H1 & _).
  destruct (receive_path_throws_early (state_after history_open) "17") as (_ & H2 & _).
  split.
  - apply H1. vm_compute. reflexivity.
  - apply (H2 (JNum 17 0)); vm_compute; [reflexivity|exact I].
Defined.

(** *** When the receive path returns *)

Lemma invoke_throws r arg st :
  listener_throws (reg_listener r) arg = true ->
  exists e st', invoke r arg st = Throws e st'.
Proof.
  rewrite invoke_eq. unfold listener_throws. cbn.
  destruct (reg_listener r) as [|f throws|p].
  - destruct (console_forwarder arg); [done|]. by eexists _, _.
  - intros ->. by eexists _, _.
  - done.
Qed.

Lemma invoke_all_returned rs arg : forall st st',
  invoke_all rs arg st = Returns tt st' ->
  forall r, r ∈ rs -> listener_throws (reg_listener r) arg = false.
Proof.
  induction rs as [|r0 rs IH]; intros st st' Hret r Hr; [by apply elem_of_nil in Hr|].
  cbn [invoke_all] in Hret. unfold bind in Hret.
  destruct (invoke r0 arg st) as [[] st1|e st1|] eqn:Hinv; try discriminate.
  apply elem_of_cons in Hr as [->|Hr]; [|by eapply IH].
  destruct (listener_throws (reg_listener r0) arg) eqn:Ht; [|done].
  destruct (invoke_throws r0 arg st Ht) as (e & st2 & H). congruence.
Qed.

(** X5. The receive path returns normally only if: the frame is an object
    or an array; the [error] member of a frame answering a pending request
    is not [null]; no listener of the event a frame names throws on its
    params, and the event ['error'] has a listener. (The event name is taken
    to be a string.) *)
Theorem receive_path_returns_only_if st text j st' :
  JSON.parse text = Some j ->
  names_event j ->
  _onMessage text st = Returns tt st' ->
  quiet st j.
Proof.
  intros Hparse Hname. rewrite onMessage_eq, Hparse.
  destruct j as [|b|m e|sn|s|l|ms]; cbn; try done.
  destruct (callbacks_get (member_val "id" ms) st) as [p|].
  - by destruct (JS.member "error" ms) as [[|b|m e|sn|s|l|ms']|].
  - cbn in Hname.
    destruct (JS.member "method" ms) as [[|b|m e|sn|name|l|ms']|]; cbn; try done.
    rewrite emit_eq. destruct (listeners name st) as [|r ls] eqn:Hls.
    + destruct (decide (name = "error"%string)); [done|]. intros _. split; [|done].
      intros r Hr. by apply elem_of_nil in Hr.
    + destruct (invoke_all (r :: ls) (member_val "params" ms) st) as [[] st1|e st1|] eqn:Hinv;
        try done.
      intros _. split; [|done]. by eapply invoke_all_returned.
Qed.

Lemma receive_path_returns_only_if_witness :
  quiet (state_after history_listeners) (JObj load_members).
Proof.
  apply (receive_path_returns_only_if (state_after history_listeners) frame_load
           (JObj load_members)
           (state_after (history_listeners ++ [Socket_message frame_load])));
    vm_compute; first [reflexivity|exact I].
Defined.

(** *** Durable listeners stay *)

Lemma invoke_all_keeps_durable rs arg :
  forall st st', wf st -> (forall r, r ∈ rs -> r ∈ _eventEmitter st) ->
  NoDup (map reg_id rs) ->
  state_of (invoke_all rs arg st) = Some st' ->
  (forall x, x ∈ _eventEmitter st -> is_once x = false -> x ∈ _eventEmitter st') /\
  (forall f rest, _eventEmitter st = f :: rest -> is_once f = false ->
     exists rest', _eventEmitter st' = f :: rest').
Proof.
  induction rs as [|r rs IH]; intros st st' Hwf Hin Hnd.
  - cbn. intros [= <-]. split; [done|]. intros f rest ->. by eexists.
  - cbn in Hnd. apply NoDup_cons in Hnd as [Hr Hnd].
    assert (Hrin : r ∈ _eventEmitter st) by (apply Hin; by left).
    destruct (invoke_spec r arg st Hwf Hrin) as
      (st1 & Hst1 & Hwf1 & _ & _ & _ & He1 & _).
    assert (Hkeep1 : forall x, x ∈ _eventEmitter st -> is_once x = false ->
                               x ∈ _eventEmitter st1).
    { intros x Hx Hd. rewrite He1. destruct (is_once r) eqn:Ho; [|done].
      apply list_elem_of_filter. split; [|done]. intros Heq.
      assert (x = r) by (apply (reg_id_inj (_eventEmitter st)); [by apply wf_regs|done..]).
      congruence. }
    assert (Hhead1 : forall f rest, _eventEmitter st = f :: rest -> is_once f = false ->
                                    exists rest', _eventEmitter st1 = f :: rest').
    { intros f rest Hf Hd. rewrite He1. destruct (is_once r) eqn:Ho; [|by eexists].
      rewrite Hf, filter_cons. destruct (decide (reg_id f ≠ reg_id r)) as [|Hn]; [by eexists|].
      exfalso. apply Hn. intros Heq.
      assert (f = r).
      { apply (reg_id_inj (_eventEmitter st)); [by apply wf_regs| |done|done].
        rewrite Hf. by left. }
      congruence. }
    rewrite (invoke_step _ _ _ _ _ Hst1).
    destruct (invoke r arg st) as [[] st1'|e st1'|]; cbn in Hst1; [| |discriminate];
      injection Hst1 as ->.
    + intros Hst'.
      destruct (IH st1 st' Hwf1) as [Hk Hh]; [|exact Hnd|exact Hst'|].
      { intros x Hx. rewrite He1. destruct (is_once r); [|apply Hin; by right].
        apply list_elem_of_filter. split; [|apply Hin; by right].
        intros Heq. apply Hr. rewrite <- Heq. apply list_elem_of_fmap. by exists x. }
      split.
      * intros x Hx Hd. apply Hk; [by apply Hkeep1|done].
      * intros f rest Hf Hd. destruct (Hhead1 f rest Hf Hd) as [rest1 H1]. by eapply Hh.
    + cbn. intros [= <-]. by split.
Qed.

Lemma onMessage_keeps_durable text st st' :
  wf st -> state_of (_onMessage text st) = Some st' ->
  (forall x, x ∈ _eventEmitter st -> is_once x = false -> x ∈ _eventEmitter st') /\
  (forall f rest, _eventEmitter st = f :: rest -> is_once f = false ->
     exists rest', _eventEmitter st' = f :: rest').
Proof.
  intros Hwf. rewrite onMessage_eq.
  assert (Hsame : forall st0, _eventEmitter st0 = _eventEmitter st ->
    (forall x, x ∈ _eventEmitter st -> is_once x = false -> x ∈ _eventEmitter st0) /\
    (forall f rest, _eventEmitter st = f :: rest -> is_once f = false ->
       exists rest', _eventEmitter st0 = f :: rest')).
  { intros st0 ->. split; [done|]. intros f rest ->. by eexists. }
  destruct (JSON.parse text) as [[|b|m e|sn|s|l|ms]|]; cbn; try (intros [= <-]; by apply Hsame).
  destruct (callbacks_get (member_val "id" ms) st) as [p|].
  - destruct (JS.member "error" ms) as [err|].
    + destruct err; cbn; intros [= <-]; apply Hsame; try done;
        unfold delete_st, settle_st; cbn;
        destruct (key_of _); destruct (_ !! p) as [[|]|]; done.
    + cbn. intros [= <-]. apply Hsame. unfold delete_st, settle_st.
      destruct (key_of _); destruct (_ !! p) as [[|]|]; done.
  - destruct (JS.member "method" ms) as [[|b|m e|sn|name|l|ms']|]; cbn; try discriminate.
    + rewrite emit_eq. destruct (listeners name st) as [|r ls] eqn:Hls.
      * destruct (decide (name = "error"%string)); intros [= <-]; by apply Hsame.
      * intros Hst'. apply (invoke_all_keeps_durable (r :: ls) (member_val "params" ms) st st' Hwf).
        -- intros x Hx. rewrite <- Hls in Hx. by apply listeners_in in Hx as [_ ?].
        -- rewrite <- Hls. by apply listeners_NoDup.
        -- destruct (invoke_all (r :: ls) _ st); cbn in *; congruence.
    + intros [= <-]. by apply Hsame.
Qed.

Lemma step_keeps_durable e st st' :
  wf st -> step e st = Some st' ->
  (forall x, x ∈ _eventEmitter st -> is_once x = false -> x ∈ _eventEmitter st') /\
  (forall f rest, _eventEmitter st = f :: rest -> is_once f = false ->
     exists rest', _eventEmitter st' = f :: rest').
Proof.
  intros Hwf.
  assert (Hsame : forall st0, _eventEmitter st0 = _eventEmitter st ->
    (forall x, x ∈ _eventEmitter st -> is_once x = false -> x ∈ _eventEmitter st0) /\
    (forall f rest, _eventEmitter st = f :: rest -> is_once f = false ->
       exists rest', _eventEmitter st0 = f :: rest')).
  { intros st0 ->. split; [done|]. intros f rest ->. by eexists. }
  assert (Happ : forall st0 r, _eventEmitter st0 = _eventEmitter st ++ [r] ->
    (forall x, x ∈ _eventEmitter st -> is_once x = false -> x ∈ _eventEmitter st0) /\
    (forall f rest, _eventEmitter st = f :: rest -> is_once f = false ->
       exists rest', _eventEmitter st0 = f :: rest')).
  { intros st0 r ->. split.
    - intros x Hx _. apply elem_of_app. by left.
    - intros f rest -> _. by eexists. }
  destruct e as [method params|method f throws|method| | |text]; cbn [step].
  - rewrite send_eq. intros [= <-]. by apply Hsame.
  - rewrite listen_eq. destruct (meta_event method); [discriminate|]. intros [= <-].
    by eapply Happ.
  - rewrite wait_eq. destruct (meta_event method); [discriminate|]. intros [= <-].
    by eapply Happ.
  - rewrite send_resume_eq. destruct (connecting st); [intros [= <-]; by apply Hsame|].
    destruct (readyState st =? 1); intros [= <-]; by apply Hsame.
  - intros [= <-]. by apply Hsame.
  - by apply onMessage_keeps_durable.
Qed.

Lemma run_keeps_durable tr : forall st st',
  wf st -> run tr st = Some st' ->
  (forall x, x ∈ _eventEmitter st -> is_once x = false -> x ∈ _eventEmitter st') /\
  (forall f rest, _eventEmitter st = f :: rest -> is_once f = false ->
     exists rest', _eventEmitter st' = f :: rest').
Proof.
  induction tr as [|e tr IH]; intros st st' Hwf; cbn [run].
  - intros [= <-]. split; [done|]. intros f rest ->. by eexists.
  - destruct (step e st) as [st1|] eqn:He; [|discriminate]. intros Hrun.
    destruct (step_keeps_durable e st st1 Hwf He) as [Hk1 Hh1].
    destruct (IH st1 st' (wf_step _ _ _ Hwf He) Hrun) as [Hk Hh].
    split.
    + intros x Hx Hd. apply Hk; [by apply Hk1|done].
    + intros f rest Hf Hd. destruct (Hh1 f rest Hf Hd) as [rest1 H1]. by eapply Hh.
Qed.

(** X8. A listener registered with [listen], and the console forwarder of
    the constructor, is never deregistered: whatever happens to the Page
    afterwards, it is still registered. *)
Theorem durable_listener_stays st tr st' r :
  reachable st ->
  run tr st = Some st' ->
  r ∈ _eventEmitter st -> is_once r = false ->
  r ∈ _eventEmitter st'.
Proof.
  intros Hreach Hrun Hr Hd.
  by apply (proj1 (run_keeps_durable tr st st' (reachable_wf _ Hreach) Hrun)).
Qed.

Lemma durable_listener_stays_witness :
  forwarder_registration ∈
    _eventEmitter (run_from [Socket_message frame_load; Socket_message frame_console_bad]
                     (state_after history_listeners)).
Proof.
  apply (durable_listener_stays (state_after history_listeners)
           [Socket_message frame_load; Socket_message frame_console_bad]).
  - exists page_A, history_listeners. vm_compute. reflexivity.
  - vm_compute. reflexivity.
  - apply list_elem_of_In. vm_compute. left. reflexivity.
  - reflexivity.
Defined.

(** X6. The console forwarder of the constructor is the first listener
    of ['Console.messageAdded'] on every Page: when it throws on the params
    of such a frame (no [message.text] to split), the receive path ends with
    that exception after this one call, and no listener registered later for
    the event is called. *)
Theorem console_forwarder_goes_first pageObject tr st text ms e :
  run tr (new_Page pageObject) = Some st ->
  JSON.parse text = Some (JObj ms) ->
  callbacks_get (member_val "id" ms) st = None ->
  JS.member "method" ms = Some (JStr "Console.messageAdded") ->
  console_forwarder (member_val "params" ms) = Raise e ->
  _onMessage text st =
    Throws e (set_delivered (delivered st ++ [(0%nat, member_val "params" ms)]) st).
Proof.
  intros Hrun Hparse Hcb Hm Hraise.
  destruct (proj2 (run_keeps_durable tr _ _ (wf_new_Page pageObject) Hrun)
              forwarder_registration [])
    as [rest Hreg]; [by rewrite new_Page_eq|done|].
  rewrite onMessage_eq, Hparse, Hcb, Hm, emit_eq.
  unfold listeners. rewrite Hreg, filter_cons.
  destruct (decide (reg_event forwarder_registration = "Console.messageAdded"%string)); [|done].
  cbn [invoke_all]. unfold bind. rewrite invoke_eq. cbn. by rewrite Hraise.
Qed.

Lemma console_forwarder_goes_first_witness :
  _onMessage frame_console_bad (state_after history_listeners) =
    Throws TypeError
      (set_delivered
         (delivered (state_after history_listeners) ++
            [(0%nat, member_val "params" console_bad_members)])
         (state_after history_listeners)).
Proof.
  apply (console_forwarder_goes_first page_A history_listeners
           (state_after history_listeners) frame_console_bad console_bad_members TypeError);
    vm_compute; reflexivity.
Defined.

(** *** The lines of the console forwarder *)

Lemma list_ascii_of_string_app a b :
  list_ascii_of_string (a +:+ b) = list_ascii_of_string a ++ list_ascii_of_string b.
Proof.
  induction a as [|c a IH]; [done|].
  change (String c a +:+ b) with (String c (a +:+ b)). cbn. f_equal. exact IH.
Qed.

Lemma code_chr c n : JSON.code c = n -> c = JSON.chr n.
Proof.
  unfold JSON.code, JSON.chr. intros <-. by rewrite N2Z.id, ascii_N_embedding.
Qed.

Lemma split_crlf_nonempty s : forall acc, JS.split_crlf acc s <> [].
Proof.
  induction s as [|c r IH]; intros acc; cbn; [done|].
  destruct r as [|d r']; [done|].
  destruct ((JSON.code c =? 13) && (JSON.code d =? 10)); [done|apply IH].
Qed.

Lemma join_crlf_cons l ls :
  ls <> [] ->
  join_crlf (l :: ls) = l +:+ String (JSON.chr 13) (String (JSON.chr 10) (join_crlf ls)).
Proof. by destruct ls. Qed.

Lemma split_crlf_join n : forall s acc,
  (length s <= n)%nat ->
  list_ascii_of_string (join_crlf (JS.split_crlf acc s)) = rev acc ++ s.
Proof.
  induction n as [|n IH]; intros s acc Hn.
  - destruct s; [|cbn in Hn; lia].
    cbn [JS.split_crlf join_crlf].
    by rewrite list_ascii_of_string_of_list_ascii, app_nil_r.
  - destruct s as [|c r].
    { cbn [JS.split_crlf join_crlf].
      by rewrite list_ascii_of_string_of_list_ascii, app_nil_r. }
    destruct r as [|d r'].
    + cbn [JS.split_crlf join_crlf].
      rewrite list_ascii_of_string_of_list_ascii. reflexivity.
    + change (JS.split_crlf acc (c :: d :: r')) with
        (if (JSON.code c =? 13) && (JSON.code d =? 10)
         then string_of_list_ascii (rev acc) :: JS.split_crlf [] r'
         else JS.split_crlf (c :: acc) (d :: r')).
      destruct ((JSON.code c =? 13) && (JSON.code d =? 10)) eqn:Hcr.
      * apply andb_true_iff in Hcr as [Hc Hd].
        apply Z.eqb_eq, code_chr in Hc. apply Z.eqb_eq, code_chr in Hd. subst c d.
        rewrite join_crlf_cons by apply split_crlf_nonempty.
        rewrite list_ascii_of_string_app, list_ascii_of_string_of_list_ascii.
        cbn [list_ascii_of_string].
        rewrite (IH r' []) by (cbn in Hn; lia). reflexivity.
      * rewrite (IH (d :: r') (c :: acc)) by (cbn in *; lia). cbn [rev].
        by rewrite <- app_assoc.
Qed.

Lemma has_crlf_snoc l c d :
  has_crlf (l ++ [c; d]) =
  has_crlf (l ++ [c]) || (JSON.code c =? 13) && (JSON.code d =? 10).
Proof.
  induction l as [|a l IH]; [cbn; by rewrite orb_false_r|].
  destruct l as [|b l].
  - cbn. by rewrite !orb_false_r.
  - change (has_crlf ((a :: b :: l) ++ [c; d])) with
      ((JSON.code a =? 13) && (JSON.code b =? 10) || has_crlf ((b :: l) ++ [c; d])).
    change (has_crlf ((a :: b :: l) ++ [c])) with
      ((JSON.code a =? 13) && (JSON.code b =? 10) || has_crlf ((b :: l) ++ [c])).
    rewrite IH. by rewrite orb_assoc.
Qed.

Lemma has_crlf_init l c : has_crlf (l ++ [c]) = false -> has_crlf l = false.
Proof.
  induction l as [|a l IH]; [done|].
  destruct l as [|b l]; [done|].
  change (has_crlf ((a :: b :: l) ++ [c])) with
    ((JSON.code a =? 13) && (JSON.code b =? 10) || has_crlf ((b :: l) ++ [c])).
  change (has_crlf (a :: b :: l)) with
    ((JSON.code a =? 13) && (JSON.code b =? 10) || has_crlf (b :: l)).
  intros H. apply orb_false_iff in H as [-> H]. by apply IH.
Qed.

(** No piece holds a separator. *)
Lemma split_crlf_pieces n : forall s acc,
  (length s <= n)%nat ->
  has_crlf (rev acc ++ take 1 s) = false ->
  Forall (fun line => has_crlf (list_ascii_of_string line) = false) (JS.split_crlf acc s).
Proof.
  induction n as [|n IH]; intros s acc Hn Hacc.
  - destruct s; [|cbn in Hn; lia]. cbn [JS.split_crlf]. constructor; [|constructor].
    rewrite list_ascii_of_string_of_list_ascii. cbn in Hacc. by rewrite app_nil_r in Hacc.
  - destruct s as [|c r].
    { cbn [JS.split_crlf]. constructor; [|constructor].
      rewrite list_ascii_of_string_of_list_ascii. cbn in Hacc. by rewrite app_nil_r in Hacc. }
    change (take 1 (c :: r)) with [c] in Hacc.
    destruct r as [|d r'].
    + cbn [JS.split_crlf]. constructor; [|constructor].
      by rewrite list_ascii_of_string_of_list_ascii.
    + change (JS.split_crlf acc (c :: d :: r')) with
        (if (JSON.code c =? 13) && (JSON.code d =? 10)
         then string_of_list_ascii (rev acc) :: JS.split_crlf [] r'
         else JS.split_crlf (c :: acc) (d :: r')).
      destruct ((JSON.code c =? 13) && (JSON.code d =? 10)) eqn:Hcr.
      * constructor.
        -- rewrite list_ascii_of_string_of_list_ascii. by eapply has_crlf_init.
        -- apply IH; [cbn in Hn; lia|]. by destruct r'.
      * apply IH; [cbn in *; lia|].
        change (take 1 (d :: r')) with [d]. cbn [rev].
        rewrite <- app_assoc. cbn [app]. by rewrite has_crlf_snoc, Hacc, Hcr.
Qed.

(** X7. On a console message whose [text] is a string (and whose [source]
    can be turned into a string), the forwarder logs one line per piece of
    the text between ['\r\n'] separators, each after the [source] in
    brackets: at least one line, no line holds a separator, and the lines
    joined by ['\r\n'] are the text again. *)
Theorem console_forwarder_keeps_text arg ms text :
  JS.get arg "message" = Ok (J (JObj ms)) ->
  JS.member "text" ms = Some (JStr text) ->
  match member_val "source" ms with
  | J j => JS.unprintable j = false
  | undefined => True
  end ->
  exists lines,
    console_forwarder arg = Ok (map (console_log (member_val "source" ms)) lines) /\
    join_crlf lines = text /\ lines <> [] /\
    Forall (fun line => has_crlf (list_ascii_of_string line) = false) lines.
Proof.
  intros Hmsg Htext Hsrc. unfold console_forwarder. rewrite Hmsg. cbn. rewrite Htext.
  exists (JS.split_crlf [] (list_ascii_of_string text)).
  split; [|split; [|split]].
  - unfold member_val in *. destruct (JS.member "source" ms) as [j|]; [|done].
    by rewrite Hsrc.
  - rewrite <- (string_of_list_ascii_of_string (join_crlf _)),
      (split_crlf_join (length (list_ascii_of_string text))) by lia.
    cbn. apply string_of_list_ascii_of_string.
  - apply split_crlf_nonempty.
  - apply (split_crlf_pieces (length (list_ascii_of_string text))); [lia|].
    by destruct (list_ascii_of_string text).
Qed.

Lemma console_forwarder_keeps_text_witness :
  exists lines,
    console_forwarder (J (JObj [("message"%string, JObj console_message)])) =
      Ok (map (console_log (member_val "source" console_message)) lines) /\
    join_crlf lines = two_lines /\ lines <> [] /\
    Forall (fun line => has_crlf (list_ascii_of_string line) = false) lines.
Proof.
  apply (console_forwarder_keeps_text
           (J (JObj [("message"%string, JObj console_message)])) console_message two_lines);
    vm_compute; reflexivity.
Defined.

(** The two lines of the sample message. *)
Example console_forwarder_two_lines :
  console_forwarder (J (JObj [("message"%string, JObj console_message)])) =
    Ok [console_log (J (JStr "console-api")) "a"; console_log (J (JStr "console-api")) "b"].
Proof. vm_compute. reflexivity. Qed.


(** *** Promises that nothing holds *)

Lemma unheld_fields st st' p :
  (forall q, held_by_request st' q -> held_by_request st q) ->
  (forall q, held_by_waiter st' q -> held_by_waiter st q) ->
  (forall q, held_by_suspended st' q -> held_by_suspended st q) ->
  unheld st p -> unheld st' p.
Proof. intros H1 H2 H3 (Hr & Hw & Hs). repeat split; intros H; eauto. Qed.

Lemma onMessage_unheld text st st' p x :
  wf st -> promises st !! p = Some x -> unheld st p ->
  state_of (_onMessage text st) = Some st' ->
  promises st' !! p = Some x /\ unheld st' p.
Proof.
  intros Hwf Hp Hun. rewrite onMessage_eq.
  destruct (JSON.parse text) as [[|b|m e|sn|s|l|ms]|]; cbn; try (by intros [= <-]).
  destruct (callbacks_get (member_val "id" ms) st) as [q|] eqn:Hget.
  - apply callbacks_get_Some in Hget as (i & Hkey & Hi).
    assert (Hqp : q <> p).
    { intros ->. destruct Hun as (Hr & _). apply Hr. by exists i. }
    assert (Hans : forall o cons,
      let st1 := delete_st (member_val "id" ms) (settle_st q o (set_console cons st)) in
      promises st1 !! p = Some x /\ unheld st1 p).
    { intros o cons. unfold delete_st, settle_st. rewrite Hkey. cbn.
      destruct (promises st !! q) as [[|o']|]; cbn.
      - split; [by rewrite list_lookup_insert_ne|].
        eapply unheld_fields; [| | |exact Hun]; try done.
        intros q' (j & Hj). cbn in Hj. apply lookup_delete_Some in Hj as [_ Hj]. by exists j.
      - split; [done|].
        eapply unheld_fields; [| | |exact Hun]; try done.
        intros q' (j & Hj). cbn in Hj. apply lookup_delete_Some in Hj as [_ Hj]. by exists j.
      - split; [done|].
        eapply unheld_fields; [| | |exact Hun]; try done.
        intros q' (j & Hj). cbn in Hj. apply lookup_delete_Some in Hj as [_ Hj]. by exists j. }
    destruct (JS.member "error" ms) as [err|].
    + destruct err; cbn; intros [= <-]; try done; apply Hans.
    + cbn. intros [= <-]. rewrite <- (set_console_id st). apply Hans.
  - destruct (JS.member "method" ms) as [[|b|m e|sn|name|l|ms']|]; cbn; try discriminate.
    + rewrite emit_eq. destruct (listeners name st) as [|r ls] eqn:Hls.
      * destruct (decide (name = "error"%string)); by intros [= <-].
      * intros Hst'.
        destruct (invoke_all_frame (r :: ls) (member_val "params" ms) st Hwf) as
          (st1 & Hst1 & _ & Hsame & Hkeep & Hsub & _).
        { intros y Hy. rewrite <- Hls in Hy. by apply listeners_in in Hy as [_ ?]. }
        { rewrite <- Hls. by apply listeners_NoDup. }
        assert (st1 = st') as ->.
        { destruct (invoke_all (r :: ls) _ st); cbn in *; congruence. }
        destruct Hun as (Hr & Hw & Hs). split; [by rewrite Hkeep|].
        destruct Hsame. repeat split.
        -- intros (j & Hj). apply Hr. exists j. congruence.
        -- intros (y & Hy & Hl). apply Hw. exists y. split; [by apply Hsub|done].
        -- unfold held_by_suspended in *. congruence.
    + by intros [= <-].
Qed.

Lemma step_unheld e st st' p x :
  wf st -> promises st !! p = Some x -> unheld st p -> step e st = Some st' ->
  promises st' !! p = Some x /\ unheld st' p.
Proof.
  intros Hwf Hp Hun.
  assert (Hlt : (p < length (promises st))%nat) by (eapply lookup_lt_Some; eauto).
  destruct e as [method params|method f throws|method| | |text]; cbn [step].
  - rewrite send_eq. intros [= <-]. cbn. split; [by rewrite lookup_app_l|].
    destruct Hun as (Hr & Hw & Hs). repeat split; [done|done|].
    unfold held_by_suspended. cbn. rewrite map_app, elem_of_app. cbn.
    intros [H|H%list_elem_of_singleton]; [by apply Hs|lia].
  - rewrite listen_eq. destruct (meta_event method); [discriminate|]. intros [= <-].
    split; [done|]. destruct Hun as (Hr & Hw & Hs). repeat split; [done| |done].
    intros (y & Hy & Hl). cbn in Hy. apply elem_of_app in Hy as [Hy|Hy%list_elem_of_singleton].
    + apply Hw. by exists y.
    + subst y. discriminate.
  - rewrite wait_eq. destruct (meta_event method); [discriminate|]. intros [= <-].
    cbn. split; [by rewrite lookup_app_l|].
    destruct Hun as (Hr & Hw & Hs). repeat split; [done| |done].
    intros (y & Hy & Hl). cbn in Hy. apply elem_of_app in Hy as [Hy|Hy%list_elem_of_singleton].
    + apply Hw. by exists y.
    + subst y. cbn in Hl. injection Hl as Hl. lia.
  - rewrite send_resume_eq. destruct (connecting st) as [|s rest] eqn:Hc; [by intros [= <-]|].
    destruct (readyState st =? 1); [|by intros [= <-]]. intros [= <-]. split; [done|].
    destruct Hun as (Hr & Hw & Hs). repeat split; [| done |].
    + intros (j & Hj). cbn in Hj. apply lookup_insert_Some in Hj as [[_ <-]|[_ Hj]].
      * apply Hs. unfold held_by_suspended. rewrite Hc. cbn. by left.
      * apply Hr. by exists j.
    + unfold held_by_suspended in *. cbn. rewrite Hc in Hs. cbn in Hs.
      intros H. apply Hs. by right.
  - by intros [= <-].
  - by apply onMessage_unheld.
Qed.

Lemma run_unheld tr : forall st st' p x,
  wf st -> promises st !! p = Some x -> unheld st p -> run tr st = Some st' ->
  promises st' !! p = Some x /\ unheld st' p.
Proof.
  induction tr as [|e tr IH]; cbn; intros st st' p x Hwf Hp Hun H.
  - by injection H as <-.
  - destruct (step e st) as [st1|] eqn:He; [|discriminate].
    destruct (step_unheld _ _ _ _ _ Hwf Hp Hun He) as [Hp1 Hun1].
    eapply IH; [|exact Hp1|exact Hun1|exact H]. eapply wf_step; eauto.
Qed.

Lemma connect_eq st :
  _connect st = Returns tt (set_sent [] (set_readyState 0 (set_packetCallbacks ∅ st))).
Proof. reflexivity. Qed.

Lemma wf_connect st :
  wf st -> wf (set_sent [] (set_readyState 0 (set_packetCallbacks ∅ st))).
Proof.
  intros [wf_bound wf_inj wf_once_inj wf_suspended wf_request_waiter wf_request_suspended
          wf_waiter_suspended wf_pending wf_regs wf_regs_bound].
  constructor; unfold held_by_request, held_by_waiter, held_by_suspended in *; cbn;
    try assumption.
  - intros i p H. by rewrite lookup_empty in H.
  - intros i j p H. by rewrite lookup_empty in H.
  - intros p (i & H). by rewrite lookup_empty in H.
  - intros p (i & H). by rewrite lookup_empty in H.
  - intros p [(i & H)|H]; [by rewrite lookup_empty in H|]. apply wf_pending. by right.
Qed.

(** X10. [_connect] clears [_packetCallbacks] without rejecting anything:
    called on a Page with a pending request (no [send] being suspended at
    that moment), it leaves the promise of that request pending and
    unregistered, and whatever happens to the Page afterwards the promise
    stays pending. *)
Theorem connect_leaves_requests_unsettled st i p st1 tr st' :
  reachable st ->
  connecting st = [] ->
  _packetCallbacks st !! i = Some p ->
  _connect st = Returns tt st1 ->
  run tr st1 = Some st' ->
  _packetCallbacks st1 = ∅ /\
  promises st' !! p = Some Pending /\
  (forall j, _packetCallbacks st' !! j <> Some p).
Proof.
  intros Hr _ Hi Hc Hrun. apply reachable_wf in Hr.
  rewrite connect_eq in Hc. injection Hc as <-.
  split; [reflexivity|].
  assert (Hheld : held_by_request st p) by (by exists i).
  destruct (run_unheld tr _ st' p Pending (wf_connect st Hr)) as [Hp (Hreq & _)].
  - cbn. apply (wf_pending _ Hr). by left.
  - repeat split.
    + intros (j & Hj). cbn in Hj. by rewrite lookup_empty in Hj.
    + apply (wf_request_waiter _ Hr _ Hheld).
    + apply (wf_request_suspended _ Hr _ Hheld).
  - exact Hrun.
  - split; [exact Hp|]. intros j Hj. apply Hreq. by exists j.
Qed.

Lemma connect_leaves_requests_unsettled_witness :
  promises (run_from history_reconnected (reconnected (state_after history_two_pending)))
    !! 0%nat = Some Pending.
Proof.
  destruct (connect_leaves_requests_unsettled (state_after history_two_pending) 1 0%nat
              (reconnected (state_after history_two_pending)) history_reconnected
              (run_from history_reconnected (reconnected (state_after history_two_pending))))
    as (_ & Hp & _).
  - exists page_A, history_two_pending. vm_compute. reflexivity.
  - vm_compute. reflexivity.
  - vm_compute. reflexivity.
  - vm_compute. reflexivity.
  - vm_compute. reflexivity.
  - exact Hp.
Defined.

(** *** More on the helpers *)

Section HelperExtras.
Variable JSON_stringify : list val -> string.


(** The first truthy attempt within the budget ends [waitFor]. *)
Lemma waitFor_exec_resolves env expression timeout params v k :
  forall passes n w,
    (forall j, (j < k)%nat -> falsy_answer (answer env (n + j))) ->
    execSync_outcome (answer env (n + k)) = Resolved v ->
    JS.truthy v = true ->
    (k <= Z.to_nat (Qceiling passes))%nat ->
    exists l,
      play env (waitFor_exec JSON_stringify expression timeout params passes) n w =
        (l, Resolved v) /\
      requests l = S k /\ waited l = 10 * Z.of_nat k.
Proof.
  induction k as [|k IH]; intros passes n w Hfalsy Hv Ht Hk;
    rewrite play_waitFor_exec; cbn zeta.
  - rewrite Nat.add_0_r in Hv. rewrite Hv, Ht. eexists. by split.
  - destruct (Hfalsy O ltac:(lia)) as (v0 & Hv0 & Ht0). rewrite Nat.add_0_r in Hv0.
    rewrite Hv0, Ht0.
    destruct (Z.to_nat (Qceiling passes)) as [|c] eqn:Hc; [lia|].
    destruct (passes_left _ _ Hc) as [-> Hc'].
    destruct (IH (passes - 1)%Q (S n) w) as (l & -> & Hl & Hw).
    + intros j Hj. replace (S n + j)%nat with (n + S j)%nat by lia. apply Hfalsy. lia.
    + by replace (S n + k)%nat with (n + S k)%nat by lia.
    + exact Ht.
    + lia.
    + eexists. split; [reflexivity|]. split.
      * unfold requests in *. cbn. by rewrite Hl.
      * cbn [waited]. rewrite Hw. lia.
Qed.

(** With answers that are always falsy one timer runs per pass left. *)
Lemma waitFor_exec_waited env expression timeout params c :
  (forall k, falsy_answer (answer env k)) ->
  forall passes n w,
    Z.to_nat (Qceiling passes) = c ->
    exists l,
      play env (waitFor_exec JSON_stringify expression timeout params passes) n w =
        (l, Rejected (Value (timeout_message timeout))) /\
      waited l = 10 * Z.of_nat c.
Proof.
  intros Hfalsy. induction c as [|c IH]; intros passes n w Hc;
    rewrite play_waitFor_exec; cbn zeta;
    destruct (Hfalsy n) as (v & -> & ->).
  - rewrite (passes_spent _ Hc). eexists. by split.
  - destruct (passes_left _ _ Hc) as [-> Hc'].
    destruct (IH (passes - 1)%Q (S n) w Hc') as (l & -> & Hl).
    eexists. split; [reflexivity|]. cbn [waited]. rewrite Hl. lia.
Qed.

End HelperExtras.


(** X11. When the attempts of [waitFor] before the [k]-th give falsy values
    and the [k]-th (counted from 0, within the budget) gives a truthy value,
    the call resolves with that value, after [k + 1] evaluations and [k]
    timers of 10 ms, and evaluates no more. *)
Theorem waitFor_resolves (JSON_stringify : list val -> string)
    env expression timeout params k v :
  (forall j, (j < k)%nat -> falsy_answer (answer env j)) ->
  execSync_outcome (answer env k) = Resolved v ->
  JS.truthy v = true ->
  (k < attempts timeout)%nat ->
  exists l,
    play env (waitFor JSON_stringify expression (Some timeout) params) 0 0 =
      (l, Resolved v) /\
    requests l = S k /\ waited l = 10 * Z.of_nat k.
Proof.
  intros Hfalsy Hv Ht Hk. unfold waitFor.
  apply waitFor_exec_resolves; [done|done|done|unfold attempts in Hk; lia].
Qed.

Lemma waitFor_resolves_witness :
  exists l,
    play true_on_third (waitFor (fun _ => "[]"%string) "() => ready" (Some 100) []) 0 0 =
      (l, Resolved (J (JBool true))) /\
    requests l = 3%nat /\ waited l = 20.
Proof.
  apply (waitFor_resolves (fun _ => "[]"%string) true_on_third "() => ready" 100 []
           2 (J (JBool true))).
  - intros j Hj. exists (J (JBool false)).
    destruct j as [|[|j]]; [split; reflexivity|split; reflexivity|lia].
  - reflexivity.
  - reflexivity.
  - vm_compute. lia.
Defined.

(** X12. With evaluations that are always falsy and a budget [timeout >= 0],
    [waitFor] gives up only after timers that add up to at least [timeout]
    ms, and to less than [timeout + 10] ms. *)
Theorem waitFor_waits_out_timeout (JSON_stringify : list val -> string)
    env expression timeout params :
  (forall k, falsy_answer (answer env k)) ->
  0 <= timeout ->
  exists l,
    play env (waitFor JSON_stringify expression (Some timeout) params) 0 0 =
      (l, Rejected (Value (timeout_message timeout))) /\
    timeout <= waited l < timeout + 10.
Proof.
  intros Hfalsy Ht. unfold waitFor.
  destruct (waitFor_exec_waited JSON_stringify env expression timeout params _ Hfalsy
              (inject_Z timeout / 10)%Q O O eq_refl) as (l & Hl & Hw).
  exists l. split; [exact Hl|]. rewrite Hw.
  pose proof (attempts_bounds timeout Ht) as Hb. unfold attempts in Hb. lia.
Qed.

Lemma waitFor_waits_out_timeout_witness :
  exists l,
    play always_false (waitFor (fun _ => "[]"%string) "() => false" (Some 95) []) 0 0 =
      (l, Rejected (Value (timeout_message 95))) /\
    95 <= waited l < 95 + 10.
Proof.
  apply (waitFor_waits_out_timeout (fun _ => "[]"%string) always_false "() => false" 95 []).
  - intros k. exists (J (JBool false)). split; reflexivity.
  - lia.
Defined.

(** X13. With a budget [timeout <= 0], [waitFor] still evaluates the
    expression once; a falsy value then rejects the call with the timeout
    message at once, no timer set. *)
Theorem waitFor_spent_budget (JSON_stringify : list val -> string)
    env expression timeout params v :
  timeout <= 0 ->
  execSync_outcome (answer env 0) = Resolved v ->
  JS.truthy v = false ->
  play env (waitFor JSON_stringify expression (Some timeout) params) 0 0 =
    ([evaluation JSON_stringify expression params],
     Rejected (Value (timeout_message timeout))).
Proof.
  intros Ht Hv Hf. unfold waitFor. rewrite play_waitFor_exec. cbn zeta.
  rewrite Hv, Hf.
  assert (Hle : Qle_bool (inject_Z timeout / 10) 0 = true).
  { apply Qle_bool_iff. rewrite Zle_Qle in Ht. change (inject_Z 0) with 0%Q in Ht.
    assert (E : (inject_Z timeout == 10 * (inject_Z timeout / 10))%Q) by field.
    set (y := (inject_Z timeout / 10)%Q) in *. clearbody y. lra. }
  by rewrite Hle.
Qed.

Lemma waitFor_spent_budget_witness :
  play always_false (waitFor (fun _ => "[]"%string) "() => false" (Some (-5)) []) 0 0 =
    ([evaluation (fun _ => "[]"%string) "() => false" []],
     Rejected (Value (timeout_message (-5)))).
Proof.
  apply (waitFor_spent_budget (fun _ => "[]"%string) always_false "() => false" (-5) []
           (J (JBool false))); [lia|reflexivity|reflexivity].
Defined.


(** X15. On an answer object without a truthy [exceptionDetails],
    [execSync] settles with [data.result.value]: a missing or [null]
    [result] rejects it with a TypeError, a [result] object resolves it with
    its [value] member ([undefined] when there is none), any other [result]
    resolves it with [undefined]. *)
Theorem execSync_reads_result_value (JSON_stringify : list val -> string)
    env expression params n w ms :
  answer env n = Resolved (J (JObj ms)) ->
  JS.truthy (member_val "exceptionDetails" ms) = false ->
  snd (play env (execSync JSON_stringify expression params) n w) =
  match JS.member "result" ms with
  | None | Some JNull => Rejected (Exception TypeError)
  | Some (JObj rs) => Resolved (member_val "value" rs)
  | Some _ => Resolved undefined
  end.
Proof.
  intros Ha Hd. rewrite play_execSync. cbn [snd]. rewrite Ha.
  unfold execSync_outcome, member_val in *. cbn [JS.get].
  destruct (JS.member "exceptionDetails" ms) as [d|]; rewrite Hd;
    destruct (JS.member "result" ms) as [[|b|m e|sn|s|l|rs]|]; cbn; try reflexivity;
    by destruct (JS.member "value" rs).
Qed.

Lemma execSync_reads_result_value_witness :
  snd (play (mkEnv (fun _ => Resolved (J (JObj []))) (fun _ => undefined))
         (execSync (fun _ => "[]"%string) "() => 1" []) 0 0) =
  Rejected (Exception TypeError).
Proof.
  apply (execSync_reads_result_value (fun _ => "[]"%string)
           (mkEnv (fun _ => Resolved (J (JObj []))) (fun _ => undefined))
           "() => 1" [] 0%nat 0%nat []); reflexivity.
Defined.

(** X16. [post] makes the one evaluation that builds and submits the form;
    when that succeeds it awaits one ['Page.loadEventFired'] and resolves
    with [undefined], whatever the event carries; when it fails [post]
    rejects with that failure and awaits nothing. *)
Theorem post_awaits_load_after_submit (JSON_stringify : list val -> string)
    env form url data n w :
  play env (post JSON_stringify form url data) n w =
  match execSync_outcome (answer env n) with
  | Resolved _ =>
      ([evaluation JSON_stringify form [J (JStr url); J data];
        Await_event "Page.loadEventFired"],
       Resolved undefined)
  | Rejected r =>
      ([evaluation JSON_stringify form [J (JStr url); J data]], Rejected r)
  end.
Proof.
  unfold post. rewrite play_chain, play_execSync. cbn zeta.
  destruct (execSync_outcome (answer env n)); reflexivity.
Qed.


(** ** More on the registry *)

Lemma find_target_Some response pages target :
  find_target response pages = Ok (Some target) ->
  target ∈ pages /\ JS.get response "targetId" = Ok (J (JStr (t_id target))).
Proof.
  induction pages as [|page rest IH]; cbn; [done|].
  destruct (JS.get response "targetId") as [targetId|e] eqn:Hget; [|done].
  destruct (is_id (t_id page) targetId) eqn:Hid.
  - intros [= <-]. split; [by left|].
    destruct targetId as [|[| | | |s| |]]; try done. cbn in Hid.
    apply bool_decide_eq_true in Hid. by subst s.
  - intros H. destruct (IH H) as [Hin Hg]. split; [by right|done].
Qed.

Lemma find_target_None response pages :
  find_target response pages = Ok None ->
  forall target, target ∈ pages ->
    JS.get response "targetId" <> Ok (J (JStr (t_id target))).
Proof.
  induction pages as [|page rest IH]; cbn; intros H target Hin.
  - by apply elem_of_nil in Hin.
  - destruct (JS.get response "targetId") as [targetId|e] eqn:Hget; [|done].
    destruct (is_id (t_id page) targetId) eqn:Hid; [done|].
    apply elem_of_cons in Hin as [->|Hin].
    + intros [= ->]. cbn in Hid. by rewrite bool_decide_eq_false in Hid.
    + by apply IH.
Qed.

Lemma get_raises v k e : JS.get v k = Raise e -> e = TypeError.
Proof.
  destruct v as [|[| | | | | |ms]]; cbn; try congruence. by destruct (JS.member k ms).
Qed.

Lemma find_target_Raise response pages e :
  find_target response pages = Raise e ->
  JS.get response "targetId" = Raise e.
Proof.
  remember (JS.get response "targetId") as g eqn:Hg.
  induction pages as [|page rest IH]; cbn [find_target]; [done|].
  rewrite <- Hg. destruct g as [targetId|e']; [|by intros [= ->]].
  destruct (is_id (t_id page) targetId); [done|exact IH].
Qed.

(** X18. In every state of a Browser, each id of the registry names a Page
    object that exists and has that id, no Page object is registered under
    two ids, and every Page object is in a state its own history allows. *)
Theorem registry_sound tr b :
  browser_run tr new_Browser = Some b -> browser_inv b.
Proof. intros H. eapply inv_run; [apply inv_new|exact H]. Qed.

Lemma registry_sound_witness : browser_inv registry_AB.
Proof.
  apply (registry_sound [B_get page_A; B_get page_B]). vm_compute. reflexivity.
Defined.

(** X19. The end of [open]: when the list of targets has a descriptor whose
    id is the [targetId] of the answer, [open] returns what [get] returns
    for the first such descriptor, a Page object with that id, registered
    under it, the default page being as before; in every other case (no
    such descriptor, no [targetId], an answer that is [undefined] or
    [null]) it throws a TypeError. *)
Theorem open_finish_spec tr response pages b :
  browser_run tr new_Browser = Some b ->
  (forall page b', open_finish response pages b = Ok (page, b') ->
     exists target st,
       target ∈ pages /\
       JS.get response "targetId" = Ok (J (JStr (t_id target))) /\
       (page, b') = get target b /\
       _sockets b' !! t_id target = Some page /\
       heap b' !! page = Some st /\ _id st = t_id target /\
       _defaultPage b' = _defaultPage b /\
       browser_inv b') /\
  (forall e, open_finish response pages b = Raise e ->
     e = TypeError /\
     forall target, target ∈ pages ->
       JS.get response "targetId" <> Ok (J (JStr (t_id target)))).
Proof.
  intros Hrun.
  assert (Hinv : browser_inv b) by (eapply inv_run; [apply inv_new|exact Hrun]).
  unfold open_finish.
  destruct (find_target response pages) as [[target|]|e] eqn:Hfind.
  - split; [|done]. intros page b' [= Hg].
    apply find_target_Some in Hfind as [Hin Hget].
    pose proof (get_cached target b) as Hc. pose proof (inv_get target b Hinv) as Hinv'.
    assert (Hdp : _defaultPage (snd (get target b)) = _defaultPage b).
    { rewrite get_eq. by destruct (_sockets b !! t_id target). }
    rewrite Hg in Hc, Hinv', Hdp. cbn in Hc, Hinv', Hdp.
    destruct (inv_heap _ Hinv' _ _ Hc) as (st & Hst & Hid).
    exists target, st. do 7 (split; [done|]). exact Hinv'.
  - split; [done|]. intros e [= <-]. split; [done|]. by apply find_target_None.
  - split; [done|]. intros e' [= <-].
    apply find_target_Raise in Hfind. split; [by eapply get_raises|].
    intros target _. by rewrite Hfind.
Qed.

Lemma open_finish_spec_witness :
  exists target st,
    target ∈ [page_A; page_B] /\
    JS.get (J (JObj [("targetId"%string, JStr "B")])) "targetId" =
      Ok (J (JStr (t_id target))) /\
    (fst (get page_B registry_A), snd (get page_B registry_A)) = get target registry_A /\
    _sockets (snd (get page_B registry_A)) !! t_id target =
      Some (fst (get page_B registry_A)) /\
    heap (snd (get page_B registry_A)) !! fst (get page_B registry_A) = Some st /\
    _id st = t_id target /\
    _defaultPage (snd (get page_B registry_A)) = _defaultPage registry_A /\
    browser_inv (snd (get page_B registry_A)).
Proof.
  apply (proj1 (open_finish_spec [B_get page_A] (J (JObj [("targetId"%string, JStr "B")]))
                  [page_A; page_B] registry_A ltac:(vm_compute; reflexivity))).
  vm_compute. reflexivity.
Defined.

(** X20. [close] of the Browser, and so [close] of a Page, only queues one
    [Target.closeTarget] with the id of the page on the default page's
    connection: the registry keeps the closed page, and a later [get] of
    its target returns the same Page object. *)
Theorem close_keeps_registry tr page b b' :
  browser_run tr new_Browser = Some b ->
  close page b = Some b' ->
  exists d st st_d,
    _defaultPage b = Some d /\ heap b !! page = Some st /\ heap b !! d = Some st_d /\
    b' = mkBrowser (_sockets b) (_defaultPage b)
           (<[d := set_connecting
                     (connecting st_d ++
                        [mkSuspended (length (promises st_d)) "Target.closeTarget"
                           (JObj [("targetId"%string, JStr (_id st))])])
                     (set_promises (promises st_d ++ [Pending]) st_d)]> (heap b)) /\
    browser_inv b' /\
    (forall target, _sockets b !! t_id target = Some page ->
       get target b' = (page, b')).
Proof.
  intros Hrun.
  assert (Hinv : browser_inv b) by (eapply inv_run; [apply inv_new|exact Hrun]).
  unfold close.
  destruct (_defaultPage b) as [d|] eqn:Hd; [|done].
  destruct (heap b !! page) as [st|] eqn:Hst; [|done].
  unfold on_page. destruct (heap b !! d) as [st_d|] eqn:Hstd; [|done].
  rewrite send_eq. cbn. intros [= <-].
  exists d, st, st_d. split; [done|]. split; [done|]. split; [done|].
  split; [by rewrite Hd|]. split.
  - apply (inv_update b d st_d); try done.
    eapply wf_send; [by eapply inv_wf|].
    exact (send_eq "Target.closeTarget" (J (JObj [("targetId"%string, JStr (_id st))])) st_d).
  - intros target Ht. rewrite get_eq. cbn. by rewrite Ht.
Qed.

Lemma close_keeps_registry_witness :
  get page_B (closed 1 (browser_after history_initialized new_Browser)) =
    (1%nat, closed 1 (browser_after history_initialized new_Browser)).
Proof.
  destruct (close_keeps_registry history_initialized 1
              (browser_after history_initialized new_Browser)
              (closed 1 (browser_after history_initialized new_Browser)))
    as (d & st & st_d & _ & _ & _ & _ & _ & Hget).
  - vm_compute. reflexivity.
  - vm_compute. reflexivity.
  - apply Hget. vm_compute. reflexivity.
Defined.

(** X21. [_initialize] run again (as after ['browser-exit']) with the same
    list of targets, whatever happened in between, takes the Page object it
    made the first time as the default page again: no Page is constructed
    and no socket opened; the old object only gets one more
    [Target.setDiscoverTargets] queued. *)
Theorem reinitialize_reuses_page pre pages tr b b1 b2 b3 :
  browser_run pre new_Browser = Some b ->
  _initialize pages b = Some b1 ->
  browser_run tr b1 = Some b2 ->
  _initialize pages b2 = Some b3 ->
  exists d st2,
    _defaultPage b1 = Some d /\ _defaultPage b3 = Some d /\
    heap b2 !! d = Some st2 /\
    heap b3 =
      <[d := set_connecting
               (connecting st2 ++
                  [mkSuspended (length (promises st2)) "Target.setDiscoverTargets"
                     (JObj [("discover"%string, JBool true)])])
               (set_promises (promises st2 ++ [Pending]) st2)]> (heap b2) /\
    _sockets b3 = _sockets b2.
Proof.
  intros _ H1 Hrun H3. unfold _initialize in H1, H3.
  destruct (default_target pages) as [target|]; [|done].
  pose proof (get_cached target b) as Hc.
  destruct (get target b) as [d b0]. cbn in Hc.
  unfold on_page in H1. cbn in H1.
  destruct (heap b0 !! d) as [st0|]; [|done]. rewrite send_eq in H1. cbn in H1.
  injection H1 as <-. cbn in Hrun.
  assert (Hc2 : _sockets b2 !! t_id target = Some d).
  { eapply cached_run; [|exact Hrun]. exact Hc. }
  rewrite get_eq, Hc2 in H3. unfold on_page in H3. cbn in H3.
  destruct (heap b2 !! d) as [st2|] eqn:Hst2; [|done].
  rewrite send_eq in H3. cbn in H3. injection H3 as <-.
  exists d, st2. by repeat split.
Qed.

Lemma reinitialize_reuses_page_witness :
  _defaultPage
    (browser_after [B_initialize [page_B; page_A]]
       (browser_after [B_initialize [page_B; page_A]; B_page 0 Socket_open] new_Browser)) =
  _defaultPage (browser_after [B_initialize [page_B; page_A]] new_Browser).
Proof.
  destruct (reinitialize_reuses_page [] [page_B; page_A] [B_page 0 Socket_open]
              new_Browser
              (browser_after [B_initialize [page_B; page_A]] new_Browser)
              (browser_after [B_initialize [page_B; page_A]; B_page 0 Socket_open] new_Browser)
              (browser_after [B_initialize [page_B; page_A]]
                 (browser_after [B_initialize [page_B; page_A]; B_page 0 Socket_open]
                    new_Browser)))
    as (d & st2 & H1 & H3 & _).
  - reflexivity.
  - vm_compute. reflexivity.
  - vm_compute. reflexivity.
  - vm_compute. reflexivity.
  - by rewrite H1, H3.
Defined.
